(** * Search-based planning environment and trajectory execution manager

    A shallow embedding of two translation units of the motion stack:

    - [environment_chain3d.cpp]: the discrete joint-space graph that an SBPL
      search drives ([Chain3D]);
    - [trajectory_execution_manager.cpp]: controller selection, trajectory
      splitting and supervised execution ([TEM]).

    Conventions.  Joint angles and durations are C++ doubles in the source;
    they are embedded as exact rationals ([Q]), so rounding is abstracted.
    State identifiers are vector indices and are embedded as [nat].  Calls
    into collaborators (collision checking, forward kinematics, controller
    handles) are embedded as functions received as parameters.  The clock
    and the controller manager are read through functions of the number of
    readings made so far, so that two readings need not agree. *)

From Stdlib Require Import ZArith QArith Qround Qabs Lia Lqa List.
From stdpp Require Import base gmap sets list strings sorting.

Local Open Scope Z_scope.

(** ** Rational helpers *)

Definition Qltb (a b : Q) : bool := negb (Qle_bool b a).

Definition Qmax' (a b : Q) : Q := if Qltb a b then b else a.

Lemma Qltb_lt a b : Qltb a b = true ↔ (a < b)%Q.
Proof.
  unfold Qltb. rewrite negb_true_iff. split.
  - intros H. apply Qnot_le_lt. intros Hle.
    apply Qle_bool_iff in Hle. congruence.
  - intros H. destruct (Qle_bool b a) eqn:E; [|done].
    apply Qle_bool_iff in E. exfalso. by apply (Qlt_not_le a b).
Qed.

Lemma Qltb_ge a b : Qltb a b = false ↔ (b <= a)%Q.
Proof.
  unfold Qltb. rewrite negb_false_iff. apply Qle_bool_iff.
Qed.

Lemma Qmax'_ge_l a b : (a <= Qmax' a b)%Q.
Proof.
  unfold Qmax'. destruct (Qltb a b) eqn:E; [|apply Qle_refl].
  apply Qltb_lt in E. by apply Qlt_le_weak.
Qed.

Lemma Qmax'_ge_r a b : (b <= Qmax' a b)%Q.
Proof.
  unfold Qmax'. destruct (Qltb a b) eqn:E; [apply Qle_refl|].
  by apply Qltb_ge in E.
Qed.

Lemma Qmax'_cases a b : Qmax' a b = a ∨ Qmax' a b = b.
Proof. unfold Qmax'. destruct (Qltb a b); auto. Qed.

Lemma Qmax'_order a b :
  (Qmax' a b = a ∧ (b <= a)%Q) ∨ (Qmax' a b = b ∧ (a < b)%Q).
Proof.
  unfold Qmax'. destruct (Qltb a b) eqn:E.
  - right. split; [done|]. by apply Qltb_lt.
  - left. split; [done|]. by apply Qltb_ge.
Qed.

Module Chain3D.

(** Constants of [environment_chain3d.cpp]. *)
Definition LONG_RANGE_JOINT_DIFF : Q := 1 # 10.
Definition JOINT_DIST_MULT : Z := 1000.
Definition INT_MAX : Z := 2147483647.
Definition INT_MIN : Z := -2147483648.

(** [EnvChain3DHashEntry]: the fields the translation unit reads and writes. *)
Record EnvChain3DHashEntry := mkEntry {
  stateID : nat;
  coord : list Z;
  angles : list Q;
  xyz : Z * Z * Z;
  action : nat
}.

(** Modelled from the spec: the state table [EnvChain3DPlanningData], whose
    declaration is in a header that is not part of the sources.  It keeps an
    ordered sequence indexed by stateID and a mapping keyed by the discretised
    coordinate, together with the distinguished start and goal entries. *)
Record EnvChain3DPlanningData := mkData {
  state_ID_to_coord_table_ : list EnvChain3DHashEntry;
  coord_to_state_ID_table_ : gmap (list Z) EnvChain3DHashEntry;
  start_hash_entry_ : option EnvChain3DHashEntry;
  goal_hash_entry_ : option EnvChain3DHashEntry
}.

Definition empty_data : EnvChain3DPlanningData :=
  mkData [] ∅ None None.

(** Modelled from the spec: [addHashEntry] appends a new entry, assigns
    stateID = current size, stores the keyed mapping and returns the entry. *)
Definition addHashEntry (c : list Z) (a : list Q) (p : Z * Z * Z) (act : nat)
    (d : EnvChain3DPlanningData) : EnvChain3DHashEntry * EnvChain3DPlanningData :=
  let e := mkEntry (length (state_ID_to_coord_table_ d)) c a p act in
  (e, mkData (state_ID_to_coord_table_ d ++ [e])
             (<[c := e]> (coord_to_state_ID_table_ d))
             (start_hash_entry_ d) (goal_hash_entry_ d)).

(** Modelled from the spec: [getHashEntry] returns the entry stored under the
    coordinate, or nothing.  The action index takes no part in the key. *)
Definition getHashEntry (c : list Z) (act : nat) (d : EnvChain3DPlanningData)
    : option EnvChain3DHashEntry :=
  coord_to_state_ID_table_ d !! c.

Definition set_start (e : EnvChain3DHashEntry) (d : EnvChain3DPlanningData) :=
  mkData (state_ID_to_coord_table_ d) (coord_to_state_ID_table_ d)
         (Some e) (goal_hash_entry_ d).

Definition set_goal (e : EnvChain3DHashEntry) (d : EnvChain3DPlanningData) :=
  mkData (state_ID_to_coord_table_ d) (coord_to_state_ID_table_ d)
         (start_hash_entry_ d) (Some e).

(** Error codes written to the response by [setupForMotionPlan]. *)
Inductive MoveItErrorCode :=
| COLLISION_CHECKING_UNAVAILABLE
| START_STATE_IN_COLLISION
| GOAL_IN_COLLISION
| INVALID_ROBOT_STATE
| INVALID_GOAL_CONSTRAINTS.

Section Environment.

(** The per-joint wrapper [JointMotionWrapper] is declared in the missing
    header; its methods are parameters here.  [getIntegerDistance w a b d]
    is the integer distance between two values of the joint at step [d];
    [getSuccessorValue w a d] is the value reached from [a] by the signed step
    [d], when the joint accepts it. *)
Context {JointMotionWrapper : Type}.
Variable getIntegerDistance : JointMotionWrapper → Q → Q → Q → Z.
Variable getSuccessorValue : JointMotionWrapper → Q → Q → option Q.

(** Discretisation of one joint value into its integer bucket
    ([convertJointAnglesToCoord], also in the missing header). *)
Variable discretise : Q → Z.

(** Collaborators: the distance-field collision check on the group at given
    joint values, with the allowed-collision matrix (as in setup) and without
    it (as in successor generation), and the end-effector voxel of a
    configuration ([getGridXYZInt] after forward kinematics), which is absent
    when the pose is outside the field. *)
Variable collision_acm : list Q → bool.
Variable collision : list Q → bool.
Variable getGridXYZInt : list Q → option (Z * Z * Z).

(** Modelled from the spec: [convertJointAnglesToCoord], one integer per
    active joint, the quantised angle. *)
Definition convertJointAnglesToCoord (a : list Q) : list Z :=
  discretise <$> a.

(** Modelled from the spec: [SingleJointMotionPrimitive], identified by the
    joint it moves and its signed step; generation copies the configuration
    and mutates exactly that component. *)
Record SingleJointMotionPrimitive := mkPrim {
  prim_wrapper : JointMotionWrapper;
  prim_index : nat;
  prim_delta : Q
}.

(** Modelled from the spec: [generateSuccessorState] returns a copy of the
    source configuration in which the joint of the primitive is advanced by
    its signed step, or nothing when the joint rejects the step. *)
Definition generateSuccessorState (p : SingleJointMotionPrimitive)
    (src : list Q) : option (list Q) :=
  match src !! prim_index p with
  | None => None
  | Some v =>
      match getSuccessorValue (prim_wrapper p) v (prim_delta p) with
      | None => None
      | Some v' => Some (<[prim_index p := v']> src)
      end
  end.

(** The members of [EnvironmentChain3D] that the graph interface reads and
    writes.  The statistics counters and [closest_to_goal_] only feed log
    output and are left out. *)
Record EnvironmentChain3D := mkEnv {
  planning_data_ : EnvChain3DPlanningData;
  possible_actions_ : list SingleJointMotionPrimitive;
  joint_motion_wrappers_ : list JointMotionWrapper
}.

Definition fresh_env : EnvironmentChain3D := mkEnv empty_data [] [].

Definition SizeofCreatedEnv (env : EnvironmentChain3D) : nat :=
  length (state_ID_to_coord_table_ (planning_data_ env)).

(** [getJointDistanceIntegerSum]: the loop [dist += ...] over the joints,
    with the accumulator written out.  Reading a wrapper past the end of
    [joint_motion_wrappers_] is undefined in the source; the loop stops
    there in the embedding. *)
Fixpoint int_sum_loop (ws : list JointMotionWrapper) (a1 a2 : list Q)
    (dist : Z) : Z :=
  match a1, a2, ws with
  | x :: a1', y :: a2', w :: ws' =>
      int_sum_loop ws' a1' a2'
        (dist + getIntegerDistance w x y LONG_RANGE_JOINT_DIFF)
  | _, _, _ => dist
  end.

Definition getJointDistanceIntegerSum (ws : list JointMotionWrapper)
    (a1 a2 : list Q) : Z :=
  if negb (length a1 =? length a2)%nat then INT_MAX
  else int_sum_loop ws a1 a2 0.

(** [getJointDistanceIntegerMax]: same loop keeping the maximum. *)
Fixpoint int_max_loop (ws : list JointMotionWrapper) (a1 a2 : list Q)
    (max_dist : Z) : Z :=
  match a1, a2, ws with
  | x :: a1', y :: a2', w :: ws' =>
      let dist := getIntegerDistance w x y LONG_RANGE_JOINT_DIFF in
      int_max_loop ws' a1' a2' (if max_dist <? dist then dist else max_dist)
  | _, _, _ => max_dist
  end.

Definition getJointDistanceIntegerMax (ws : list JointMotionWrapper)
    (a1 a2 : list Q) : Z :=
  if negb (length a1 =? length a2)%nat then INT_MAX
  else int_max_loop ws a1 a2 0.

(** The conversion of a [double] that holds an integer to [int], as a
    function that returns [int] applies it to its result: out of the range
    of [int] the conversion is undefined in the source and yields [None]
    here. *)
Definition double_to_int (v : Z) : option Z :=
  if (INT_MIN <=? v) && (v <=? INT_MAX) then Some v else None.

(** [getEndEffectorHeuristic].  JOINT_DIST_MULT is a [double], so the
    product is taken in [double], where it is exact for an [int] factor,
    and converted to [int] on return.  Indexing the table out of range is
    undefined in the source and yields [None] here. *)
Definition getEndEffectorHeuristic (env : EnvironmentChain3D)
    (from_stateID to_stateID : nat) : option Z :=
  let tbl := state_ID_to_coord_table_ (planning_data_ env) in
  match tbl !! from_stateID, tbl !! to_stateID with
  | Some f, Some t =>
      double_to_int
        (getJointDistanceIntegerSum (joint_motion_wrappers_ env)
           (angles f) (angles t) * JOINT_DIST_MULT)
  | _, _ => None
  end.

Definition GetFromToHeuristic := getEndEffectorHeuristic.

Definition GetGoalHeuristic (env : EnvironmentChain3D) (id : nat) : option Z :=
  match goal_hash_entry_ (planning_data_ env) with
  | Some g => GetFromToHeuristic env id (stateID g)
  | None => None
  end.

(** [calculateCost]: the uniform edge cost. *)
Definition calculateCost (e1 e2 : EnvChain3DHashEntry) : Z := 1000.

(** One pass of the body of the loop of [GetSuccs] over
    [possible_actions_], for the action at index [i].  [g] is the goal entry
    and [hs] the entry being expanded; the three [continue] statements are the
    three branches that leave the state unchanged. *)
Definition expand_action (ws : list JointMotionWrapper)
    (g hs : EnvChain3DHashEntry)
    (st : EnvChain3DPlanningData * list nat * list Z)
    (i : nat) (p : SingleJointMotionPrimitive)
    : EnvChain3DPlanningData * list nat * list Z :=
  let '(d, succ_idv, cost_v) := st in
  match generateSuccessorState p (angles hs) with
  | None => st
  | Some succ_joint_angles =>
      let max_dist :=
        getJointDistanceIntegerMax ws succ_joint_angles (angles g) in
      let succ_coord := convertJointAnglesToCoord succ_joint_angles in
      if collision succ_joint_angles then st
      else
        match getGridXYZInt succ_joint_angles with
        | None => st
        | Some p3 =>
            let found :=
              if max_dist =? 1 then Some g else getHashEntry succ_coord i d in
            let '(e, d') :=
              match found with
              | Some e => (e, d)
              | None => addHashEntry succ_coord succ_joint_angles p3 i d
              end in
            (d', succ_idv ++ [stateID e], cost_v ++ [calculateCost hs e])
        end
  end.

Fixpoint succs_loop (ws : list JointMotionWrapper)
    (g hs : EnvChain3DHashEntry)
    (acts : list SingleJointMotionPrimitive) (i : nat)
    (st : EnvChain3DPlanningData * list nat * list Z)
    : EnvChain3DPlanningData * list nat * list Z :=
  match acts with
  | [] => st
  | p :: rest => succs_loop ws g hs rest (S i) (expand_action ws g hs st i p)
  end.

(** [GetSuccs].  Dereferencing a null goal entry is undefined in the source
    and yields [None]; otherwise the result is the environment after the
    expansion with the successor identifiers and their costs. *)
Definition GetSuccs (env : EnvironmentChain3D) (source_state_ID : nat)
    : option (EnvironmentChain3D * list nat * list Z) :=
  let d := planning_data_ env in
  match goal_hash_entry_ d with
  | None => None
  | Some g =>
      if (source_state_ID =? stateID g)%nat then Some (env, [], [])
      else if (length (state_ID_to_coord_table_ d) <=? source_state_ID)%nat
      then Some (env, [], [])
      else
        match state_ID_to_coord_table_ d !! source_state_ID with
        | None => None
        | Some hs =>
            let '(d', succ_idv, cost_v) :=
              succs_loop (joint_motion_wrappers_ env) g hs
                (possible_actions_ env) 0%nat (d, [], []) in
            Some (mkEnv d' (possible_actions_ env)
                    (joint_motion_wrappers_ env), succ_idv, cost_v)
        end
  end.

(** What [setupForMotionPlan] reads from the planning scene and the request:
    whether the hybrid collision world and robot are there, the wrappers and
    names of the group's active joints, the group's start values, the joint
    constraints of the first goal constraint, and whether the self and world
    distance fields have the same dimensions. *)
Record MotionPlanRequest := mkReq {
  hybrid_world_available : bool;
  hybrid_robot_available : bool;
  group_wrappers : list JointMotionWrapper;
  active_dof_names : list string;
  start_joint_values : list Q;
  joint_constraints : list (string * Q);
  field_sizes_match : bool
}.

(** The map [goal_vals] filled by assignment, one constraint after another. *)
Definition goal_vals (cs : list (string * Q)) : gmap string Q :=
  foldl (λ m c, <[c.1 := c.2]> m) ∅ cs.

(** The goal state is the start state with the constrained joints set. *)
Definition goal_joint_values (req : MotionPlanRequest) : list Q :=
  zip_with (λ n v, default v (goal_vals (joint_constraints req) !! n))
    (active_dof_names req) (start_joint_values req).

(** [setMotionPrimitives]: two primitives per active joint; the action list
    is cleared first, the wrapper list is only appended to. *)
Fixpoint primitives_from (ws : list JointMotionWrapper) (i : nat)
    : list SingleJointMotionPrimitive :=
  match ws with
  | [] => []
  | w :: rest =>
      mkPrim w i LONG_RANGE_JOINT_DIFF
      :: mkPrim w i (- LONG_RANGE_JOINT_DIFF)%Q
      :: primitives_from rest (S i)
  end.

Definition setMotionPrimitives (env : EnvironmentChain3D)
    (ws : list JointMotionWrapper) : EnvironmentChain3D :=
  mkEnv (planning_data_ env) (primitives_from ws 0)
        (joint_motion_wrappers_ env ++ ws).

Definition with_data (env : EnvironmentChain3D) (d : EnvChain3DPlanningData) :=
  mkEnv d (possible_actions_ env) (joint_motion_wrappers_ env).

(** [setupForMotionPlan]: the environment it leaves and the error code it
    reports, [None] when it returns true.  The wall marking and the run of the
    workspace search touch no state that the graph interface reads. *)
Definition setupForMotionPlan (env : EnvironmentChain3D)
    (req : MotionPlanRequest) : EnvironmentChain3D * option MoveItErrorCode :=
  if negb (hybrid_world_available req)
  then (env, Some COLLISION_CHECKING_UNAVAILABLE)
  else if negb (hybrid_robot_available req)
  then (env, Some COLLISION_CHECKING_UNAVAILABLE)
  else
    let env1 := setMotionPrimitives env (group_wrappers req) in
    if collision_acm (start_joint_values req)
    then (env1, Some START_STATE_IN_COLLISION)
    else if negb (field_sizes_match req)
    then (env1, Some COLLISION_CHECKING_UNAVAILABLE)
    else
      let start_coords :=
        convertJointAnglesToCoord (start_joint_values req) in
      match getGridXYZInt (start_joint_values req) with
      | None => (env1, Some INVALID_ROBOT_STATE)
      | Some start_xyz =>
          let '(se, d1) :=
            addHashEntry start_coords (start_joint_values req) start_xyz 0
              (planning_data_ env1) in
          let env2 := with_data env1 (set_start se d1) in
          let goal_values := goal_joint_values req in
          if collision_acm goal_values
          then (env2, Some GOAL_IN_COLLISION)
          else
            let goal_coords := convertJointAnglesToCoord goal_values in
            match getGridXYZInt goal_values with
            | None => (env2, Some INVALID_GOAL_CONSTRAINTS)
            | Some goal_xyz =>
                let '(ge, d2) :=
                  addHashEntry goal_coords goal_values goal_xyz 0
                    (planning_data_ env2) in
                (with_data env2 (set_goal ge d2), None)
            end
      end.

(** [InitializeMDPCfg]: the start and goal identifiers, when both are set. *)
Definition InitializeMDPCfg (env : EnvironmentChain3D) : option (nat * nat) :=
  match goal_hash_entry_ (planning_data_ env),
        start_hash_entry_ (planning_data_ env) with
  | Some g, Some s => Some (stateID s, stateID g)
  | _, _ => None
  end.

(** *** Surviving candidates

    A candidate of the expansion of [hs] survives when its primitive
    generates it, the collision check passes and its voxel is in bounds. *)
Definition survivor (hs : EnvChain3DHashEntry)
    (p : SingleJointMotionPrimitive) : option (list Q * (Z * Z * Z)) :=
  match generateSuccessorState p (angles hs) with
  | None => None
  | Some a =>
      if collision a then None
      else match getGridXYZInt a with
           | None => None
           | Some p3 => Some (a, p3)
           end
  end.

Definition absorbed (ws : list JointMotionWrapper) (g : EnvChain3DHashEntry)
    (a : list Q) : bool :=
  getJointDistanceIntegerMax ws a (angles g) =? 1.

(** The per-joint distances that the sum and the maximum range over. *)
Fixpoint joint_distances (ws : list JointMotionWrapper) (a1 a2 : list Q)
    : list Z :=
  match a1, a2, ws with
  | x :: a1', y :: a2', w :: ws' =>
      getIntegerDistance w x y LONG_RANGE_JOINT_DIFF
      :: joint_distances ws' a1' a2'
  | _, _, _ => []
  end.

Definition Zsum (l : list Z) : Z := foldr Z.add 0 l.

(** *** Well-formed state tables

    Entries sit at the index that is their stateID and carry the
    discretisation of their own angles; the keyed mapping only holds entries
    of the table, under their own coordinate; the goal entry is in the
    table. *)
Record wf_data (d : EnvChain3DPlanningData) : Prop := mkWf {
  wf_ids : ∀ i e, state_ID_to_coord_table_ d !! i = Some e → stateID e = i;
  wf_coord : ∀ i e, state_ID_to_coord_table_ d !! i = Some e →
             coord e = convertJointAnglesToCoord (angles e);
  wf_map : ∀ c e, coord_to_state_ID_table_ d !! c = Some e →
           coord e = c ∧ state_ID_to_coord_table_ d !! stateID e = Some e;
  wf_goal : ∀ g, goal_hash_entry_ d = Some g →
            state_ID_to_coord_table_ d !! stateID g = Some g
}.

(** The primitives of an environment move the joint whose wrapper they
    hold, by the long-range step or its opposite. *)
Definition wf_actions (env : EnvironmentChain3D) : Prop :=
  ∀ p, p ∈ possible_actions_ env →
    joint_motion_wrappers_ env !! prim_index p = Some (prim_wrapper p) ∧
    (prim_delta p = LONG_RANGE_JOINT_DIFF ∨
     prim_delta p = (- LONG_RANGE_JOINT_DIFF)%Q).

(** What the graph interface needs of the missing wrapper: distances vanish
    on equal values and are never negative; one step of a primitive brings
    the goal at most one unit closer. *)
Record JointContract (w : JointMotionWrapper) : Prop := mkContract {
  dist_refl : ∀ a, getIntegerDistance w a a LONG_RANGE_JOINT_DIFF = 0;
  dist_nonneg : ∀ a b, 0 ≤ getIntegerDistance w a b LONG_RANGE_JOINT_DIFF;
  dist_step : ∀ a d a' b,
    d = LONG_RANGE_JOINT_DIFF ∨ d = (- LONG_RANGE_JOINT_DIFF)%Q →
    getSuccessorValue w a d = Some a' →
    getIntegerDistance w a b LONG_RANGE_JOINT_DIFF
    ≤ 1 + getIntegerDistance w a' b LONG_RANGE_JOINT_DIFF
}.

(** A step of a primitive of the environment moves the value of its joint
    into another bucket of the discretisation. *)
Definition steps_change_bucket (env : EnvironmentChain3D) : Prop :=
  ∀ p a a', p ∈ possible_actions_ env →
    getSuccessorValue (prim_wrapper p) a (prim_delta p) = Some a' →
    discretise a' ≠ discretise a.

(** *** The distance loops *)

Lemma int_sum_loop_acc ws a1 a2 acc :
  int_sum_loop ws a1 a2 acc = acc + Zsum (joint_distances ws a1 a2).
Proof.
  revert a2 ws acc. induction a1 as [|x a1 IH]; intros [|y a2] [|w ws] acc;
    simpl; try lia.
  rewrite IH. lia.
Qed.

Lemma foldr_max_acc (l : list Z) acc d :
  foldr Z.max (Z.max acc d) l = Z.max d (foldr Z.max acc l).
Proof. induction l as [|x l IH]; simpl; [lia|]. rewrite IH. lia. Qed.

Lemma int_max_loop_acc ws a1 a2 acc :
  int_max_loop ws a1 a2 acc = foldr Z.max acc (joint_distances ws a1 a2).
Proof.
  revert a2 ws acc. induction a1 as [|x a1 IH]; intros [|y a2] [|w ws] acc;
    simpl; try done.
  rewrite IH, <- foldr_max_acc. f_equal.
  destruct (acc <? _) eqn:E; [apply Z.ltb_lt in E|apply Z.ltb_ge in E]; lia.
Qed.

(** The value that the absorption test compares with 1 is the largest of
    the per-joint integer distances, and 0 when all are negative. *)
Lemma getJointDistanceIntegerMax_eq ws a1 a2 :
  length a1 = length a2 →
  getJointDistanceIntegerMax ws a1 a2
  = foldr Z.max 0 (joint_distances ws a1 a2).
Proof.
  intros Hlen. unfold getJointDistanceIntegerMax.
  apply Nat.eqb_eq in Hlen. rewrite Hlen. simpl. apply int_max_loop_acc.
Qed.

Lemma joint_distances_refl ws a :
  Forall JointContract ws → Zsum (joint_distances ws a a) = 0.
Proof.
  intros Hws. revert a. induction Hws as [|w ws Hw _ IH]; intros [|x a];
    simpl; try done.
  rewrite (dist_refl w Hw), IH. done.
Qed.

Lemma joint_distances_nonneg ws a1 a2 :
  Forall JointContract ws → 0 ≤ Zsum (joint_distances ws a1 a2).
Proof.
  intros Hws. revert a1 a2.
  induction Hws as [|w ws Hw _ IH]; intros [|x a1] [|y a2]; simpl; try lia.
  pose proof (dist_nonneg w Hw x y). pose proof (IH a1 a2). lia.
Qed.

(** Replacing the value of one joint by its successor under a primitive
    raises the joint-distance sum to any target by at most one. *)
Lemma joint_distances_step ws a b i w v d v' :
  Forall JointContract ws →
  ws !! i = Some w → a !! i = Some v →
  d = LONG_RANGE_JOINT_DIFF ∨ d = (- LONG_RANGE_JOINT_DIFF)%Q →
  getSuccessorValue w v d = Some v' →
  Zsum (joint_distances ws a b)
  ≤ 1 + Zsum (joint_distances ws (<[i := v']> a) b).
Proof.
  intros Hws. revert a b i.
  induction Hws as [|w0 ws Hw0 Hws IH]; intros [|x a] [|y b] [|i] Hw Ha Hd Hs;
    simplify_eq/=; try lia.
  - pose proof (dist_step w Hw0 v d v' y Hd Hs). lia.
  - pose proof (IH a b i Hw Ha Hd Hs). lia.
Qed.

(** *** Growth of the state table

    [grows_by d d' news]: [d'] is [d] with the entries [news] appended, each
    under a coordinate that [d] did not hold, with no coordinate added
    twice. *)
Record grows_by (d d' : EnvChain3DPlanningData)
    (news : list EnvChain3DHashEntry) : Prop := mkGrows {
  grow_table : state_ID_to_coord_table_ d' = state_ID_to_coord_table_ d ++ news;
  grow_start : start_hash_entry_ d' = start_hash_entry_ d;
  grow_goal : goal_hash_entry_ d' = goal_hash_entry_ d;
  grow_mono : ∀ c e, coord_to_state_ID_table_ d !! c = Some e →
              coord_to_state_ID_table_ d' !! c = Some e;
  grow_inv : ∀ c e, coord_to_state_ID_table_ d' !! c = Some e →
             coord_to_state_ID_table_ d !! c = Some e ∨
             (coord_to_state_ID_table_ d !! c = None ∧ e ∈ news ∧ coord e = c);
  grow_nodup : NoDup (coord <$> news);
  grow_new : ∀ e, e ∈ news →
             coord_to_state_ID_table_ d !! coord e = None ∧
             coord_to_state_ID_table_ d' !! coord e = Some e;
  grow_ids : ∀ k e, news !! k = Some e →
             stateID e = (length (state_ID_to_coord_table_ d) + k)%nat
}.

Lemma grows_by_refl d : grows_by d d [].
Proof.
  split; try done.
  - by rewrite app_nil_r.
  - intros c e H. by left.
  - constructor.
  - intros e H. by apply elem_of_nil in H.
Qed.

Lemma grows_by_add d c a p3 i :
  coord_to_state_ID_table_ d !! c = None →
  grows_by d (addHashEntry c a p3 i d).2 [(addHashEntry c a p3 i d).1].
Proof.
  intros Hnone. split; simpl; try done.
  - intros c' e H. rewrite lookup_insert_ne; [done|]. congruence.
  - intros c' e H. destruct (decide (c = c')) as [->|Hne].
    + rewrite lookup_insert_eq in H. simplify_eq. right.
      split; [done|]. split; [apply list_elem_of_singleton|]; done.
    + rewrite lookup_insert_ne in H by done. by left.
  - apply NoDup_singleton.
  - intros e He. apply list_elem_of_singleton in He. subst e. simpl.
    split; [done|]. apply lookup_insert_eq.
  - intros [|k] e H; simplify_eq/=. lia.
Qed.

Lemma grows_by_trans d d1 d2 n1 n2 :
  grows_by d d1 n1 → grows_by d1 d2 n2 → grows_by d d2 (n1 ++ n2).
Proof.
  intros H1 H2. split.
  - rewrite (grow_table _ _ _ H2), (grow_table _ _ _ H1). by rewrite app_assoc.
  - rewrite (grow_start _ _ _ H2). apply (grow_start _ _ _ H1).
  - rewrite (grow_goal _ _ _ H2). apply (grow_goal _ _ _ H1).
  - intros c e H. by apply (grow_mono _ _ _ H2), (grow_mono _ _ _ H1).
  - intros c e H. destruct (grow_inv _ _ _ H2 c e H) as [Hold|(Hn & Hin & Hc)].
    + destruct (grow_inv _ _ _ H1 c e Hold) as [?|(? & ? & ?)]; [by left|].
      right. split_and!; [done| |done]. apply elem_of_app. by left.
    + right. split_and!; [| |done].
      * destruct (coord_to_state_ID_table_ d !! c) eqn:E; [|done].
        apply (grow_mono _ _ _ H1) in E. congruence.
      * apply elem_of_app. by right.
  - rewrite fmap_app. apply NoDup_app. split_and!.
    + apply (grow_nodup _ _ _ H1).
    + intros c Hc1 Hc2.
      apply list_elem_of_fmap in Hc1 as (e1 & -> & He1).
      apply list_elem_of_fmap in Hc2 as (e2 & Heq & He2).
      destruct (grow_new _ _ _ H1 e1 He1) as [_ Hin1].
      destruct (grow_new _ _ _ H2 e2 He2) as [Hnot2 _].
      rewrite Heq in Hin1. congruence.
    + apply (grow_nodup _ _ _ H2).
  - intros e He. apply elem_of_app in He as [He|He].
    + destruct (grow_new _ _ _ H1 e He) as [Ha Hb]. split; [done|].
      by apply (grow_mono _ _ _ H2).
    + destruct (grow_new _ _ _ H2 e He) as [Ha Hb]. split; [|done].
      destruct (coord_to_state_ID_table_ d !! coord e) eqn:E; [|done].
      apply (grow_mono _ _ _ H1) in E. congruence.
  - intros k e Hk. apply lookup_app_Some in Hk as [Hk|[Hlen Hk]].
    + apply (grow_ids _ _ _ H1 _ _ Hk).
    + rewrite (grow_ids _ _ _ H2 _ _ Hk), (grow_table _ _ _ H1), length_app.
      lia.
Qed.

(** Growth by entries that carry the discretisation of their own angles
    keeps the table well formed. *)
Lemma grows_by_wf d d' news :
  wf_data d → grows_by d d' news →
  (∀ e, e ∈ news → coord e = convertJointAnglesToCoord (angles e)) →
  wf_data d'.
Proof.
  intros Hwf Hg Hnews.
  assert (Hnew_at : ∀ e, e ∈ news →
            state_ID_to_coord_table_ d' !! stateID e = Some e).
  { intros e He. apply list_elem_of_lookup in He as [k Hk].
    rewrite (grow_ids _ _ _ Hg _ _ Hk), (grow_table _ _ _ Hg).
    by rewrite lookup_app_r, Nat.add_comm, Nat.add_sub by lia. }
  split.
  - intros i e Hi. rewrite (grow_table _ _ _ Hg) in Hi.
    apply lookup_app_Some in Hi as [Hi|[Hlen Hi]].
    + by apply (wf_ids _ Hwf).
    + rewrite (grow_ids _ _ _ Hg _ _ Hi). lia.
  - intros i e Hi. rewrite (grow_table _ _ _ Hg) in Hi.
    apply lookup_app_Some in Hi as [Hi|[Hlen Hi]].
    + by apply (wf_coord _ Hwf i).
    + apply Hnews. apply list_elem_of_lookup. eauto.
  - intros c e Hc. destruct (grow_inv _ _ _ Hg c e Hc) as [Hold|(_ & Hin & Hce)].
    + destruct (wf_map _ Hwf c e Hold) as [? Ht]. split; [done|].
      rewrite (grow_table _ _ _ Hg). by apply lookup_app_l_Some.
    + split; [done|]. by apply Hnew_at.
  - intros g Hgoal. rewrite (grow_goal _ _ _ Hg) in Hgoal.
    rewrite (grow_table _ _ _ Hg). apply lookup_app_l_Some.
    by apply (wf_goal _ Hwf).
Qed.

(** *** The expansion loop *)

(** The identifier returned for a surviving candidate: the goal's when the
    candidate is absorbed, otherwise that of the entry held under the
    candidate's coordinate. *)
Definition resolved (ws : list JointMotionWrapper) (g : EnvChain3DHashEntry)
    (d' : EnvChain3DPlanningData) (c : list Q * (Z * Z * Z)) (id : nat)
    : Prop :=
  if absorbed ws g c.1 then id = stateID g
  else ∃ e, getHashEntry (convertJointAnglesToCoord c.1) 0 d' = Some e ∧
            id = stateID e.

(** A new entry stems from a surviving candidate that was not absorbed. *)
Definition from_candidate (ws : list JointMotionWrapper)
    (g hs : EnvChain3DHashEntry) (acts : list SingleJointMotionPrimitive)
    (e : EnvChain3DHashEntry) : Prop :=
  ∃ p, p ∈ acts ∧ survivor hs p = Some (angles e, xyz e) ∧
       absorbed ws g (angles e) = false ∧
       coord e = convertJointAnglesToCoord (angles e).

Lemma expand_action_cases ws g hs d ids costs i p :
  expand_action ws g hs (d, ids, costs) i p =
  match survivor hs p with
  | None => (d, ids, costs)
  | Some (a, p3) =>
      if absorbed ws g a then (d, ids ++ [stateID g], costs ++ [1000])
      else
        match getHashEntry (convertJointAnglesToCoord a) i d with
        | Some e => (d, ids ++ [stateID e], costs ++ [1000])
        | None =>
            let r := addHashEntry (convertJointAnglesToCoord a) a p3 i d in
            (r.2, ids ++ [stateID r.1], costs ++ [1000])
        end
  end.
Proof.
  unfold expand_action, survivor, absorbed.
  destruct (generateSuccessorState p (angles hs)) as [a|]; [|done].
  destruct (collision a); [done|].
  destruct (getGridXYZInt a) as [p3|]; [|done].
  destruct (_ =? 1); [done|].
  by destruct (getHashEntry _ i d).
Qed.

Lemma resolved_mono ws g d d' news c id :
  grows_by d d' news → resolved ws g d c id → resolved ws g d' c id.
Proof.
  intros Hg. unfold resolved. destruct (absorbed ws g c.1); [done|].
  intros (e & He & ->). exists e. split; [|done].
  by apply (grow_mono _ _ _ Hg).
Qed.

Lemma succs_loop_spec ws g hs acts : ∀ i d ids costs d' ids' costs',
  succs_loop ws g hs acts i (d, ids, costs) = (d', ids', costs') →
  ∃ new_ids news,
    ids' = ids ++ new_ids ∧
    costs' = costs ++ replicate (length new_ids) 1000 ∧
    grows_by d d' news ∧
    Forall (from_candidate ws g hs acts) news ∧
    Forall2 (resolved ws g d') (omap (survivor hs) acts) new_ids.
Proof.
  induction acts as [|p acts IH]; intros i d ids costs d' ids' costs' Hrun.
  - simpl in Hrun. simplify_eq. exists [], [].
    rewrite !app_nil_r. split_and!; try done. apply grows_by_refl.
  - cbn [succs_loop] in Hrun. rewrite expand_action_cases in Hrun.
    assert (Hweak : ∀ news, Forall (from_candidate ws g hs acts) news →
                      Forall (from_candidate ws g hs (p :: acts)) news).
    { intros news Hn. eapply Forall_impl; [exact Hn|]. intros e (q & Hq & ?).
      exists q. split; [by apply elem_of_cons; right|done]. }
    destruct (survivor hs p) as [[a p3]|] eqn:Hsurv.
    + destruct (absorbed ws g a) eqn:Habs.
      * apply IH in Hrun as (new_ids & news & -> & -> & Hg & Hn & Hf).
        exists (stateID g :: new_ids), news. simpl. rewrite Hsurv.
        rewrite <- !app_assoc. simpl. split_and!; try done; [by apply Hweak|].
        constructor; [|done]. unfold resolved. simpl. by rewrite Habs.
      * destruct (getHashEntry (convertJointAnglesToCoord a) i d) as [e|] eqn:Hl.
        -- apply IH in Hrun as (new_ids & news & -> & -> & Hg & Hn & Hf).
           exists (stateID e :: new_ids), news. simpl. rewrite Hsurv.
           rewrite <- !app_assoc. simpl.
           split_and!; try done; [by apply Hweak|].
           constructor; [|done]. unfold resolved. simpl. rewrite Habs.
           exists e. split; [|done]. by apply (grow_mono _ _ _ Hg).
        -- simpl in Hrun.
           apply IH in Hrun as (new_ids & news & -> & -> & Hg & Hn & Hf).
           set (r := addHashEntry (convertJointAnglesToCoord a) a p3 i d) in *.
           pose proof (grows_by_add d (convertJointAnglesToCoord a) a p3 i Hl)
             as Hadd. fold r in Hadd.
           exists (stateID r.1 :: new_ids), (r.1 :: news). simpl.
           rewrite Hsurv. rewrite <- !app_assoc. simpl. split_and!; try done.
           ++ apply (grows_by_trans _ _ _ [r.1] news Hadd Hg).
           ++ constructor; [|by apply Hweak].
              exists p. split; [apply elem_of_cons; by left|]. done.
           ++ constructor; [|done]. unfold resolved. simpl. rewrite Habs.
              exists r.1. split; [|done]. apply (grow_mono _ _ _ Hg).
              apply lookup_insert_eq.
    + apply IH in Hrun as (new_ids & news & -> & -> & Hg & Hn & Hf).
      exists new_ids, news. simpl. rewrite Hsurv.
      split_and!; try done. by apply Hweak.
Qed.

(** *** Successor generation as a whole *)

Lemma GetSuccs_goal env g :
  goal_hash_entry_ (planning_data_ env) = Some g →
  GetSuccs env (stateID g) = Some (env, [], []).
Proof. intros Hg. unfold GetSuccs. by rewrite Hg, Nat.eqb_refl. Qed.

Lemma GetSuccs_expand env src g hs env' ids costs :
  goal_hash_entry_ (planning_data_ env) = Some g →
  src ≠ stateID g →
  state_ID_to_coord_table_ (planning_data_ env) !! src = Some hs →
  GetSuccs env src = Some (env', ids, costs) →
  possible_actions_ env' = possible_actions_ env ∧
  joint_motion_wrappers_ env' = joint_motion_wrappers_ env ∧
  costs = replicate (length ids) 1000 ∧
  ∃ news,
    grows_by (planning_data_ env) (planning_data_ env') news ∧
    Forall (from_candidate (joint_motion_wrappers_ env) g hs
              (possible_actions_ env)) news ∧
    Forall2 (resolved (joint_motion_wrappers_ env) g (planning_data_ env'))
      (omap (survivor hs) (possible_actions_ env)) ids.
Proof.
  intros Hg Hne Hhs Hrun. unfold GetSuccs in Hrun. rewrite Hg in Hrun.
  apply Nat.eqb_neq in Hne. rewrite Hne in Hrun.
  pose proof (lookup_lt_Some _ _ _ Hhs) as Hlt.
  apply Nat.leb_gt in Hlt. rewrite Hlt, Hhs in Hrun.
  destruct (succs_loop _ _ _ _ _ _) as [[d' ids'] costs'] eqn:Hloop.
  simplify_eq. simpl.
  apply succs_loop_spec in Hloop as (new_ids & news & -> & -> & ? & ? & ?).
  split_and!; try done. exists news. done.
Qed.

(** Successor generation keeps a well-formed table well formed. *)
Lemma GetSuccs_wf env src env' ids costs :
  wf_data (planning_data_ env) →
  GetSuccs env src = Some (env', ids, costs) →
  wf_data (planning_data_ env').
Proof.
  intros Hwf Hrun. pose proof Hrun as Hrun'. unfold GetSuccs in Hrun.
  destruct (goal_hash_entry_ (planning_data_ env)) as [g|] eqn:Hg; [|done].
  destruct (src =? stateID g)%nat eqn:He; [by simplify_eq|].
  destruct (_ <=? src)%nat eqn:Hlen; [by simplify_eq|].
  destruct (state_ID_to_coord_table_ (planning_data_ env) !! src)
    as [hs|] eqn:Hhs; [|done].
  clear Hrun. apply Nat.eqb_neq in He.
  destruct (GetSuccs_expand env src g hs env' ids costs Hg He Hhs Hrun')
    as (_ & _ & _ & news & Hgrow & Hnews & _).
  apply (grows_by_wf _ _ news Hwf Hgrow).
  intros e Hin. rewrite Forall_forall in Hnews.
  by destruct (Hnews e Hin) as (p & _ & _ & _ & Hc).
Qed.

(** C6.  Expanding a state that is in the table and is not the goal returns
    one identifier per surviving candidate, in action order.  A candidate
    whose maximal integer joint distance to the goal is exactly 1 gets the
    goal's stateID.  Any other candidate gets the stateID of the entry held
    under its discretised coordinate: the entry that was already there when
    the lookup hits, a new one otherwise.  The table grows only by entries
    whose coordinate it did not hold, one per coordinate, each built from a
    candidate that was not absorbed. *)
Theorem GetSuccs_absorbs_or_looks_up env src g hs env' ids costs :
  goal_hash_entry_ (planning_data_ env) = Some g →
  src ≠ stateID g →
  state_ID_to_coord_table_ (planning_data_ env) !! src = Some hs →
  GetSuccs env src = Some (env', ids, costs) →
  let ws := joint_motion_wrappers_ env in
  let cands := omap (survivor hs) (possible_actions_ env) in
  length ids = length cands ∧
  (∀ k a p3, cands !! k = Some (a, p3) →
     if getJointDistanceIntegerMax ws a (angles g) =? 1
     then ids !! k = Some (stateID g)
     else ∃ e,
       getHashEntry (convertJointAnglesToCoord a) k (planning_data_ env')
         = Some e ∧
       ids !! k = Some (stateID e) ∧
       (∀ e0, getHashEntry (convertJointAnglesToCoord a) k (planning_data_ env)
                = Some e0 → e0 = e)) ∧
  ∃ news,
    state_ID_to_coord_table_ (planning_data_ env')
      = state_ID_to_coord_table_ (planning_data_ env) ++ news ∧
    NoDup (coord <$> news) ∧
    ∀ e, e ∈ news →
      getHashEntry (coord e) 0 (planning_data_ env) = None ∧
      ∃ p3, (angles e, p3) ∈ cands ∧
            (getJointDistanceIntegerMax ws (angles e) (angles g) =? 1) = false ∧
            coord e = convertJointAnglesToCoord (angles e).
Proof.
  intros Hg Hne Hhs Hrun ws cands.
  destruct (GetSuccs_expand env src g hs env' ids costs Hg Hne Hhs Hrun)
    as (_ & _ & _ & news & Hgrow & Hnews & Hres).
  fold ws in Hnews, Hres. fold cands in Hres.
  split_and!.
  - symmetry. by eapply Forall2_length.
  - intros k a p3 Hk.
    destruct (Forall2_lookup_l _ _ _ _ _ Hres Hk) as (id & Hid & Hr).
    unfold resolved, absorbed in Hr. simpl in Hr.
    destruct (_ =? 1); [by subst|].
    destruct Hr as (e & He & ->). exists e. split_and!; try done.
    intros e0 He0. apply (grow_mono _ _ _ Hgrow) in He0.
    unfold getHashEntry in *. congruence.
  - exists news. split_and!.
    + apply (grow_table _ _ _ Hgrow).
    + apply (grow_nodup _ _ _ Hgrow).
    + intros e He. split; [apply (grow_new _ _ _ Hgrow e He)|].
      rewrite Forall_forall in Hnews.
      destruct (Hnews e He) as (p & Hp & Hs & Ha & Hc).
      exists (xyz e). split_and!; try done.
      unfold cands. apply list_elem_of_omap. eauto.
Qed.

(** C7 (amended).  The expansion of the goal is empty, and so is the
    expansion of an identifier past the end of the table.  The expansion of
    any other state has one identifier per surviving candidate, so it is
    empty exactly when no candidate survives.  When every step of a primitive
    changes the bucket of the joint it moves, the expansion of a state never
    contains that state. *)
Theorem GetSuccs_empty_and_no_self_loop env src g env' ids costs :
  wf_data (planning_data_ env) →
  steps_change_bucket env →
  goal_hash_entry_ (planning_data_ env) = Some g →
  GetSuccs env src = Some (env', ids, costs) →
  (src = stateID g → ids = []) ∧
  (length (state_ID_to_coord_table_ (planning_data_ env)) ≤ src →
   ids = [])%nat ∧
  (∀ hs, src ≠ stateID g →
     state_ID_to_coord_table_ (planning_data_ env) !! src = Some hs →
     (ids = [] ↔ Forall (λ p, survivor hs p = None) (possible_actions_ env))) ∧
  src ∉ ids.
Proof.
  intros Hwf Hstep Hg Hrun.
  assert (Hgoal_case : src = stateID g → ids = []).
  { intros ->. rewrite (GetSuccs_goal env g Hg) in Hrun. by simplify_eq. }
  assert (Hrange : (length (state_ID_to_coord_table_ (planning_data_ env))
                    ≤ src)%nat → ids = []).
  { intros Hlen. unfold GetSuccs in Hrun. rewrite Hg in Hrun.
    destruct (src =? stateID g)%nat; [by simplify_eq|].
    apply Nat.leb_le in Hlen. rewrite Hlen in Hrun. by simplify_eq. }
  split_and!; try done.
  - intros hs Hne Hhs.
    destruct (GetSuccs_expand env src g hs env' ids costs Hg Hne Hhs Hrun)
      as (_ & _ & _ & news & _ & _ & Hres).
    apply Forall2_length in Hres. split.
    + intros ->. simpl in Hres.
      apply Forall_forall. intros p Hp.
      destruct (survivor hs p) as [c|] eqn:Hs; [|done].
      assert (Hin : c ∈ omap (survivor hs) (possible_actions_ env))
        by (apply list_elem_of_omap; eauto).
      destruct (omap _ _); [by apply elem_of_nil in Hin|done].
    + intros Hall. destruct ids as [|id ids]; [done|]. exfalso.
      destruct (omap (survivor hs) (possible_actions_ env)) as [|c cs] eqn:E;
        [done|].
      assert (Hin : c ∈ omap (survivor hs) (possible_actions_ env))
        by (rewrite E; apply elem_of_cons; by left).
      apply list_elem_of_omap in Hin as (p & Hp & Hs).
      rewrite Forall_forall in Hall. rewrite (Hall p Hp) in Hs. done.
  - intros Hin.
    destruct (decide (src = stateID g)) as [Heq|Hne].
    { rewrite (Hgoal_case Heq) in Hin. by apply elem_of_nil in Hin. }
    destruct (state_ID_to_coord_table_ (planning_data_ env) !! src)
      as [hs|] eqn:Hhs.
    2:{ apply lookup_ge_None in Hhs. rewrite (Hrange Hhs) in Hin.
        by apply elem_of_nil in Hin. }
    destruct (GetSuccs_expand env src g hs env' ids costs Hg Hne Hhs Hrun)
      as (_ & _ & _ & news & Hgrow & Hnews & Hres).
    pose proof (GetSuccs_wf env src env' ids costs Hwf Hrun) as Hwf'.
    apply list_elem_of_lookup in Hin as [k Hk].
    destruct (Forall2_lookup_r _ _ _ _ _ Hres Hk) as ([a p3] & Hc & Hr).
    unfold resolved in Hr. simpl in Hr.
    destruct (absorbed _ g a); [done|].
    destruct Hr as (e & He & Hid). unfold getHashEntry in He.
    destruct (wf_map _ Hwf' _ _ He) as [Hce Hte].
    rewrite <- Hid, (grow_table _ _ _ Hgrow) in Hte.
    rewrite (lookup_app_l_Some _ _ _ _ Hhs) in Hte. simplify_eq.
    assert (Hin : (a, p3) ∈ omap (survivor e) (possible_actions_ env))
      by (apply list_elem_of_lookup; eauto).
    apply list_elem_of_omap in Hin as (p & Hp & Hs).
    unfold survivor, generateSuccessorState in Hs.
    destruct (angles e !! prim_index p) as [v|] eqn:Hv; [|done].
    destruct (getSuccessorValue _ v _) as [v'|] eqn:Hsv; [|done].
    destruct (collision _); [done|]. destruct (getGridXYZInt _); [|done].
    simplify_eq.
    rewrite (wf_coord _ Hwf _ _ Hhs) in Hce.
    unfold convertJointAnglesToCoord in Hce.
    rewrite list_fmap_insert in Hce.
    assert (Hb : (discretise <$> angles e) !! prim_index p
                 = Some (discretise v)) by (by rewrite list_lookup_fmap, Hv).
    rewrite Hce in Hb.
    rewrite list_lookup_insert_eq in Hb.
    2:{ rewrite length_fmap. by eapply lookup_lt_Some. }
    simplify_eq. by eapply Hstep.
Qed.

(** *** The heuristic *)

Lemma getJointDistanceIntegerSum_eq ws a1 a2 :
  length a1 = length a2 →
  getJointDistanceIntegerSum ws a1 a2 = Zsum (joint_distances ws a1 a2).
Proof.
  intros Hlen. unfold getJointDistanceIntegerSum.
  apply Nat.eqb_eq in Hlen. rewrite Hlen. simpl.
  by rewrite int_sum_loop_acc.
Qed.

Lemma getJointDistanceIntegerSum_nonneg ws a1 a2 :
  Forall JointContract ws → 0 ≤ getJointDistanceIntegerSum ws a1 a2.
Proof.
  intros Hws. unfold getJointDistanceIntegerSum.
  destruct (negb _); [unfold INT_MAX; lia|].
  rewrite int_sum_loop_acc. pose proof (joint_distances_nonneg ws a1 a2 Hws).
  lia.
Qed.

(** One primitive step away from [a], the integer sum to any target has
    dropped by at most one. *)
Lemma getJointDistanceIntegerSum_step ws a b p a' :
  Forall JointContract ws →
  ws !! prim_index p = Some (prim_wrapper p) →
  prim_delta p = LONG_RANGE_JOINT_DIFF ∨
  prim_delta p = (- LONG_RANGE_JOINT_DIFF)%Q →
  generateSuccessorState p a = Some a' →
  getJointDistanceIntegerSum ws a b ≤ 1 + getJointDistanceIntegerSum ws a' b.
Proof.
  intros Hws Hw Hd Hgen. unfold generateSuccessorState in Hgen.
  destruct (a !! prim_index p) as [v|] eqn:Hv; [|done].
  destruct (getSuccessorValue _ v _) as [v'|] eqn:Hs; [|done].
  simplify_eq. unfold getJointDistanceIntegerSum.
  rewrite length_insert. destruct (negb _); [lia|].
  rewrite !int_sum_loop_acc.
  pose proof (joint_distances_step ws a b _ _ v _ v' Hws Hw Hv Hd Hs). lia.
Qed.

Lemma double_to_int_Some v :
  INT_MIN ≤ v ≤ INT_MAX → double_to_int v = Some v.
Proof.
  intros [Hlo Hhi]. unfold double_to_int.
  apply Z.leb_le in Hlo, Hhi. by rewrite Hlo, Hhi.
Qed.

(** Between two entries whose angle vectors differ in length the integer
    sum is INT_MAX, its product with JOINT_DIST_MULT is out of the range of
    [int], and the heuristic has no defined value. *)
Lemma heuristic_undefined_on_mixed_sizes env x y f t :
  state_ID_to_coord_table_ (planning_data_ env) !! x = Some f →
  state_ID_to_coord_table_ (planning_data_ env) !! y = Some t →
  length (angles f) ≠ length (angles t) →
  GetFromToHeuristic env x y = None.
Proof.
  intros Hf Ht Hne. unfold GetFromToHeuristic, getEndEffectorHeuristic.
  rewrite Hf, Ht. unfold getJointDistanceIntegerSum.
  apply Nat.eqb_neq in Hne. rewrite Hne. by vm_compute.
Qed.

(** C5 (amended).  Between two states of the table whose angle vectors have
    the same length, and as long as the product fits in an [int], the
    heuristic is JOINT_DIST_MULT times the sum over the joints of their
    integer distances, and it is not negative, the integer distances being
    never negative.  When those distances vanish on equal values, the
    heuristic from a state to itself is 0.  When moreover one primitive step
    brings a joint at most one unit closer to any target, every successor
    that the expansion of [x] creates satisfies
    heuristic(x, goal) ≤ cost + heuristic(successor, goal), the two
    products fitting in an [int]. *)
Theorem heuristic_sum_and_consistency_on_new_states env x y g :
  Forall JointContract (joint_motion_wrappers_ env) →
  wf_actions env →
  wf_data (planning_data_ env) →
  goal_hash_entry_ (planning_data_ env) = Some g →
  let tbl := state_ID_to_coord_table_ (planning_data_ env) in
  (∀ f t, tbl !! x = Some f → tbl !! y = Some t →
     length (angles f) = length (angles t) →
     JOINT_DIST_MULT *
       Zsum (joint_distances (joint_motion_wrappers_ env)
               (angles f) (angles t)) ≤ INT_MAX →
     GetFromToHeuristic env x y =
       Some (JOINT_DIST_MULT *
             Zsum (joint_distances (joint_motion_wrappers_ env)
                     (angles f) (angles t))) ∧
     0 ≤ JOINT_DIST_MULT *
         Zsum (joint_distances (joint_motion_wrappers_ env)
                 (angles f) (angles t))) ∧
  (is_Some (tbl !! x) → GetFromToHeuristic env x x = Some 0) ∧
  (∀ env' ids costs k s c fx e,
     GetSuccs env x = Some (env', ids, costs) →
     ids !! k = Some s → costs !! k = Some c →
     (length tbl ≤ s)%nat →
     tbl !! x = Some fx →
     state_ID_to_coord_table_ (planning_data_ env') !! s = Some e →
     getJointDistanceIntegerSum (joint_motion_wrappers_ env)
       (angles fx) (angles g) * JOINT_DIST_MULT ≤ INT_MAX →
     getJointDistanceIntegerSum (joint_motion_wrappers_ env)
       (angles e) (angles g) * JOINT_DIST_MULT ≤ INT_MAX →
     ∃ hx hs, GetGoalHeuristic env x = Some hx ∧
              GetGoalHeuristic env' s = Some hs ∧
              hx ≤ c + hs).
Proof.
  intros Hws Hact Hwf Hg tbl. split_and!.
  - intros f t Hf Ht Hlen Hfit.
    pose proof (joint_distances_nonneg _ (angles f) (angles t) Hws) as Hnn.
    assert (H0 : 0 ≤ JOINT_DIST_MULT *
                     Zsum (joint_distances (joint_motion_wrappers_ env)
                             (angles f) (angles t)))
      by (unfold JOINT_DIST_MULT; lia).
    split; [|done].
    unfold GetFromToHeuristic, getEndEffectorHeuristic.
    fold tbl. rewrite Hf, Ht.
    rewrite (getJointDistanceIntegerSum_eq _ _ _ Hlen), Z.mul_comm.
    apply double_to_int_Some. unfold INT_MIN. lia.
  - intros [f Hf]. unfold GetFromToHeuristic, getEndEffectorHeuristic.
    fold tbl. rewrite Hf.
    rewrite getJointDistanceIntegerSum_eq by done.
    by rewrite joint_distances_refl.
  - intros env' ids costs k s c fx e0 Hrun Hs Hc Hfresh Hfx He0 Hfitx Hfite.
    pose proof (wf_goal _ Hwf g Hg) as Hgt. fold tbl in Hgt.
    assert (Hne : x ≠ stateID g).
    { intros ->. rewrite (GetSuccs_goal env g Hg) in Hrun. by simplify_eq. }
    destruct (GetSuccs_expand env x g fx env' ids costs Hg Hne Hfx Hrun)
      as (_ & Hws' & -> & news & Hgrow & Hnews & Hres).
    apply lookup_replicate in Hc as [-> _].
    destruct (Forall2_lookup_r _ _ _ _ _ Hres Hs) as ([a p3] & _ & Hr).
    unfold resolved in Hr. simpl in Hr.
    destruct (absorbed _ g a).
    { subst s. apply lookup_lt_Some in Hgt. lia. }
    destruct Hr as (e & He & ->). unfold getHashEntry in He.
    destruct (grow_inv _ _ _ Hgrow _ _ He) as [Hold|(_ & Hin & _)].
    { destruct (wf_map _ Hwf _ _ Hold) as [_ Hlt].
      apply lookup_lt_Some in Hlt. fold tbl in Hlt. lia. }
    rewrite Forall_forall in Hnews.
    destruct (Hnews e Hin) as (p & Hp & Hsurv & _ & _).
    assert (Hgen : generateSuccessorState p (angles fx) = Some (angles e)).
    { unfold survivor in Hsurv.
      destruct (generateSuccessorState p (angles fx)) as [a0|]; [|done].
      destruct (collision a0); [done|].
      destruct (getGridXYZInt a0); [|done]. by simplify_eq. }
    destruct (Hact p Hp) as [Hw Hd].
    pose proof (getJointDistanceIntegerSum_step _ _ (angles g) p _
                  Hws Hw Hd Hgen) as Hstep.
    pose proof (GetSuccs_wf env x env' _ _ Hwf Hrun) as Hwf'.
    destruct (wf_map _ Hwf' _ _ He) as [_ Het].
    assert (e0 = e) as -> by congruence.
    pose proof (getJointDistanceIntegerSum_nonneg _ (angles fx) (angles g)
                  Hws) as Hnx.
    pose proof (getJointDistanceIntegerSum_nonneg _ (angles e) (angles g)
                  Hws) as Hne'.
    exists (getJointDistanceIntegerSum (joint_motion_wrappers_ env)
              (angles fx) (angles g) * JOINT_DIST_MULT),
           (getJointDistanceIntegerSum (joint_motion_wrappers_ env)
              (angles e) (angles g) * JOINT_DIST_MULT).
    split_and!.
    + unfold GetGoalHeuristic, GetFromToHeuristic, getEndEffectorHeuristic.
      rewrite Hg. fold tbl. rewrite Hfx, Hgt.
      apply double_to_int_Some. unfold INT_MIN, JOINT_DIST_MULT in *. lia.
    + unfold GetGoalHeuristic, GetFromToHeuristic, getEndEffectorHeuristic.
      rewrite (grow_goal _ _ _ Hgrow), Hg, Het, Hws'.
      rewrite (grow_table _ _ _ Hgrow).
      rewrite (lookup_app_l_Some _ _ _ _ Hgt).
      apply double_to_int_Some. unfold INT_MIN, JOINT_DIST_MULT in *. lia.
    + unfold JOINT_DIST_MULT. lia.
Qed.

(** *** Setup *)

Lemma wf_data_empty : wf_data empty_data.
Proof. split; simpl; intros; by simplify_eq. Qed.

Lemma addHashEntry_wf d a p3 act :
  wf_data d →
  wf_data (addHashEntry (convertJointAnglesToCoord a) a p3 act d).2.
Proof.
  intros Hwf. split; simpl.
  - intros i e Hi. apply lookup_app_Some in Hi as [Hi|[Hlen Hi]].
    + by apply (wf_ids _ Hwf).
    + destruct (i - _)%nat eqn:E; simplify_eq/=. lia.
  - intros i e Hi. apply lookup_app_Some in Hi as [Hi|[Hlen Hi]].
    + by apply (wf_coord _ Hwf i).
    + destruct (i - _)%nat eqn:E; by simplify_eq/=.
  - intros c e Hc. destruct (decide (convertJointAnglesToCoord a = c)) as [<-|Hne].
    + rewrite lookup_insert_eq in Hc. simplify_eq. simpl. split; [done|].
      by rewrite lookup_app_r, Nat.sub_diag by lia.
    + rewrite lookup_insert_ne in Hc by done.
      destruct (wf_map _ Hwf c e Hc) as [? Ht]. split; [done|].
      by apply lookup_app_l_Some.
  - intros g Hg. apply lookup_app_l_Some. by apply (wf_goal _ Hwf).
Qed.

Lemma set_start_wf d e : wf_data d → wf_data (set_start e d).
Proof. intros [? ? ? ?]. by split. Qed.

Lemma set_goal_wf d e :
  wf_data d → state_ID_to_coord_table_ d !! stateID e = Some e →
  wf_data (set_goal e d).
Proof. intros [? ? ? ?] He. split; try done. simpl. by intros g [= ->]. Qed.

(** Setup keeps a well-formed table well formed, whatever it returns. *)
Lemma setupForMotionPlan_wf env req :
  wf_data (planning_data_ env) →
  wf_data (planning_data_ (setupForMotionPlan env req).1).
Proof.
  intros Hwf. unfold setupForMotionPlan.
  destruct (negb (hybrid_world_available req)); [done|].
  destruct (negb (hybrid_robot_available req)); [done|].
  destruct (collision_acm (start_joint_values req)); [done|].
  destruct (negb (field_sizes_match req)); [done|].
  destruct (getGridXYZInt (start_joint_values req)) as [sxyz|]; [|done].
  set (env1 := setMotionPrimitives env (group_wrappers req)).
  assert (Hwf1 : wf_data (planning_data_ env1)) by done.
  pose proof (addHashEntry_wf _ (start_joint_values req) sxyz 0%nat Hwf1)
    as Hs.
  destruct (addHashEntry _ (start_joint_values req) sxyz 0%nat _)
    as [se d1] eqn:E1. simpl in Hs.
  apply (set_start_wf _ se) in Hs.
  destruct (collision_acm (goal_joint_values req)); [done|].
  destruct (getGridXYZInt (goal_joint_values req)) as [gxyz|]; [|done].
  simpl. apply set_goal_wf.
  - apply (addHashEntry_wf (set_start se d1) (goal_joint_values req) gxyz
             0%nat Hs).
  - simpl. by rewrite lookup_app_r, Nat.sub_diag by lia.
Qed.

Lemma primitives_from_spec ws i p :
  p ∈ primitives_from ws i →
  (∃ k, prim_index p = (i + k)%nat ∧ ws !! k = Some (prim_wrapper p)) ∧
  (prim_delta p = LONG_RANGE_JOINT_DIFF ∨
   prim_delta p = (- LONG_RANGE_JOINT_DIFF)%Q).
Proof.
  revert i. induction ws as [|w ws IH]; intros i Hp; simpl in Hp.
  - by apply elem_of_nil in Hp.
  - apply elem_of_cons in Hp as [->|Hp]; [|apply elem_of_cons in Hp as [->|Hp]].
    + simpl. split; [|by left]. exists 0%nat. split; [lia|done].
    + simpl. split; [|by right]. exists 0%nat. split; [lia|done].
    + destruct (IH _ Hp) as [(k & Hk & Hw) Hd]. split; [|done].
      exists (S k). split; [lia|done].
Qed.

(** After a successful setup of a fresh environment the primitives move the
    joints of the wrappers that the heuristic uses. *)
Lemma setupForMotionPlan_wf_actions req env' :
  setupForMotionPlan fresh_env req = (env', None) →
  wf_actions env'.
Proof.
  unfold setupForMotionPlan.
  destruct (negb (hybrid_world_available req)); [done|].
  destruct (negb (hybrid_robot_available req)); [done|].
  destruct (collision_acm (start_joint_values req)); [done|].
  destruct (negb (field_sizes_match req)); [done|].
  destruct (getGridXYZInt (start_joint_values req)) as [sxyz|]; [|done].
  simpl.
  destruct (collision_acm (goal_joint_values req)); [done|].
  destruct (getGridXYZInt (goal_joint_values req)) as [gxyz|]; [|done].
  intros [= <-]. intros p Hp. simpl in *.
  destruct (primitives_from_spec _ _ _ Hp) as [(k & Hk & Hw) Hd].
  split; [|done]. by rewrite Hk.
Qed.

(** C2 (amended).  A setup that fails before the start entry is inserted
    (collision checking unavailable, start in collision, start pose out of
    bounds) leaves the number of entries unchanged; a setup that fails with
    GOAL_IN_COLLISION or INVALID_GOAL_CONSTRAINTS has already inserted the
    start entry and leaves one entry more; a successful setup leaves two
    entries more. *)
Theorem setupForMotionPlan_table_size env req :
  let r := setupForMotionPlan env req in
  SizeofCreatedEnv r.1 =
  match r.2 with
  | Some GOAL_IN_COLLISION | Some INVALID_GOAL_CONSTRAINTS =>
      S (SizeofCreatedEnv env)
  | Some _ => SizeofCreatedEnv env
  | None => S (S (SizeofCreatedEnv env))
  end.
Proof.
  unfold setupForMotionPlan, SizeofCreatedEnv. simpl.
  destruct (negb (hybrid_world_available req)); [done|].
  destruct (negb (hybrid_robot_available req)); [done|].
  destruct (collision_acm (start_joint_values req)); [done|].
  destruct (negb (field_sizes_match req)); [done|].
  destruct (getGridXYZInt (start_joint_values req)) as [sxyz|]; [|done].
  simpl.
  destruct (collision_acm (goal_joint_values req)).
  { simpl. rewrite length_app. simpl. lia. }
  destruct (getGridXYZInt (goal_joint_values req)) as [gxyz|]; simpl;
    rewrite !length_app; simpl; lia.
Qed.

(** When the start and the goal values discretise to the same coordinate, a
    successful setup still appends two entries: the goal entry is not the
    start entry, and both carry that coordinate. *)
Lemma setupForMotionPlan_same_coord env req env' :
  convertJointAnglesToCoord (start_joint_values req)
  = convertJointAnglesToCoord (goal_joint_values req) →
  setupForMotionPlan env req = (env', None) →
  ∃ se ge,
    start_hash_entry_ (planning_data_ env') = Some se ∧
    goal_hash_entry_ (planning_data_ env') = Some ge ∧
    stateID ge = S (stateID se) ∧ coord ge = coord se ∧
    state_ID_to_coord_table_ (planning_data_ env')
    = state_ID_to_coord_table_ (planning_data_ env) ++ [se; ge].
Proof.
  intros Hc. unfold setupForMotionPlan.
  destruct (negb (hybrid_world_available req)); [done|].
  destruct (negb (hybrid_robot_available req)); [done|].
  destruct (collision_acm (start_joint_values req)); [done|].
  destruct (negb (field_sizes_match req)); [done|].
  destruct (getGridXYZInt (start_joint_values req)) as [sxyz|]; [|done].
  simpl.
  destruct (collision_acm (goal_joint_values req)); [done|].
  destruct (getGridXYZInt (goal_joint_values req)) as [gxyz|]; [|done].
  intros [= <-]. simpl. eexists _, _. split_and!; try done; simpl.
  - rewrite length_app. simpl. lia.
  - by rewrite <- app_assoc.
Qed.

(** *** What the search can rely on when it expands states *)

Lemma resolved_valid ws g d c id :
  wf_data d → goal_hash_entry_ d = Some g →
  resolved ws g d c id →
  (id < length (state_ID_to_coord_table_ d))%nat.
Proof.
  intros Hwf Hg. unfold resolved. destruct (absorbed ws g c.1).
  - intros ->. eapply lookup_lt_Some. by apply (wf_goal _ Hwf).
  - intros (e & He & ->). unfold getHashEntry in He.
    destruct (wf_map _ Hwf _ _ He) as [_ Ht]. by eapply lookup_lt_Some.
Qed.

(** X21.  Once the goal entry is set, [GetSuccs] returns for every source
    identifier: as many costs as successor identifiers, each cost 1000, at
    most one successor per motion primitive.  It only appends to the state
    table and leaves the start entry, the goal entry and the primitives as
    they are.  On a well-formed table every identifier it returns is the
    index of an entry of the table it leaves, so that the search can expand
    it in turn. *)
Theorem GetSuccs_returns_valid_ids env src g :
  wf_data (planning_data_ env) →
  goal_hash_entry_ (planning_data_ env) = Some g →
  ∃ env' ids costs news,
    GetSuccs env src = Some (env', ids, costs) ∧
    costs = replicate (length ids) 1000 ∧
    (length ids ≤ length (possible_actions_ env))%nat ∧
    state_ID_to_coord_table_ (planning_data_ env')
    = state_ID_to_coord_table_ (planning_data_ env) ++ news ∧
    start_hash_entry_ (planning_data_ env')
    = start_hash_entry_ (planning_data_ env) ∧
    goal_hash_entry_ (planning_data_ env') = Some g ∧
    possible_actions_ env' = possible_actions_ env ∧
    Forall (λ id, (id < SizeofCreatedEnv env')%nat) ids.
Proof.
  intros Hwf Hg.
  assert (Hsame : ∃ env' ids costs news,
            Some (env, @nil nat, @nil Z) = Some (env', ids, costs) ∧
            costs = replicate (length ids) 1000 ∧
            (length ids ≤ length (possible_actions_ env))%nat ∧
            state_ID_to_coord_table_ (planning_data_ env')
            = state_ID_to_coord_table_ (planning_data_ env) ++ news ∧
            start_hash_entry_ (planning_data_ env')
            = start_hash_entry_ (planning_data_ env) ∧
            goal_hash_entry_ (planning_data_ env') = Some g ∧
            possible_actions_ env' = possible_actions_ env ∧
            Forall (λ id, (id < SizeofCreatedEnv env')%nat) ids).
  { exists env, [], [], []. rewrite app_nil_r. split_and!; try done.
    simpl. lia. }
  destruct (GetSuccs env src) as [[[env' ids] costs]|] eqn:Hrun.
  2:{ exfalso. unfold GetSuccs in Hrun. rewrite Hg in Hrun.
      destruct (src =? stateID g)%nat; [done|].
      destruct (_ <=? src)%nat eqn:Hlen; [done|].
      apply Nat.leb_gt, lookup_lt_is_Some_2 in Hlen as [hs Hhs].
      rewrite Hhs in Hrun.
      by destruct (succs_loop _ _ _ _ _ _) as [[? ?] ?]. }
  pose proof Hrun as Hrun'. unfold GetSuccs in Hrun. rewrite Hg in Hrun.
  destruct (src =? stateID g)%nat eqn:He; [by rewrite <- Hrun|].
  destruct (_ <=? src)%nat eqn:Hlen; [by rewrite <- Hrun|].
  destruct (state_ID_to_coord_table_ (planning_data_ env) !! src)
    as [hs|] eqn:Hhs; [|done].
  clear Hrun Hsame. apply Nat.eqb_neq in He.
  pose proof (GetSuccs_wf env src env' ids costs Hwf Hrun') as Hwf'.
  destruct (GetSuccs_expand env src g hs env' ids costs Hg He Hhs Hrun')
    as (Hacts & _ & Hcosts & news & Hgrow & _ & Hres).
  assert (Hg' : goal_hash_entry_ (planning_data_ env') = Some g)
    by (by rewrite (grow_goal _ _ _ Hgrow)).
  exists env', ids, costs, news. split_and!; try done.
  - rewrite <- (Forall2_length _ _ _ Hres).
    clear. induction (possible_actions_ env) as [|p acts IH]; csimpl; [lia|].
    destruct (survivor hs p); simpl; lia.
  - apply (grow_table _ _ _ Hgrow).
  - apply (grow_start _ _ _ Hgrow).
  - clear -Hres Hwf' Hg'. unfold SizeofCreatedEnv.
    induction Hres as [|c id cs ids Hc _ IH]; constructor; [|done].
    by eapply resolved_valid.
Qed.

(** A second pass of the expansion loop over a table that already holds
    what the first pass left adds nothing and returns the same
    identifiers. *)
Lemma succs_loop_again ws g hs acts : ∀ i d ids costs d' ids' costs',
  succs_loop ws g hs acts i (d, ids, costs) = (d', ids', costs') →
  ∃ new_ids,
    ids' = ids ++ new_ids ∧
    costs' = costs ++ replicate (length new_ids) 1000 ∧
    ∀ D ids2 costs2,
      (∀ c e, coord_to_state_ID_table_ d' !! c = Some e →
              coord_to_state_ID_table_ D !! c = Some e) →
      succs_loop ws g hs acts i (D, ids2, costs2)
      = (D, ids2 ++ new_ids, costs2 ++ replicate (length new_ids) 1000).
Proof.
  induction acts as [|p acts IH]; intros i d ids costs d' ids' costs' Hrun.
  - simpl in Hrun. simplify_eq. exists []. rewrite !app_nil_r.
    split_and!; try done. intros D ids2 costs2 _. simpl.
    by rewrite !app_nil_r.
  - cbn [succs_loop] in Hrun. rewrite expand_action_cases in Hrun.
    destruct (survivor hs p) as [[a p3]|] eqn:Hsurv.
    + destruct (absorbed ws g a) eqn:Habs.
      * destruct (IH _ _ _ _ _ _ _ Hrun) as (new_ids & -> & -> & Hagain).
        exists (stateID g :: new_ids). rewrite <- !app_assoc.
        split_and!; try done. intros D ids2 costs2 HD.
        cbn [succs_loop]. rewrite expand_action_cases, Hsurv, Habs.
        rewrite (Hagain D _ _ HD). by rewrite <- !app_assoc.
      * destruct (getHashEntry (convertJointAnglesToCoord a) i d)
          as [e|] eqn:Hl.
        -- pose proof Hrun as Hrun'.
           apply succs_loop_spec in Hrun' as (_ & news & _ & _ & Hg & _).
           destruct (IH _ _ _ _ _ _ _ Hrun) as (new_ids & -> & -> & Hagain).
           exists (stateID e :: new_ids). rewrite <- !app_assoc.
           split_and!; try done. intros D ids2 costs2 HD.
           cbn [succs_loop]. rewrite expand_action_cases, Hsurv, Habs.
           assert (HlD : getHashEntry (convertJointAnglesToCoord a) i D
                         = Some e).
           { apply HD. by apply (grow_mono _ _ _ Hg). }
           rewrite HlD, (Hagain D _ _ HD). by rewrite <- !app_assoc.
        -- simpl in Hrun. pose proof Hrun as Hrun'.
           apply succs_loop_spec in Hrun' as (_ & news & _ & _ & Hg & _).
           destruct (IH _ _ _ _ _ _ _ Hrun) as (new_ids & -> & -> & Hagain).
           set (r := addHashEntry (convertJointAnglesToCoord a) a p3 i d)
             in *.
           exists (stateID r.1 :: new_ids). rewrite <- !app_assoc.
           split_and!; try done. intros D ids2 costs2 HD.
           cbn [succs_loop]. rewrite expand_action_cases, Hsurv, Habs.
           assert (HlD : getHashEntry (convertJointAnglesToCoord a) i D
                         = Some r.1).
           { apply HD. apply (grow_mono _ _ _ Hg). apply lookup_insert_eq. }
           rewrite HlD, (Hagain D _ _ HD). by rewrite <- !app_assoc.
    + destruct (IH _ _ _ _ _ _ _ Hrun) as (new_ids & -> & -> & Hagain).
      exists new_ids. split_and!; try done. intros D ids2 costs2 HD.
      cbn [succs_loop]. rewrite expand_action_cases, Hsurv.
      by apply Hagain.
Qed.

(** X22.  Expanding a state a second time changes nothing: on the
    environment that [GetSuccs] leaves, [GetSuccs] of the same source
    returns the same successor identifiers and costs and leaves that
    environment as it is.  A successor keeps the identifier it was given
    first. *)
Theorem GetSuccs_again_changes_nothing env src env' ids costs :
  GetSuccs env src = Some (env', ids, costs) →
  GetSuccs env' src = Some (env', ids, costs).
Proof.
  intros Hrun. pose proof Hrun as Hrun'. unfold GetSuccs in Hrun.
  destruct (goal_hash_entry_ (planning_data_ env)) as [g|] eqn:Hg; [|done].
  destruct (src =? stateID g)%nat eqn:He.
  { injection Hrun as <- <- <-. unfold GetSuccs. by rewrite Hg, He. }
  destruct (_ <=? src)%nat eqn:Hlen.
  { injection Hrun as <- <- <-. unfold GetSuccs. by rewrite Hg, He, Hlen. }
  destruct (state_ID_to_coord_table_ (planning_data_ env) !! src)
    as [hs|] eqn:Hhs; [|done].
  destruct (succs_loop _ _ _ _ _ _) as [[d' ids'] costs'] eqn:Hloop.
  injection Hrun as <- <- <-.
  pose proof Hloop as Hloop'.
  apply succs_loop_spec in Hloop' as (_ & news & _ & _ & Hgrow & _).
  destruct (succs_loop_again _ _ _ _ _ _ _ _ _ _ _ Hloop)
    as (new_ids & -> & -> & Hagain).
  unfold GetSuccs. simpl.
  rewrite (grow_goal _ _ _ Hgrow), Hg, He.
  rewrite (grow_table _ _ _ Hgrow), length_app.
  apply Nat.leb_gt in Hlen.
  assert (Hlen' : (length (state_ID_to_coord_table_ (planning_data_ env))
                   + length news <=? src)%nat = false)
    by (apply Nat.leb_gt; lia).
  rewrite Hlen', lookup_app_l, Hhs by done.
  by rewrite (Hagain d' [] [] (λ c e H, H)).
Qed.

(** *** Motion primitives *)

Lemma primitives_from_length ws i :
  length (primitives_from ws i) = (2 * length ws)%nat.
Proof.
  revert i. induction ws as [|w ws IH]; intros i; simpl; [done|].
  rewrite IH. lia.
Qed.

Lemma primitives_from_lookup ws : ∀ s i w,
  ws !! i = Some w →
  primitives_from ws s !! (2 * i)%nat
  = Some (mkPrim w (s + i) LONG_RANGE_JOINT_DIFF) ∧
  primitives_from ws s !! (2 * i + 1)%nat
  = Some (mkPrim w (s + i) (- LONG_RANGE_JOINT_DIFF)%Q).
Proof.
  induction ws as [|w0 ws IH]; intros s i w Hi; [done|].
  destruct i as [|i]; simpl in Hi.
  - simplify_eq. simpl. by rewrite Nat.add_0_r.
  - destruct (IH (S s) i w Hi) as [H1 H2].
    replace (2 * S i)%nat with (S (S (2 * i))) by lia.
    replace (S (S (2 * i)) + 1)%nat with (S (S (2 * i + 1))) by lia.
    replace (s + S i)%nat with (S s + i)%nat by lia.
    simpl. split; [exact H1|exact H2].
Qed.

(** X23.  [setMotionPrimitives] replaces the primitives by two per active
    joint: the primitives at places 2i and 2i+1 move joint i by the
    long-range step and by its opposite, through the wrapper of joint i.
    The wrappers built before are kept, the new ones are appended after
    them; the state table is not touched. *)
Theorem setMotionPrimitives_two_per_joint env ws :
  let env' := setMotionPrimitives env ws in
  length (possible_actions_ env') = (2 * length ws)%nat ∧
  (∀ i w, ws !! i = Some w →
     possible_actions_ env' !! (2 * i)%nat
     = Some (mkPrim w i LONG_RANGE_JOINT_DIFF) ∧
     possible_actions_ env' !! (2 * i + 1)%nat
     = Some (mkPrim w i (- LONG_RANGE_JOINT_DIFF)%Q)) ∧
  joint_motion_wrappers_ env' = joint_motion_wrappers_ env ++ ws ∧
  planning_data_ env' = planning_data_ env.
Proof.
  simpl. split_and!; try done.
  - apply primitives_from_length.
  - intros i w Hi. apply (primitives_from_lookup ws 0 i w Hi).
Qed.

(** *** The start and goal identifiers after a setup *)

(** X24.  After a setup that succeeds, [InitializeMDPCfg] reports the two
    identifiers that the setup has just assigned: the number of entries the
    table had for the start, the next one for the goal.  After a setup that
    fails on the goal, when the start entry is already in, it reports that
    start identifier together with the goal of an earlier setup, if the
    environment has one, and fails otherwise.  After a setup that fails
    earlier it reports what it did before. *)
Theorem InitializeMDPCfg_after_setup env req :
  let r := setupForMotionPlan env req in
  let n := SizeofCreatedEnv env in
  match r.2 with
  | None => InitializeMDPCfg r.1 = Some (n, S n)
  | Some GOAL_IN_COLLISION | Some INVALID_GOAL_CONSTRAINTS =>
      InitializeMDPCfg r.1
      = (λ g, (n, stateID g)) <$> goal_hash_entry_ (planning_data_ env)
  | Some _ => InitializeMDPCfg r.1 = InitializeMDPCfg env
  end.
Proof.
  unfold setupForMotionPlan, InitializeMDPCfg, SizeofCreatedEnv.
  destruct (negb (hybrid_world_available req)); [done|].
  destruct (negb (hybrid_robot_available req)); [done|].
  destruct (collision_acm (start_joint_values req)); [done|].
  destruct (negb (field_sizes_match req)); [done|].
  destruct (getGridXYZInt (start_joint_values req)) as [sxyz|]; [|done].
  simpl.
  destruct (collision_acm (goal_joint_values req)).
  { simpl. by destruct (goal_hash_entry_ (planning_data_ env)). }
  destruct (getGridXYZInt (goal_joint_values req)) as [gxyz|].
  2:{ simpl. by destruct (goal_hash_entry_ (planning_data_ env)). }
  simpl. rewrite length_app. simpl. do 2 f_equal. lia.
Qed.

(** *** The two integer distances *)

Lemma joint_distances_bounds ws a1 a2 :
  (∀ w x y, w ∈ ws → 0 ≤ getIntegerDistance w x y LONG_RANGE_JOINT_DIFF) →
  let l := joint_distances ws a1 a2 in
  0 ≤ foldr Z.max 0 l ∧ foldr Z.max 0 l ≤ Zsum l ∧
  Zsum l ≤ Z.of_nat (length l) * foldr Z.max 0 l ∧
  (length l ≤ length a1)%nat.
Proof.
  revert a1 a2. induction ws as [|w ws IH]; intros [|x a1] [|y a2] Hnn;
    simpl; try lia.
  assert (Hw : 0 ≤ getIntegerDistance w x y LONG_RANGE_JOINT_DIFF)
    by (apply Hnn, elem_of_cons; by left).
  destruct (IH a1 a2) as (H0 & H1 & H2 & H3).
  { intros w' x' y' Hw'. apply Hnn, elem_of_cons. by right. }
  cbv zeta in *. split_and!; try lia. nia.
Qed.

(** X25.  On two configurations of different sizes both integer distances
    are INT_MAX.  On two configurations of the same size, the per-joint
    distances being non-negative, the maximum is between 0 and the sum, and
    the sum is at most the maximum times the number of joints: a candidate
    that is absorbed into the goal, whose maximum is 1, is at a sum distance
    between 1 and the number of joints. *)
Theorem getJointDistanceIntegerMax_le_Sum ws a1 a2 :
  (∀ w x y, w ∈ ws → 0 ≤ getIntegerDistance w x y LONG_RANGE_JOINT_DIFF) →
  (length a1 ≠ length a2 →
   getJointDistanceIntegerSum ws a1 a2 = INT_MAX ∧
   getJointDistanceIntegerMax ws a1 a2 = INT_MAX) ∧
  (length a1 = length a2 →
   0 ≤ getJointDistanceIntegerMax ws a1 a2 ∧
   getJointDistanceIntegerMax ws a1 a2 ≤ getJointDistanceIntegerSum ws a1 a2 ∧
   getJointDistanceIntegerSum ws a1 a2
   ≤ Z.of_nat (length a1) * getJointDistanceIntegerMax ws a1 a2).
Proof.
  intros Hnn. split.
  - intros Hne. unfold getJointDistanceIntegerSum, getJointDistanceIntegerMax.
    apply Nat.eqb_neq in Hne. by rewrite Hne.
  - intros Hlen.
    rewrite getJointDistanceIntegerMax_eq, getJointDistanceIntegerSum_eq
      by done.
    destruct (joint_distances_bounds ws a1 a2 Hnn) as (H0 & H1 & H2 & H3).
    cbv zeta in *. split_and!; try done.
    etrans; [exact H2|]. apply Z.mul_le_mono_nonneg_r; lia.
Qed.

End Environment.

(** ** The joint model of the specification

    Modelled from the spec: [JointMotionModel], the per-joint semantics that
    the missing header implements.  A joint has bounds and a continuity flag;
    [integerDistance a b d] is the ceiling of |D|/d, where D is the shortest
    signed angular difference for a continuous joint and b - a clamped to
    [lower, upper] otherwise; a primitive advances the value by its signed
    step, wraps the result into (-pi, pi] for a continuous joint and is
    rejected outside the limits for a bounded one; a value is discretised
    into its bucket at the resolution of the long-range step. *)
Record JointMotionModel := mkJoint {
  lower : Q;
  upper : Q;
  continuous : bool
}.

(** The double nearest to pi, as the exact rational it is. *)
Definition M_PI : Q := 884279719003555 # 281474976710656.

(** Modelled from the spec: wrapping of an angle into (-pi, pi]. *)
Definition normalizeAngle (a : Q) : Q :=
  (a - 2 * M_PI * inject_Z (Qceiling ((a - M_PI) / (2 * M_PI))))%Q.

(** Modelled from the spec: the shortest signed angular difference. *)
Definition shortestAngularDistance (a b : Q) : Q := normalizeAngle (b - a).

Definition clamp (lo hi x : Q) : Q :=
  if Qltb x lo then lo else if Qltb hi x then hi else x.

(** Modelled from the spec: integerDistance(a, b, d) = ceil(|D| / d), D the
    shortest signed angular difference if the joint is continuous, else
    b - a clamped to [lower, upper]. *)
Definition integerDistance (m : JointMotionModel) (a b d : Q) : Z :=
  Qceiling
    (Qabs (if continuous m then shortestAngularDistance a b
           else clamp (lower m) (upper m) (b - a)) / d).

(** Modelled from the spec: the value a primitive produces for its joint:
    advanced by the signed step, wrapped for a continuous joint, rejected
    outside the limits for a bounded one. *)
Definition successorValue (m : JointMotionModel) (a d : Q) : option Q :=
  let e := (a + d)%Q in
  if continuous m then Some (normalizeAngle e)
  else if Qltb e (lower m) || Qltb (upper m) e then None
  else Some e.

(** Modelled from the spec: discretise(angle), the integer bucket of the
    angle at the resolution of the long-range step. *)
Definition discretise_long (a : Q) : Z := Qfloor (a / LONG_RANGE_JOINT_DIFF).

(** The environment over the joint model of the specification, with the
    collaborators still parameters. *)
Definition model_setup := @setupForMotionPlan JointMotionModel discretise_long.
Definition model_succs :=
  @GetSuccs JointMotionModel integerDistance successorValue discretise_long.
Definition model_heuristic :=
  @GetFromToHeuristic JointMotionModel integerDistance.

(** *** Facts about ceilings and floors of rationals *)

Lemma Qceiling_zero q : (q == 0)%Q → Qceiling q = 0.
Proof. intros H. by rewrite (Qceiling_comp _ _ H). Qed.

Lemma Qceiling_nonneg q : (0 <= q)%Q → 0 ≤ Qceiling q.
Proof. intros H. apply (Qceiling_resp_le 0 q H). Qed.

Lemma Qceiling_succ_le q r : (q <= r + 1)%Q → Qceiling q ≤ 1 + Qceiling r.
Proof.
  intros H. rewrite <- (Qceiling_Z (1 + Qceiling r)).
  apply Qceiling_resp_le. rewrite inject_Z_plus.
  pose proof (Qle_ceiling r). change (inject_Z 1) with 1%Q.
  generalize dependent (inject_Z (Qceiling r)). intros c Hc. lra.
Qed.

Lemma Qfloor_shift_ne q r :
  (r == q + 1)%Q ∨ (r == q - 1)%Q → Qfloor r ≠ Qfloor q.
Proof.
  intros H Heq.
  pose proof (Qfloor_le q) as Hq1. pose proof (Qlt_floor q) as Hq2.
  pose proof (Qfloor_le r) as Hr1. pose proof (Qlt_floor r) as Hr2.
  rewrite Heq in Hr1, Hr2. rewrite inject_Z_plus in Hq2, Hr2.
  change (inject_Z 1) with 1%Q in *.
  generalize dependent (inject_Z (Qfloor q)). intros c Hq1 Hq2 Hr1 Hr2.
  destruct H as [H|H]; lra.
Qed.

Ltac Qltb_cases :=
  repeat match goal with
  | |- context [Qltb ?a ?b] =>
      let E := fresh "E" in
      destruct (Qltb a b) eqn:E;
      [apply Qltb_lt in E | apply Qltb_ge in E]
  | H : context [Qltb ?a ?b] |- _ =>
      let E := fresh "E" in
      destruct (Qltb a b) eqn:E;
      [apply Qltb_lt in E | apply Qltb_ge in E]
  end.

(** *** The bounded joint honours the contract of the graph interface *)

Lemma bounded_dist_step lo hi x x' :
  (lo <= hi)%Q →
  (x' == x + LONG_RANGE_JOINT_DIFF)%Q ∨ (x' == x - LONG_RANGE_JOINT_DIFF)%Q →
  (Qabs (clamp lo hi x) / LONG_RANGE_JOINT_DIFF
   <= Qabs (clamp lo hi x') / LONG_RANGE_JOINT_DIFF + 1)%Q.
Proof.
  intros Hb H. unfold Qdiv, LONG_RANGE_JOINT_DIFF in *.
  change (/ (1 # 10))%Q with (10 # 1)%Q.
  assert (Habs : (Qabs (clamp lo hi x) <= Qabs (clamp lo hi x') + (1 # 10))%Q).
  { unfold clamp. Qltb_cases; simpl in *;
      repeat (apply Qabs_case; intros); destruct H; lra. }
  lra.
Qed.

Lemma bounded_contract (m : JointMotionModel) :
  continuous m = false → (lower m <= 0)%Q → (0 <= upper m)%Q →
  JointContract integerDistance successorValue m.
Proof.
  intros Hc Hlo Hhi. split; unfold integerDistance; rewrite Hc.
  - intros a. apply Qceiling_zero.
    assert (Hz : (clamp (lower m) (upper m) (a - a) == 0)%Q).
    { unfold clamp. Qltb_cases; lra. }
    rewrite Hz. reflexivity.
  - intros a b. apply Qceiling_nonneg.
    unfold Qdiv, LONG_RANGE_JOINT_DIFF. change (/ (1 # 10))%Q with (10 # 1)%Q.
    pose proof (Qabs_nonneg (clamp (lower m) (upper m) (b - a))). lra.
  - intros a d a' b Hd Hs. unfold successorValue in Hs. rewrite Hc in Hs.
    destruct (_ || _); [done|]. simplify_eq.
    apply Qceiling_succ_le.
    apply bounded_dist_step; [lra|].
    destruct Hd as [->| ->]; unfold LONG_RANGE_JOINT_DIFF; [right|left]; lra.
Qed.

Lemma bounded_step_changes_bucket (m : JointMotionModel) a d a' :
  continuous m = false →
  d = LONG_RANGE_JOINT_DIFF ∨ d = (- LONG_RANGE_JOINT_DIFF)%Q →
  successorValue m a d = Some a' →
  discretise_long a' ≠ discretise_long a.
Proof.
  intros Hc Hd Hs. unfold successorValue in Hs. rewrite Hc in Hs.
  destruct (_ || _); [done|]. simplify_eq.
  unfold discretise_long. apply Qfloor_shift_ne.
  unfold Qdiv, LONG_RANGE_JOINT_DIFF. change (/ (1 # 10))%Q with (10 # 1)%Q.
  destruct Hd as [->| ->]; unfold LONG_RANGE_JOINT_DIFF; [left|right]; lra.
Qed.

(** ** Scenarios

    Two joints bounded by [-1, 1], a goal constraint that sends both to 0,
    free space and a workspace of one voxel. *)
Definition unit_joint : JointMotionModel := mkJoint (-1) 1 false.

Definition free_space (_ : list Q) : bool := false.
Definition blocked (_ : list Q) : bool := true.
Definition one_voxel (_ : list Q) : option (Z * Z * Z) := Some (1, 1, 1).

(** A collision check that rejects every configuration whose first joint is
    above zero. *)
Definition first_joint_positive (a : list Q) : bool :=
  match a with
  | x :: _ => Qltb 0 x
  | [] => false
  end.

Definition two_joint_request (start : list Q) (goal1 : Q)
    : @MotionPlanRequest JointMotionModel :=
  mkReq true true [unit_joint; unit_joint] ["j1"; "j2"]%string start
        [("j1"%string, goal1); ("j2"%string, 0%Q)] true.

(** Scenario A: the start is the goal. *)
Definition scenario_A : EnvironmentChain3D :=
  (model_setup free_space one_voxel fresh_env
     (two_joint_request [0%Q; 0%Q] 0)).1.

(** The start is one step away from the goal in both joints. *)
Definition scenario_near : EnvironmentChain3D :=
  (model_setup free_space one_voxel fresh_env
     (two_joint_request [1 # 10; 1 # 10]%Q 0)).1.

Definition scenario_near_expanded : EnvironmentChain3D :=
  match model_succs free_space one_voxel scenario_near 0 with
  | Some (env', _, _) => env'
  | None => scenario_near
  end.

Definition near_start : EnvChain3DHashEntry :=
  mkEntry 0 [1; 1] [1 # 10; 1 # 10]%Q (1, 1, 1) 0.

Definition origin_goal : EnvChain3DHashEntry :=
  mkEntry 1 [0; 0] [0; 0]%Q (1, 1, 1) 0.

(** The start is five steps away from the goal in both joints. *)
Definition scenario_far : EnvironmentChain3D :=
  (model_setup free_space one_voxel fresh_env
     (two_joint_request [1 # 2; 1 # 2]%Q 0)).1.

Lemma scenario_near_wf : wf_data discretise_long (planning_data_ scenario_near).
Proof. apply setupForMotionPlan_wf, wf_data_empty. Qed.

Lemma scenario_far_wf : wf_data discretise_long (planning_data_ scenario_far).
Proof. apply setupForMotionPlan_wf, wf_data_empty. Qed.

Lemma unit_joint_contract : JointContract integerDistance successorValue unit_joint.
Proof. apply bounded_contract; [done|simpl; lra..]. Qed.

Lemma unit_joints_change_bucket (env : EnvironmentChain3D) :
  wf_actions env →
  Forall (λ p, prim_wrapper p = unit_joint) (possible_actions_ env) →
  steps_change_bucket successorValue discretise_long env.
Proof.
  intros Hact Hall p a a' Hp Hs. rewrite Forall_forall in Hall.
  destruct (Hact p Hp) as [_ Hd]. rewrite (Hall p Hp) in Hs.
  by apply (bounded_step_changes_bucket unit_joint a (prim_delta p) a').
Qed.

(** C1.  Scenario A on the code: the start and the goal discretise to the
    same coordinate, setup succeeds, and the table holds two entries with
    that coordinate, the start with stateID 0 and the goal with stateID 1;
    the expansion of the start is not empty. *)
Theorem scenario_A_goal_duplicates_start :
  (model_setup free_space one_voxel fresh_env
     (two_joint_request [0%Q; 0%Q] 0)).2 = None ∧
  InitializeMDPCfg scenario_A = Some (0%nat, 1%nat) ∧
  coord <$> state_ID_to_coord_table_ (planning_data_ scenario_A)
  = [[0; 0]; [0; 0]] ∧
  (λ r, r.1.2) <$> model_succs free_space one_voxel scenario_A 0
  = Some [1%nat; 1%nat; 1%nat; 1%nat].
Proof. by vm_compute. Qed.

(** C2, the claim fails: the goal is in collision, setup reports
    GOAL_IN_COLLISION, and the table of the fresh environment holds one
    entry, the start. *)
Lemma goal_in_collision_leaves_start_entry :
  let r := model_setup first_joint_positive one_voxel fresh_env
             (two_joint_request [0%Q; 0%Q] (1 # 2)) in
  r.2 = Some GOAL_IN_COLLISION ∧ SizeofCreatedEnv r.1 = 1%nat.
Proof. by vm_compute. Qed.

(** C5, the claim fails: the second successor of the start is the goal
    itself, by absorption, at cost 1000, while the start is at heuristic 2000
    and the goal at heuristic 0. *)
Lemma consistency_fails_on_absorbed_successor :
  (λ r, (r.1.2, r.2)) <$> model_succs free_space one_voxel scenario_near 0
  = Some ([2%nat; 1%nat; 3%nat; 1%nat], [1000; 1000; 1000; 1000]) ∧
  GetGoalHeuristic integerDistance scenario_near 0 = Some 2000 ∧
  GetGoalHeuristic integerDistance scenario_near_expanded 1 = Some 0 ∧
  (2000 <=? 1000 + 0) = false.
Proof. by vm_compute. Qed.

(** C7, the claim fails: every candidate of the start collides, so its
    expansion is empty although the start (stateID 0) is not the goal
    (stateID 1). *)
Lemma blocked_state_has_no_successors :
  InitializeMDPCfg scenario_far = Some (0%nat, 1%nat) ∧
  model_succs blocked one_voxel scenario_far 0 = Some (scenario_far, [], []).
Proof. by vm_compute. Qed.

Lemma scenario_near_setup :
  model_setup free_space one_voxel fresh_env
    (two_joint_request [1 # 10; 1 # 10]%Q 0) = (scenario_near, None).
Proof. by vm_compute. Qed.

Lemma scenario_near_actions : wf_actions scenario_near.
Proof.
  apply (setupForMotionPlan_wf_actions discretise_long free_space one_voxel
           (two_joint_request [1 # 10; 1 # 10]%Q 0)).
  apply scenario_near_setup.
Qed.

Lemma scenario_near_expansion :
  model_succs free_space one_voxel scenario_near 0
  = Some (scenario_near_expanded, [2%nat; 1%nat; 3%nat; 1%nat],
          [1000; 1000; 1000; 1000]).
Proof. by vm_compute. Qed.

Lemma scenario_near_buckets :
  steps_change_bucket successorValue discretise_long scenario_near.
Proof.
  apply unit_joints_change_bucket; [apply scenario_near_actions|].
  vm_compute. repeat constructor.
Qed.

Lemma scenario_near_contracts :
  Forall (JointContract integerDistance successorValue)
    (joint_motion_wrappers_ scenario_near).
Proof. repeat constructor; apply unit_joint_contract. Qed.

(** Witness of C6: the expansion of the start of [scenario_near]. *)
Lemma GetSuccs_absorbs_or_looks_up_witness :
  goal_hash_entry_ (planning_data_ scenario_near) = Some origin_goal ∧
  0%nat ≠ stateID origin_goal ∧
  state_ID_to_coord_table_ (planning_data_ scenario_near) !! 0%nat
  = Some near_start ∧
  model_succs free_space one_voxel scenario_near 0
  = Some (scenario_near_expanded, [2%nat; 1%nat; 3%nat; 1%nat],
          [1000; 1000; 1000; 1000]) ∧
  let ws := joint_motion_wrappers_ scenario_near in
  let cands :=
    omap (survivor successorValue free_space one_voxel near_start)
      (possible_actions_ scenario_near) in
  length [2%nat; 1%nat; 3%nat; 1%nat] = length cands ∧
  (∀ k a p3, cands !! k = Some (a, p3) →
     if getJointDistanceIntegerMax integerDistance ws a (angles origin_goal)
        =? 1
     then [2%nat; 1%nat; 3%nat; 1%nat] !! k = Some (stateID origin_goal)
     else ∃ e,
       getHashEntry (convertJointAnglesToCoord discretise_long a) k
         (planning_data_ scenario_near_expanded) = Some e ∧
       [2%nat; 1%nat; 3%nat; 1%nat] !! k = Some (stateID e) ∧
       (∀ e0, getHashEntry (convertJointAnglesToCoord discretise_long a) k
                (planning_data_ scenario_near) = Some e0 → e0 = e)) ∧
  ∃ news,
    state_ID_to_coord_table_ (planning_data_ scenario_near_expanded)
    = state_ID_to_coord_table_ (planning_data_ scenario_near) ++ news ∧
    NoDup (coord <$> news) ∧
    ∀ e, e ∈ news →
      getHashEntry (coord e) 0 (planning_data_ scenario_near) = None ∧
      ∃ p3, (angles e, p3) ∈ cands ∧
            (getJointDistanceIntegerMax integerDistance ws (angles e)
               (angles origin_goal) =? 1) = false ∧
            coord e = convertJointAnglesToCoord discretise_long (angles e).
Proof.
  assert (H1 : goal_hash_entry_ (planning_data_ scenario_near)
               = Some origin_goal) by (by vm_compute).
  assert (H2 : 0%nat ≠ stateID origin_goal) by (simpl; lia).
  assert (H3 : state_ID_to_coord_table_ (planning_data_ scenario_near)
               !! 0%nat = Some near_start) by (by vm_compute).
  pose proof scenario_near_expansion as H4.
  split_and!; [exact H1|exact H2|exact H3|exact H4|].
  exact (GetSuccs_absorbs_or_looks_up integerDistance successorValue
           discretise_long free_space one_voxel scenario_near 0%nat
           origin_goal near_start scenario_near_expanded _ _ H1 H2 H3 H4).
Defined.

(** Witness of C7: the expansion of the start of [scenario_near]. *)
Lemma GetSuccs_empty_and_no_self_loop_witness :
  wf_data discretise_long (planning_data_ scenario_near) ∧
  steps_change_bucket successorValue discretise_long scenario_near ∧
  goal_hash_entry_ (planning_data_ scenario_near) = Some origin_goal ∧
  model_succs free_space one_voxel scenario_near 0
  = Some (scenario_near_expanded, [2%nat; 1%nat; 3%nat; 1%nat],
          [1000; 1000; 1000; 1000]) ∧
  (0%nat = stateID origin_goal → [2%nat; 1%nat; 3%nat; 1%nat] = []) ∧
  (length (state_ID_to_coord_table_ (planning_data_ scenario_near)) ≤ 0 →
   [2%nat; 1%nat; 3%nat; 1%nat] = [])%nat ∧
  (∀ hs, 0%nat ≠ stateID origin_goal →
     state_ID_to_coord_table_ (planning_data_ scenario_near) !! 0%nat
     = Some hs →
     ([2%nat; 1%nat; 3%nat; 1%nat] = [] ↔
      Forall (λ p, survivor successorValue free_space one_voxel hs p = None)
        (possible_actions_ scenario_near))) ∧
  0%nat ∉ [2%nat; 1%nat; 3%nat; 1%nat].
Proof.
  assert (H3 : goal_hash_entry_ (planning_data_ scenario_near)
               = Some origin_goal) by (by vm_compute).
  split_and!;
    [exact scenario_near_wf|exact scenario_near_buckets|exact H3
    |exact scenario_near_expansion|..];
    apply (GetSuccs_empty_and_no_self_loop integerDistance successorValue
             discretise_long free_space one_voxel scenario_near 0%nat
             origin_goal scenario_near_expanded _ _
             scenario_near_wf scenario_near_buckets H3
             scenario_near_expansion).
Defined.

(** The entry that the expansion of the start of [scenario_near] creates
    first. *)
Definition near_first_successor : EnvChain3DHashEntry :=
  default near_start
    (state_ID_to_coord_table_ (planning_data_ scenario_near_expanded)
     !! 2%nat).

(** Witness of C5: the heuristic between the start and the goal of
    [scenario_near], and the first successor of the start. *)
Lemma heuristic_sum_and_consistency_witness :
  Forall (JointContract integerDistance successorValue)
    (joint_motion_wrappers_ scenario_near) ∧
  wf_actions scenario_near ∧
  wf_data discretise_long (planning_data_ scenario_near) ∧
  goal_hash_entry_ (planning_data_ scenario_near) = Some origin_goal ∧
  (model_heuristic scenario_near 0 1 =
     Some (JOINT_DIST_MULT *
           Zsum (joint_distances integerDistance
                   (joint_motion_wrappers_ scenario_near)
                   (angles near_start) (angles origin_goal))) ∧
   0 ≤ JOINT_DIST_MULT *
       Zsum (joint_distances integerDistance
               (joint_motion_wrappers_ scenario_near)
               (angles near_start) (angles origin_goal))) ∧
  model_heuristic scenario_near 0 0 = Some 0 ∧
  ∃ hx hs, GetGoalHeuristic integerDistance scenario_near 0 = Some hx ∧
           GetGoalHeuristic integerDistance scenario_near_expanded 2
           = Some hs ∧
           hx ≤ 1000 + hs.
Proof.
  assert (H4 : goal_hash_entry_ (planning_data_ scenario_near)
               = Some origin_goal) by (by vm_compute).
  pose proof (heuristic_sum_and_consistency_on_new_states integerDistance
                successorValue discretise_long free_space one_voxel
                scenario_near 0%nat 1%nat origin_goal
                scenario_near_contracts scenario_near_actions
                scenario_near_wf H4) as (H1 & H2 & H3).
  destruct (H1 near_start origin_goal) as [Ha Hb]; [by vm_compute..|].
  split_and!;
    [exact scenario_near_contracts|exact scenario_near_actions
    |exact scenario_near_wf|exact H4|exact Ha|exact Hb|..].
  - apply H2. exists near_start. by vm_compute.
  - apply (H3 scenario_near_expanded [2%nat; 1%nat; 3%nat; 1%nat]
             [1000; 1000; 1000; 1000] 0%nat 2%nat 1000 near_start
             near_first_successor scenario_near_expansion);
      by vm_compute.
Defined.

(** Witness of X21: the expansion of the start of [scenario_near]. *)
Lemma GetSuccs_returns_valid_ids_witness :
  wf_data discretise_long (planning_data_ scenario_near) ∧
  goal_hash_entry_ (planning_data_ scenario_near) = Some origin_goal ∧
  ∃ env' ids costs news,
    model_succs free_space one_voxel scenario_near 0
    = Some (env', ids, costs) ∧
    costs = replicate (length ids) 1000 ∧
    (length ids ≤ length (possible_actions_ scenario_near))%nat ∧
    state_ID_to_coord_table_ (planning_data_ env')
    = state_ID_to_coord_table_ (planning_data_ scenario_near) ++ news ∧
    start_hash_entry_ (planning_data_ env')
    = start_hash_entry_ (planning_data_ scenario_near) ∧
    goal_hash_entry_ (planning_data_ env') = Some origin_goal ∧
    possible_actions_ env' = possible_actions_ scenario_near ∧
    Forall (λ id, (id < SizeofCreatedEnv env')%nat) ids.
Proof.
  assert (Hg : goal_hash_entry_ (planning_data_ scenario_near)
               = Some origin_goal) by (by vm_compute).
  split_and!; [exact scenario_near_wf|exact Hg|].
  exact (GetSuccs_returns_valid_ids integerDistance successorValue
           discretise_long free_space one_voxel scenario_near 0%nat
           origin_goal scenario_near_wf Hg).
Defined.

(** Witness of X22: the start of [scenario_near], expanded twice. *)
Lemma GetSuccs_again_changes_nothing_witness :
  model_succs free_space one_voxel scenario_near 0
  = Some (scenario_near_expanded, [2%nat; 1%nat; 3%nat; 1%nat],
          [1000; 1000; 1000; 1000]) ∧
  model_succs free_space one_voxel scenario_near_expanded 0
  = Some (scenario_near_expanded, [2%nat; 1%nat; 3%nat; 1%nat],
          [1000; 1000; 1000; 1000]).
Proof.
  split; [exact scenario_near_expansion|].
  exact (GetSuccs_again_changes_nothing integerDistance successorValue
           discretise_long free_space one_voxel scenario_near 0%nat
           scenario_near_expanded [2%nat; 1%nat; 3%nat; 1%nat]
           [1000; 1000; 1000; 1000] scenario_near_expansion).
Defined.

Lemma unit_joints_nonneg (w : JointMotionModel) (x y : Q) :
  w ∈ [unit_joint; unit_joint] →
  0 ≤ integerDistance w x y LONG_RANGE_JOINT_DIFF.
Proof.
  intros Hw. assert (w = unit_joint) as ->.
  { apply elem_of_cons in Hw as [->|Hw]; [done|].
    by apply list_elem_of_singleton in Hw. }
  apply (dist_nonneg _ _ _ unit_joint_contract).
Qed.

(** Witness of X25: two unit joints, between the start and the goal of
    [scenario_near] and between configurations of different sizes. *)
Lemma getJointDistanceIntegerMax_le_Sum_witness :
  (∀ w x y, w ∈ [unit_joint; unit_joint] →
     0 ≤ integerDistance w x y LONG_RANGE_JOINT_DIFF) ∧
  (getJointDistanceIntegerSum integerDistance [unit_joint; unit_joint]
     [1 # 10; 1 # 10]%Q [0%Q] = INT_MAX ∧
   getJointDistanceIntegerMax integerDistance [unit_joint; unit_joint]
     [1 # 10; 1 # 10]%Q [0%Q] = INT_MAX) ∧
  (0 ≤ getJointDistanceIntegerMax integerDistance [unit_joint; unit_joint]
         [1 # 10; 1 # 10]%Q [0; 0]%Q ∧
   getJointDistanceIntegerMax integerDistance [unit_joint; unit_joint]
     [1 # 10; 1 # 10]%Q [0; 0]%Q
   ≤ getJointDistanceIntegerSum integerDistance [unit_joint; unit_joint]
       [1 # 10; 1 # 10]%Q [0; 0]%Q ∧
   getJointDistanceIntegerSum integerDistance [unit_joint; unit_joint]
     [1 # 10; 1 # 10]%Q [0; 0]%Q
   ≤ Z.of_nat (length [1 # 10; 1 # 10]%Q)
     * getJointDistanceIntegerMax integerDistance [unit_joint; unit_joint]
         [1 # 10; 1 # 10]%Q [0; 0]%Q).
Proof.
  split; [exact unit_joints_nonneg|].
  split.
  - apply (proj1 (getJointDistanceIntegerMax_le_Sum integerDistance
                    [unit_joint; unit_joint] [1 # 10; 1 # 10]%Q [0%Q]
                    unit_joints_nonneg)).
    simpl. lia.
  - apply (proj2 (getJointDistanceIntegerMax_le_Sum integerDistance
                    [unit_joint; unit_joint] [1 # 10; 1 # 10]%Q [0; 0]%Q
                    unit_joints_nonneg)).
    reflexivity.
Defined.

End Chain3D.

Module TEM.

Local Open Scope nat_scope.

(** ** Controller registry *)

(** [ControllerState] of the controller manager interface. *)
Record ControllerState := mkState {
  active_ : bool;
  default_ : bool;
  loaded_ : bool
}.

(** [ControllerInformation].  [last_update_] is the time, in seconds, at
    which [state_] was last read from the controller manager; a
    default-constructed [ros::Time] is the time 0. *)
Record ControllerInformation := mkInfo {
  name_ : string;
  joints_ : gset string;
  overlapping_controllers_ : gset string;
  state_ : ControllerState;
  last_update_ : Q
}.

(** A default-constructed [ControllerInformation], which is what
    [known_controllers_[name]] yields for a name that is not a key. *)
Definition unknown_controller : ControllerInformation :=
  mkInfo "" ∅ ∅ (mkState false false false) 0.

Definition known (R : gmap string ControllerInformation) (c : string)
    : ControllerInformation :=
  default unknown_controller (R !! c).

(** [known_controllers_[c]] on the registry itself: [operator[]] of
    [std::map] inserts a default-constructed record under a name that is
    not a key, and leaves the registry as it is otherwise. *)
Definition touch (R : gmap string ControllerInformation) (c : string)
    : gmap string ControllerInformation :=
  <[c := known R c]> R.

Definition touch_all (cs : list string)
    (R : gmap string ControllerInformation)
    : gmap string ControllerInformation :=
  foldl touch R cs.

(** [reloadControllerInformation]: one record per name reported by the
    controller manager, then the overlap sets from the pairwise
    intersections of the joint sets. *)
Definition load_names (names : list string)
    (getControllerJoints : string → list string)
    : gmap string ControllerInformation :=
  foldl (λ m n,
           <[n := mkInfo n (list_to_set (getControllerJoints n)) ∅
                    (mkState false false false) 0]> m) ∅ names.

Definition overlaps_of (m : gmap string ControllerInformation) (n : string)
    (ci : ControllerInformation) : gset string :=
  dom (filter (λ kv, kv.1 ≠ n ∧ joints_ ci ∩ joints_ kv.2 ≠ ∅) m).

Definition reloadControllerInformation (names : list string)
    (getControllerJoints : string → list string)
    : gmap string ControllerInformation :=
  let m := load_names names getControllerJoints in
  map_imap (λ n ci,
              Some (mkInfo (name_ ci) (joints_ ci)
                      (overlapping_controllers_ ci ∪ overlaps_of m n ci)
                      (state_ ci) (last_update_ ci))) m.

(** The order of [std::string]: lexicographic on the characters. *)
Definition string_le (x y : string) : Prop := String.leb x y = true.

#[local] Instance string_le_dec : RelDecision string_le.
Proof. intros x y. unfold string_le. apply _. Defined.

(** The names of a set of controllers in the order in which [std::set] and
    the keys of [std::map] are traversed. *)
Definition sorted_names (s : gset string) : list string :=
  merge_sort string_le (elements s).

Definition all_controller_names (R : gmap string ControllerInformation)
    : list string :=
  sorted_names (dom R).

(** [default_age] of [areControllersActive], and the age that
    [ensureActiveControllers] passes: one second. *)
Definition default_age : Q := 1.

(** The registry together with the number of readings of the outside made
    so far: the clock and the states that the controller manager reports
    are read one after the other, and what the n-th reading returns is
    whatever the outside holds then. *)
Definition World : Type := gmap string ControllerInformation * nat.

(** [OrderPotentialControllerCombination::operator()]. *)
Definition order_options (nrdefault nrjoints nractive : list nat)
    (a b : nat) : bool :=
  let at_ (l : list nat) (i : nat) := default 0 (l !! i) in
  if at_ nrdefault b <? at_ nrdefault a then true
  else if at_ nrdefault a <? at_ nrdefault b then false
  else if at_ nrjoints a <? at_ nrjoints b then true
  else if at_ nrjoints b <? at_ nrjoints a then false
  else if at_ nractive a <? at_ nractive b then true
  else false.

(** What [std::sort] asks of its comparison: a strict weak ordering. *)
Definition strict_weak (lt : nat → nat → bool) : Prop :=
  (∀ x y, lt x y = true → lt y x = false) ∧
  (∀ x y z, lt x y = false → lt y z = false → lt x z = false).

(** ** Controller selection: what is read of the registry *)

Section Selection.

Variable R : gmap string ControllerInformation.

Definition combined_joints (selected : list string) : gset string :=
  ⋃ ((λ c, joints_ (known R c)) <$> selected).

(** [checkControllerCombination]: [std::includes] of the actuated joints
    in the union of the joints of the selected controllers. *)
Definition checkControllerCombination (selected : list string)
    (actuated_joints : gset string) : bool :=
  bool_decide (actuated_joints ⊆ combined_joints selected).

(** The inner loop of [generateControllerCombination]: does the candidate
    overlap one of the controllers selected so far? *)
Definition overlaps_selected (c : string) (selected : list string) : bool :=
  existsb (λ s, bool_decide (s ∈ overlapping_controllers_ (known R c)))
    selected.

(** [generateControllerCombination], on the suffix of the available
    controllers from [start_index] on: the head of the suffix is the first
    iteration of the loop, the recursive call on the tail with the same
    selection is the rest of the loop. *)
Fixpoint generateControllerCombination (controller_count : nat)
    (actuated_joints : gset string) (available : list string)
    (selected : list string) : list (list string) :=
  if length selected =? controller_count then
    if checkControllerCombination selected actuated_joints
    then [selected] else []
  else
    match available with
    | [] => []
    | c :: rest =>
        (if overlaps_selected c selected then []
         else generateControllerCombination controller_count
                actuated_joints rest (selected ++ [c]))
        ++ generateControllerCombination controller_count
             actuated_joints rest selected
    end.

(** Every controller of the list is a key of the registry and the state
    that the registry holds for it is active. *)
Definition all_active (controllers : list string) : bool :=
  forallb (λ c, match R !! c with
                | Some ci => active_ (state_ ci)
                | None => false
                end) controllers.

Definition count_if (f : ControllerInformation → bool) (option : list string)
    : nat :=
  length (filter (λ c, f (known R c) = true) option).

Definition total_joints (option : list string) : nat :=
  foldl (λ n c, n + size (joints_ (known R c))) 0 option.

Definition nr_default : list string → nat :=
  count_if (λ ci, default_ (state_ ci)).

Definition nr_active : list string → nat :=
  count_if (λ ci, active_ (state_ ci)).

(** Option [o] is not ranked after option [o']: it holds at least as many
    default controllers; with as many, its controllers drive at most as
    many joints in total; with as many of both, it holds at most as many
    active controllers. *)
Definition not_ranked_after (o o' : list string) : Prop :=
  nr_default o' ≤ nr_default o ∧
  (nr_default o' = nr_default o → total_joints o ≤ total_joints o') ∧
  (nr_default o' = nr_default o → total_joints o = total_joints o' →
   nr_active o ≤ nr_active o').

(** *** What a selection is meant to satisfy *)

Definition covers (actuated_joints : gset string) (S : list string) : Prop :=
  actuated_joints ⊆ combined_joints S.

(** Two controllers at different places of the selection share no joint. *)
Definition pairwise_disjoint (S : list string) : Prop :=
  ∀ i j ci cj, i ≠ j → S !! i = Some ci → S !! j = Some cj →
    joints_ (known R ci) ## joints_ (known R cj).

(** The overlap test that the enumeration applies to each controller it
    appends, against the controllers selected before it. *)
Fixpoint admissible (selected T : list string) : Prop :=
  match T with
  | [] => True
  | c :: T' =>
      overlaps_selected c selected = false ∧ admissible (selected ++ [c]) T'
  end.

(** The registry invariant: the overlap set of a known controller holds
    exactly the other known controllers that share a joint with it. *)
Definition registry_wf : Prop :=
  ∀ c ci s, R !! c = Some ci →
    (s ∈ overlapping_controllers_ ci ↔
     s ≠ c ∧ ∃ si, R !! s = Some si ∧ joints_ ci ∩ joints_ si ≠ ∅).

(** Every name in an overlap set is a key of the registry. *)
Definition overlaps_known : Prop :=
  ∀ c ci s, R !! c = Some ci → s ∈ overlapping_controllers_ ci →
            is_Some (R !! s).

Lemma registry_wf_overlaps_known : registry_wf → overlaps_known.
Proof.
  intros Hwf c ci s Hc Hs. apply (Hwf c ci s Hc) in Hs as (_ & si & Hsi & _).
  eauto.
Qed.

(** *** The enumeration is sound and complete *)

Lemma generate_sound count J avail : ∀ sel S,
  length sel ≤ count →
  S ∈ generateControllerCombination count J avail sel →
  ∃ T, S = sel ++ T ∧ T `sublist_of` avail ∧ length S = count ∧
       admissible sel T ∧ covers J S.
Proof.
  induction avail as [|c rest IH]; intros sel S Hlen Hin; simpl in Hin.
  - destruct (length sel =? count) eqn:E; [|by apply elem_of_nil in Hin].
    destruct (checkControllerCombination sel J) eqn:Hc;
      [|by apply elem_of_nil in Hin].
    apply list_elem_of_singleton in Hin as ->. exists [].
    rewrite app_nil_r. apply Nat.eqb_eq in E.
    apply bool_decide_eq_true in Hc. by split_and!.
  - destruct (length sel =? count) eqn:E.
    + destruct (checkControllerCombination sel J) eqn:Hc;
        [|by apply elem_of_nil in Hin].
      apply list_elem_of_singleton in Hin as ->. exists [].
      rewrite app_nil_r. apply Nat.eqb_eq in E.
      apply bool_decide_eq_true in Hc. split_and!; try done.
      apply sublist_nil_l.
    + apply Nat.eqb_neq in E. apply elem_of_app in Hin as [Hin|Hin].
      * destruct (overlaps_selected c sel) eqn:Ho;
          [by apply elem_of_nil in Hin|].
        apply IH in Hin as (T & -> & Hsub & Hl & Hadm & Hcov).
        2:{ rewrite length_app. simpl. lia. }
        exists (c :: T). rewrite <- app_assoc in *. split_and!; try done.
        by apply sublist_skip.
      * apply IH in Hin as (T & -> & Hsub & Hl & Hadm & Hcov); [|done].
        exists T. split_and!; try done. by apply sublist_cons.
Qed.

Lemma generate_complete count J avail : ∀ sel T,
  T `sublist_of` avail →
  length (sel ++ T) = count →
  admissible sel T →
  covers J (sel ++ T) →
  sel ++ T ∈ generateControllerCombination count J avail sel.
Proof.
  assert (Hfull : ∀ sel T avail',
            length sel = count → length (sel ++ T) = count →
            covers J (sel ++ T) →
            sel ++ T ∈ generateControllerCombination count J avail' sel).
  { intros sel T avail' Hs Hl Hcov. rewrite length_app in Hl.
    assert (T = []) as -> by (apply nil_length_inv; lia).
    rewrite app_nil_r in *. apply Nat.eqb_eq in Hs.
    assert (Hc : checkControllerCombination sel J = true)
      by (by apply bool_decide_eq_true_2).
    destruct avail'; simpl; rewrite Hs, Hc; by apply list_elem_of_singleton. }
  induction avail as [|c rest IH]; intros sel T Hsub Hlen Hadm Hcov.
  - apply sublist_nil_r in Hsub as ->. apply Hfull; try done.
    by rewrite app_nil_r in Hlen.
  - destruct (decide (length sel = count)) as [Heq|Hne]; [by apply Hfull|].
    simpl. apply Nat.eqb_neq in Hne. rewrite Hne.
    apply elem_of_app. apply sublist_cons_r in Hsub as [Hsub|(T' & -> & Hsub)].
    + right. by apply IH.
    + left. destruct Hadm as [Ho Hadm]. rewrite Ho.
      replace (sel ++ c :: T') with ((sel ++ [c]) ++ T') in *
        by (by rewrite <- app_assoc).
      by apply IH.
Qed.

(** *** The overlap test against joint-disjointness *)

Lemma overlaps_selected_false c sel :
  overlaps_selected c sel = false ↔
  ∀ s, s ∈ sel → s ∉ overlapping_controllers_ (known R c).
Proof.
  unfold overlaps_selected. rewrite <- not_true_iff_false, existsb_exists.
  split.
  - intros H s Hs Hin. apply H. exists s. split.
    + by apply list_elem_of_In.
    + by apply bool_decide_eq_true_2.
  - intros H Hex. destruct Hex as (s & Hs & Hin).
    apply bool_decide_eq_true_1 in Hin.
    apply (H s); [by apply list_elem_of_In|done].
Qed.

(** [admissible] read by positions: a controller appended by the
    enumeration is in the overlap set of no controller before it. *)
Lemma admissible_lookup T : ∀ sel,
  admissible sel T ↔
  ∀ i j s c, (sel ++ T) !! i = Some s → (sel ++ T) !! j = Some c →
    i < j → length sel ≤ j → s ∉ overlapping_controllers_ (known R c).
Proof.
  induction T as [|c0 T IH]; intros sel; simpl.
  - split; [|done]. intros _ i j s c _ Hj _ Hlen.
    rewrite app_nil_r in Hj. apply lookup_lt_Some in Hj. lia.
  - rewrite IH, overlaps_selected_false.
    replace (sel ++ c0 :: T) with ((sel ++ [c0]) ++ T)
      by (by rewrite <- app_assoc).
    split.
    + intros [Hhead Htail] i j s c Hi Hj Hlt Hlen.
      destruct (decide (j = length sel)) as [->|Hne].
      * rewrite lookup_app_l in Hj by (rewrite length_app; simpl; lia).
        rewrite lookup_app_r, Nat.sub_diag in Hj by lia. simplify_eq/=.
        apply Hhead. rewrite lookup_app_l in Hi
          by (rewrite length_app; simpl; lia).
        rewrite lookup_app_l in Hi by lia.
        apply list_elem_of_lookup. eauto.
      * apply (Htail i j s c Hi Hj Hlt). rewrite length_app. simpl. lia.
    + intros H. split.
      * intros s Hs. apply list_elem_of_lookup in Hs as [i Hi].
        pose proof (lookup_lt_Some _ _ _ Hi) as Hlt.
        apply (H i (length sel) s c0); try lia.
        -- rewrite lookup_app_l by (rewrite length_app; simpl; lia).
           by rewrite lookup_app_l by lia.
        -- rewrite lookup_app_l by (rewrite length_app; simpl; lia).
           by rewrite lookup_app_r, Nat.sub_diag by lia.
      * intros i j s c Hi Hj Hlt Hlen. apply (H i j s c Hi Hj Hlt).
        rewrite length_app in Hlen. simpl in Hlen. lia.
Qed.

Lemma admissible_sublist T T' :
  T' `sublist_of` T → ∀ sel sel',
  sel' `sublist_of` sel → admissible sel T → admissible sel' T'.
Proof.
  induction 1 as [|x T1' T1 Hsub IH|x T1' T1 Hsub IH];
    intros sel sel' Hsel Hadm; simpl in *.
  - done.
  - destruct Hadm as [Ho Hadm]. split.
    + rewrite overlaps_selected_false in *. intros s Hs.
      apply Ho. by apply (sublist_subseteq _ _ Hsel).
    + apply (IH (sel ++ [x])); [|done]. by apply sublist_app.
  - destruct Hadm as [_ Hadm]. apply (IH (sel ++ [x])); [|done].
    by apply sublist_inserts_r.
Qed.

Lemma admissible_of_disjoint T : ∀ sel,
  registry_wf → pairwise_disjoint (sel ++ T) → admissible sel T.
Proof.
  induction T as [|c T IH]; intros sel Hwf Hd; simpl; [done|].
  split.
  - apply overlaps_selected_false. intros s Hs Hin.
    apply list_elem_of_lookup in Hs as [i Hi].
    pose proof (lookup_lt_Some _ _ _ Hi) as Hlt.
    unfold known in Hin. destruct (R !! c) as [ci|] eqn:Hc; simpl in Hin.
    2:{ by apply not_elem_of_empty in Hin. }
    apply (Hwf c ci s Hc) in Hin as (Hne & si & Hs & Hcap).
    apply Hcap. apply disjoint_intersection_L.
    specialize (Hd (length sel) i c s). unfold known in Hd.
    rewrite Hc, Hs in Hd. simpl in Hd. apply Hd; [lia| |].
    + by rewrite lookup_app_r, Nat.sub_diag by lia.
    + by rewrite lookup_app_l by lia.
  - apply IH; [done|]. by rewrite <- app_assoc.
Qed.

(** Under the registry invariant, two different controllers of an
    admissible selection share no joint. *)
Lemma admissible_disjoint_names S i j ci cj :
  registry_wf → admissible [] S →
  i ≠ j → S !! i = Some ci → S !! j = Some cj → ci ≠ cj →
  joints_ (known R ci) ## joints_ (known R cj).
Proof.
  intros Hwf Hadm. rewrite admissible_lookup in Hadm. simpl in Hadm.
  assert (Hlt : ∀ i j ci cj, i < j → S !! i = Some ci → S !! j = Some cj →
            ci ≠ cj → joints_ (known R ci) ## joints_ (known R cj)).
  { clear i j ci cj. intros i j ci cj Hij Hi Hj Hne.
    pose proof (Hadm i j ci cj Hi Hj Hij ltac:(lia)) as Hnot.
    unfold known in *. destruct (R !! cj) as [ij|] eqn:Hcj; simpl in *.
    2:{ set_solver. }
    destruct (R !! ci) as [ii|] eqn:Hci; simpl in *; [|set_solver].
    destruct (decide (joints_ ij ∩ joints_ ii = ∅)) as [He|Hn]; [set_solver|].
    exfalso. apply Hnot. apply (Hwf cj ij ci Hcj). split; [done|].
    exists ii. done. }
  intros Hij Hi Hj Hne. destruct (decide (i < j)) as [?|?].
  - by apply (Hlt i j).
  - symmetry. apply (Hlt j i); try done. lia.
Qed.

(** *** The options of one size *)

Definition options (J : gset string) (k : nat) (A : list string)
    : list (list string) :=
  generateControllerCombination k J A [].

Lemma combined_joints_elem x S :
  x ∈ combined_joints S ↔ ∃ c, c ∈ S ∧ x ∈ joints_ (known R c).
Proof.
  unfold combined_joints. rewrite elem_of_union_list. split.
  - intros (X & HX & Hx). apply list_elem_of_fmap in HX as (c & -> & Hc).
    eauto.
  - intros (c & Hc & Hx). exists (joints_ (known R c)). split; [|done].
    apply list_elem_of_fmap. eauto.
Qed.

Lemma all_active_elem S :
  all_active S = true ↔
  ∀ c, c ∈ S → ∃ ci, R !! c = Some ci ∧ active_ (state_ ci) = true.
Proof.
  unfold all_active. rewrite forallb_forall. split.
  - intros H c Hc. apply list_elem_of_In in Hc. apply H in Hc.
    destruct (R !! c) as [ci|]; [eauto|done].
  - intros H c Hc. apply list_elem_of_In in Hc.
    destruct (H c Hc) as (ci & -> & Hact). done.
Qed.

Lemma remove_dups_sublist (l : list string) : remove_dups l `sublist_of` l.
Proof.
  induction l as [|x l IH]; simpl; [done|].
  destruct (decide_rel (∈) x l).
  - by apply sublist_cons.
  - by apply sublist_skip.
Qed.

(** Under the registry invariant, an admissible selection without
    repetition is pairwise joint-disjoint. *)
Lemma admissible_NoDup_disjoint S :
  registry_wf → admissible [] S → NoDup S → pairwise_disjoint S.
Proof.
  intros Hwf Hadm Hnd i j ci cj Hij Hi Hj.
  apply (admissible_disjoint_names S i j); try done.
  intros ->. apply Hij. by apply (proj1 (NoDup_alt S) Hnd i j cj).
Qed.

(** What an option is: a selection of the given size, drawn from the
    available controllers, admissible, that covers the joints. *)
Lemma options_sound J k A S :
  S ∈ options J k A →
  length S = k ∧ S `sublist_of` A ∧ admissible [] S ∧ covers J S.
Proof.
  intros Hin. unfold options in Hin.
  apply generate_sound in Hin as (T & HT & Hsub & Hlen & Hadm & Hcov);
    [|simpl; lia].
  simpl in HT. subst T. done.
Qed.

Lemma options_complete J A S :
  registry_wf → S `sublist_of` A → pairwise_disjoint S → covers J S →
  S ∈ options J (length S) A.
Proof.
  intros Hwf Hsub Hd Hcov.
  apply (generate_complete (length S) J A [] S); try done.
  by apply admissible_of_disjoint.
Qed.

(** From an option of a positive size, a non-empty pairwise disjoint
    covering selection: the option without its repetitions. *)
Lemma options_without_repetition J k A S :
  registry_wf → 1 ≤ k → S ∈ options J k A →
  ∃ S', S' ≠ [] ∧ S' `sublist_of` A ∧ pairwise_disjoint S' ∧ covers J S'.
Proof.
  intros Hwf Hk Hin.
  apply options_sound in Hin as (Hlen & Hsub & Hadm & Hcov).
  exists (remove_dups S). split_and!.
  - destruct S as [|c S]; [simpl in Hlen; lia|]. intros Hnil.
    assert (Hc : c ∈ remove_dups (c :: S)).
    { apply elem_of_remove_dups, elem_of_cons. by left. }
    rewrite Hnil in Hc. by apply elem_of_nil in Hc.
  - etrans; [apply remove_dups_sublist|done].
  - apply admissible_NoDup_disjoint; [done| |apply NoDup_remove_dups].
    eapply admissible_sublist; [apply remove_dups_sublist|done|done].
  - intros x Hx. apply Hcov in Hx. rewrite combined_joints_elem in *.
    destruct Hx as (c & Hc & Hx). exists c. split; [|done].
    by apply elem_of_remove_dups.
Qed.

End Selection.

Lemma seq_split s n pre i post :
  seq s n = pre ++ i :: post →
  pre = seq s (i - s) ∧ s ≤ i ∧ i < s + n ∧ post = seq (S i) (s + n - S i).
Proof.
  intros H.
  assert (Hlen : length pre < n).
  { apply (f_equal length) in H. rewrite length_seq, length_app in H.
    simpl in H. lia. }
  assert (Hpre : pre = seq s (length pre)).
  { pose proof (take_app_length pre (i :: post)) as Ht.
    rewrite <- H, take_seq in Ht. rewrite <- Ht at 1. f_equal. lia. }
  assert (Hpost : i :: post = seq (s + length pre) (n - length pre)).
  { pose proof (drop_app_length pre (i :: post)) as Hd.
    by rewrite <- H, drop_seq in Hd. }
  destruct (n - length pre) as [|m] eqn:E; [lia|]. simpl in Hpost.
  injection Hpost as -> ->.
  replace (s + length pre - s) with (length pre) by lia.
  split_and!; try done; try lia. f_equal. lia.
Qed.

(** *** What the registry keeps while states are read *)

Lemma known_lookup R c ci : R !! c = Some ci → known R c = ci.
Proof. intros H. unfold known. by rewrite H. Qed.

Lemma known_lookup_None R c : R !! c = None → known R c = unknown_controller.
Proof. intros H. unfold known. by rewrite H. Qed.

Lemma known_insert R c ci c' :
  known (<[c := ci]> R) c' = if decide (c = c') then ci else known R c'.
Proof.
  unfold known. destruct (decide (c = c')) as [->|Hne].
  - by rewrite lookup_insert_eq.
  - by rewrite lookup_insert_ne.
Qed.

Lemma known_touch R c c' : known (touch R c) c' = known R c'.
Proof.
  unfold touch. rewrite known_insert. by destruct (decide (c = c')) as [->|].
Qed.

Lemma touch_known R c : is_Some (R !! c) → touch R c = R.
Proof.
  intros [ci Hci]. unfold touch. rewrite (known_lookup R c ci Hci).
  by apply insert_id.
Qed.

Lemma touch_all_known cs : ∀ R,
  (∀ c, c ∈ cs → is_Some (R !! c)) → touch_all cs R = R.
Proof.
  induction cs as [|c cs IH]; intros R H; [done|]. simpl.
  rewrite touch_known by (apply H, elem_of_cons; by left).
  apply IH. intros c' Hc'. apply H, elem_of_cons. by right.
Qed.

(** The joints and the overlap sets of the registry are all that the
    enumeration of the combinations reads. *)
Definition same_joints (R R' : gmap string ControllerInformation) : Prop :=
  ∀ c, joints_ (known R c) = joints_ (known R' c) ∧
       overlapping_controllers_ (known R c)
       = overlapping_controllers_ (known R' c).

Lemma combined_joints_ext R R' S :
  same_joints R R' → combined_joints R S = combined_joints R' S.
Proof.
  intros Hsame. unfold combined_joints. f_equal.
  apply list_fmap_ext. intros _ c _. apply Hsame.
Qed.

Lemma generateControllerCombination_ext R R' count J avail : ∀ sel,
  same_joints R R' →
  generateControllerCombination R count J avail sel
  = generateControllerCombination R' count J avail sel.
Proof.
  intros sel Hsame. revert sel.
  assert (Hcheck : ∀ sel, checkControllerCombination R sel J
                          = checkControllerCombination R' sel J).
  { intros sel. unfold checkControllerCombination.
    by rewrite (combined_joints_ext R R'). }
  assert (Hover : ∀ c sel, overlaps_selected R c sel
                           = overlaps_selected R' c sel).
  { intros c sel. unfold overlaps_selected.
    by rewrite (proj2 (Hsame c)). }
  induction avail as [|c rest IH]; intros sel; simpl.
  - by rewrite Hcheck.
  - by rewrite Hcheck, Hover, !IH.
Qed.

Lemma admissible_ext R R' T : ∀ sel,
  same_joints R R' → admissible R sel T → admissible R' sel T.
Proof.
  induction T as [|c T IH]; intros sel Hsame; simpl; [done|].
  intros [Ho Hadm]. split; [|by apply IH].
  unfold overlaps_selected in *. by rewrite <- (proj2 (Hsame c)).
Qed.

(** The registry [R'] comes from [R] by reading states and by looking up
    names among [A]: the joints and the overlap sets are the same, no key
    is lost, and a new key is a name of [A]. *)
Definition evolves (A : list string)
    (R R' : gmap string ControllerInformation) : Prop :=
  same_joints R R' ∧
  (∀ c, is_Some (R !! c) → is_Some (R' !! c)) ∧
  (∀ c, is_Some (R' !! c) → is_Some (R !! c) ∨ c ∈ A).

Lemma evolves_refl A R : evolves A R R.
Proof. split_and!; [done|done|]. intros c Hc. by left. Qed.

Lemma evolves_trans A R1 R2 R3 :
  evolves A R1 R2 → evolves A R2 R3 → evolves A R1 R3.
Proof.
  intros (Hs1 & Hk1 & Hn1) (Hs2 & Hk2 & Hn2). split_and!.
  - intros c. destruct (Hs1 c) as [-> ->]. apply Hs2.
  - intros c Hc. by apply Hk2, Hk1.
  - intros c Hc. destruct (Hn2 c Hc) as [H|H]; [by apply Hn1|by right].
Qed.

Lemma evolves_weaken A A' R R' :
  (∀ c, c ∈ A → c ∈ A') → evolves A R R' → evolves A' R R'.
Proof.
  intros Hsub (Hs & Hk & Hn). split_and!; [done|done|].
  intros c Hc. destruct (Hn c Hc) as [H|H]; [by left|right; by apply Hsub].
Qed.

Lemma evolves_nil A R R' : evolves [] R R' → evolves A R R'.
Proof.
  apply evolves_weaken. intros c Hc. by apply elem_of_nil in Hc.
Qed.

Lemma evolves_insert R c ci ci' :
  R !! c = Some ci → joints_ ci' = joints_ ci →
  overlapping_controllers_ ci' = overlapping_controllers_ ci →
  evolves [] R (<[c := ci']> R).
Proof.
  intros Hc Hj Ho. split_and!.
  - intros c'. rewrite known_insert. destruct (decide (c = c')) as [<-|]; [|done].
    by rewrite (known_lookup R c ci Hc), Hj, Ho.
  - intros c' Hc'. destruct (decide (c = c')) as [<-|Hne].
    + rewrite lookup_insert_eq. eauto.
    + by rewrite lookup_insert_ne.
  - intros c' Hc'. left. destruct (decide (c = c')) as [<-|Hne]; [eauto|].
    by rewrite lookup_insert_ne in Hc'.
Qed.

Lemma evolves_touch R c : evolves [c] R (touch R c).
Proof.
  split_and!.
  - intros c'. by rewrite known_touch.
  - intros c' Hc'. unfold touch. destruct (decide (c = c')) as [<-|Hne].
    + rewrite lookup_insert_eq. eauto.
    + by rewrite lookup_insert_ne.
  - intros c' Hc'. unfold touch in Hc'. destruct (decide (c = c')) as [<-|Hne].
    + right. apply list_elem_of_singleton. done.
    + left. by rewrite lookup_insert_ne in Hc'.
Qed.

Lemma evolves_touch_all cs : ∀ R, evolves cs R (touch_all cs R).
Proof.
  induction cs as [|c cs IH]; intros R; [apply evolves_refl|]. simpl.
  apply (evolves_trans _ _ (touch R c)).
  - eapply evolves_weaken; [|apply evolves_touch].
    intros c' Hc'. apply list_elem_of_singleton in Hc' as ->.
    apply elem_of_cons. by left.
  - eapply evolves_weaken; [|apply IH].
    intros c' Hc'. apply elem_of_cons. by right.
Qed.

Lemma evolves_lookup_None A R R' c :
  evolves A R R' → R !! c = None → c ∉ A → R' !! c = None.
Proof.
  intros (_ & _ & Hn) Hc HA. destruct (R' !! c) as [ci|] eqn:E; [|done].
  destruct (Hn c) as [[? ?]|?]; [eauto|congruence|done].
Qed.

Lemma evolves_dom A R R' :
  evolves A R R' → (∀ c, c ∈ A → is_Some (R !! c)) → dom R' = dom R.
Proof.
  intros (_ & Hk & Hn) HA. apply set_eq. intros c. rewrite !elem_of_dom.
  split; [|apply Hk]. intros Hc. destruct (Hn c Hc) as [?|?]; [done|].
  by apply HA.
Qed.

Lemma evolves_options A R R' J k Av :
  evolves A R R' → options R' J k Av = options R J k Av.
Proof.
  intros (Hs & _). unfold options. symmetry.
  by apply generateControllerCombination_ext.
Qed.

Lemma evolves_covers A R R' J S :
  evolves A R R' → covers R J S ↔ covers R' J S.
Proof.
  intros (Hs & _). unfold covers. by rewrite (combined_joints_ext R R').
Qed.

Lemma evolves_pairwise_disjoint A R R' S :
  evolves A R R' → pairwise_disjoint R S ↔ pairwise_disjoint R' S.
Proof.
  intros (Hs & _). unfold pairwise_disjoint. split.
  - intros H i j ci cj Hij Hi Hj.
    rewrite <- (proj1 (Hs ci)), <- (proj1 (Hs cj)). eauto.
  - intros H i j ci cj Hij Hi Hj.
    rewrite (proj1 (Hs ci)), (proj1 (Hs cj)). eauto.
Qed.

(** The registry invariant is kept. *)
Lemma evolves_wf A R R' : evolves A R R' → registry_wf R → registry_wf R'.
Proof.
  intros (Hsame & Hkeys & _) Hwf c ci s Hc.
  pose proof (Hsame c) as [Hj Ho]. rewrite (known_lookup R' c ci Hc) in Hj, Ho.
  destruct (R !! c) as [ci0|] eqn:Hc0.
  - rewrite (known_lookup R c ci0 Hc0) in Hj, Ho.
    rewrite <- Ho, (Hwf c ci0 s Hc0), <- Hj.
    split; intros (Hne & si & Hs & Hcap); (split; [done|]).
    + destruct (Hkeys s) as [si' Hs']; [eauto|]. exists si'. split; [done|].
      pose proof (proj1 (Hsame s)) as Hjs.
      rewrite (known_lookup R s si Hs), (known_lookup R' s si' Hs') in Hjs.
      by rewrite <- Hjs.
    + pose proof (proj1 (Hsame s)) as Hjs.
      rewrite (known_lookup R' s si Hs) in Hjs.
      destruct (R !! s) as [si0|] eqn:Hs0.
      * exists si0. split; [done|].
        rewrite (known_lookup R s si0 Hs0) in Hjs. by rewrite Hjs.
      * exfalso. rewrite (known_lookup_None R s Hs0) in Hjs. simpl in Hjs.
        rewrite <- Hjs in Hcap. apply Hcap.
        apply intersection_empty_r_L.
  - rewrite (known_lookup_None R c Hc0) in Hj, Ho. simpl in Hj, Ho. split.
    + rewrite <- Ho. intros H. by apply not_elem_of_empty in H.
    + intros (_ & si & _ & Hcap). rewrite <- Hj in Hcap. exfalso.
      apply Hcap. apply intersection_empty_l_L.
Qed.

(** *** The registry invariant holds after a reload *)

Lemma load_names_lookup names getControllerJoints c ci :
  load_names names getControllerJoints !! c = Some ci →
  overlapping_controllers_ ci = ∅.
Proof.
  unfold load_names.
  cut (∀ m : gmap string ControllerInformation,
         (∀ c ci, m !! c = Some ci → overlapping_controllers_ ci = ∅) →
         ∀ c ci,
           foldl (λ m n,
                    <[n := mkInfo n (list_to_set (getControllerJoints n)) ∅
                             (mkState false false false) 0]> m) m names
           !! c = Some ci →
           overlapping_controllers_ ci = ∅).
  { intros H. apply H. intros c' ci'. by rewrite lookup_empty. }
  clear c ci. induction names as [|n names IH]; intros m Hm c ci; simpl.
  - apply Hm.
  - apply IH. intros c' ci'. destruct (decide (n = c')) as [->|Hne].
    + rewrite lookup_insert_eq. by intros [= <-].
    + rewrite lookup_insert_ne by done. apply Hm.
Qed.

Lemma reloadControllerInformation_wf names getControllerJoints :
  registry_wf (reloadControllerInformation names getControllerJoints).
Proof.
  unfold registry_wf, reloadControllerInformation.
  set (m := load_names names getControllerJoints).
  intros c ci s Hc. rewrite map_lookup_imap in Hc.
  destruct (m !! c) as [ci0|] eqn:Hc0; simplify_eq/=.
  rewrite (load_names_lookup _ _ _ _ Hc0), (left_id_L ∅ (∪)).
  unfold overlaps_of. rewrite elem_of_dom. split.
  - intros [si0 Hs]. apply map_lookup_filter_Some in Hs as [Hs [Hne Hcap]].
    simpl in *. split; [done|].
    eexists. rewrite map_lookup_imap, Hs. simpl. split; [done|]. done.
  - intros (Hne & si & Hs & Hcap). rewrite map_lookup_imap in Hs.
    destruct (m !! s) as [si0|] eqn:Hs0; simplify_eq/=.
    exists si0. apply map_lookup_filter_Some. done.
Qed.

Lemma sorted_names_elem s n : n ∈ sorted_names s ↔ n ∈ s.
Proof.
  unfold sorted_names. rewrite merge_sort_Permutation.
  apply elem_of_elements.
Qed.

Lemma sorted_names_NoDup s : NoDup (sorted_names s).
Proof.
  unfold sorted_names. rewrite merge_sort_Permutation. apply NoDup_elements.
Qed.

Lemma all_controller_names_known R c :
  c ∈ all_controller_names R → is_Some (R !! c).
Proof.
  unfold all_controller_names. rewrite sorted_names_elem.
  apply elem_of_dom.
Qed.

(** ** Controller selection *)

Section SelectionRun.

(** Whether controllers are managed; [std::sort], of which all that is
    relied on is that it returns a permutation (and, for the ranking, a
    sorted one); whether there is a controller manager; and the outside:
    what the n-th reading returns when it is a reading of the clock, and
    when it asks the controller manager for the state of a controller. *)
Variable manage_controllers_ : bool.
Variable std_sort : (nat → nat → bool) → list nat → list nat.
Variable has_controller_manager : bool.
Variable ros_Time_now : nat → Q.
Variable getControllerState : nat → string → ControllerState.

(** [updateControllerState] on a record: the state is read again when the
    cached one is at least [age] old and there is a controller manager. *)
Definition updateControllerState_info (ci : ControllerInformation) (age : Q)
    (n : nat) : ControllerInformation * nat :=
  if Qle_bool age (ros_Time_now n - last_update_ ci) then
    if has_controller_manager then
      (mkInfo (name_ ci) (joints_ ci) (overlapping_controllers_ ci)
         (getControllerState (S n) (name_ ci)) (ros_Time_now (S (S n))),
       S (S (S n)))
    else (ci, S n)
  else (ci, S n).

(** [updateControllerState] by name: nothing is read for a name that is
    not a key. *)
Definition updateControllerState (controller : string) (age : Q) (w : World)
    : World :=
  match w.1 !! controller with
  | Some ci =>
      let r := updateControllerState_info ci age w.2 in
      (<[controller := r.1]> w.1, r.2)
  | None => w
  end.

(** [updateControllersState]: every record, in the order of the keys. *)
Definition updateControllersState (age : Q) (w : World) : World :=
  foldl (λ w c, updateControllerState c age w) w (all_controller_names w.1).

(** [areControllersActive]: each controller is refreshed and then looked
    up; the loop returns at the first that is not known or not active. *)
Fixpoint areControllersActive (controllers : list string) (w : World)
    : bool * World :=
  match controllers with
  | [] => (true, w)
  | c :: rest =>
      let w1 := updateControllerState c default_age w in
      match w1.1 !! c with
      | Some ci =>
          if active_ (state_ ci) then areControllersActive rest w1
          else (false, w1)
      | None => (false, w1)
      end
  end.

(** The loop of [findControllers] over the ranked options when controllers
    are not managed: the first option found fully active. *)
Fixpoint find_active (selected_options : list (list string))
    (bijection : list nat) (w : World) : option (list string) * World :=
  match bijection with
  | [] => (None, w)
  | i :: rest =>
      let o := default [] (selected_options !! i) in
      let r := areControllersActive o w in
      if r.1 then (Some o, r.2) else find_active selected_options rest r.2
  end.

(** [findControllers].  The enumeration looks up every available controller
    with [known_controllers_[...]] as soon as a controller is asked for;
    the options are ranked on the states that the registry holds. *)
Definition findControllers (actuated_joints : gset string)
    (controller_count : nat) (available : list string) (w : World)
    : option (list string) * World :=
  let R := if controller_count =? 0 then w.1 else touch_all available w.1 in
  let selected_options :=
    generateControllerCombination R controller_count actuated_joints
      available [] in
  match selected_options with
  | [] => (None, (R, w.2))
  | [only] => (Some only, (R, w.2))
  | _ =>
      let nrdefault :=
        count_if R (λ ci, default_ (state_ ci)) <$> selected_options in
      let nractive :=
        count_if R (λ ci, active_ (state_ ci)) <$> selected_options in
      let nrjoints := total_joints R <$> selected_options in
      let bijection :=
        std_sort (order_options nrdefault nrjoints nractive)
          (seq 0 (length selected_options)) in
      let option_at i := default [] (selected_options !! i) in
      let first_valid := option_at (default 0 (head bijection)) in
      if negb manage_controllers_ then
        match find_active selected_options bijection (R, w.2) with
        | (Some o, w') => (Some o, w')
        | (None, w') => (Some first_valid, w')
        end
      else (Some first_valid, (R, w.2))
  end.

(** The inner loop of [selectControllers] over the larger sizes. *)
Fixpoint other_option (actuated_joints : gset string)
    (available : list string) (sizes : list nat) (w : World)
    : option (list string) * World :=
  match sizes with
  | [] => (None, w)
  | j :: rest =>
      match findControllers actuated_joints j available w with
      | (Some o, w1) =>
          let r := areControllersActive o w1 in
          if r.1 then (Some o, r.2)
          else other_option actuated_joints available rest r.2
      | (None, w1) => other_option actuated_joints available rest w1
      end
  end.

Fixpoint select_loop (actuated_joints : gset string)
    (available : list string) (sizes : list nat) (w : World)
    : option (list string) * World :=
  match sizes with
  | [] => (None, w)
  | i :: rest =>
      match findControllers actuated_joints i available w with
      | (Some selected, w1) =>
          if manage_controllers_ then (Some selected, w1)
          else
            let r := areControllersActive selected w1 in
            if r.1 then (Some selected, r.2)
            else
              let r2 := other_option actuated_joints available rest r.2 in
              (Some (default selected r2.1), r2.2)
      | (None, w1) => select_loop actuated_joints available rest w1
      end
  end.

(** [selectControllers]: sizes 1, 2, ... up to the number of available
    controllers. *)
Definition selectControllers (actuated_joints : gset string)
    (available : list string) (w : World) : option (list string) * World :=
  select_loop actuated_joints available (seq 1 (length available)) w.

(** *** Reading states keeps the joints, the overlap sets and the keys *)

Lemma updateControllerState_info_fields ci age n :
  name_ (updateControllerState_info ci age n).1 = name_ ci ∧
  joints_ (updateControllerState_info ci age n).1 = joints_ ci ∧
  overlapping_controllers_ (updateControllerState_info ci age n).1
  = overlapping_controllers_ ci.
Proof.
  unfold updateControllerState_info.
  destruct (Qle_bool _ _); [|done]. by destruct has_controller_manager.
Qed.

Lemma updateControllerState_evolves A c age w :
  evolves A w.1 (updateControllerState c age w).1.
Proof.
  apply evolves_nil. unfold updateControllerState.
  destruct (w.1 !! c) as [ci|] eqn:Hc; [|apply evolves_refl]. simpl.
  destruct (updateControllerState_info_fields ci age w.2) as (_ & Hj & Ho).
  by apply (evolves_insert _ c ci).
Qed.

Lemma updateControllerState_other c age w c' :
  c' ≠ c → (updateControllerState c age w).1 !! c' = w.1 !! c'.
Proof.
  intros Hne. unfold updateControllerState.
  destruct (w.1 !! c) as [ci|] eqn:Hc; [|done]. simpl.
  by rewrite lookup_insert_ne.
Qed.

Lemma updateControllersState_evolves A age w :
  evolves A w.1 (updateControllersState age w).1.
Proof.
  unfold updateControllersState. generalize (all_controller_names w.1).
  intros l. revert w. induction l as [|c l IH]; intros w; simpl.
  - apply evolves_refl.
  - eapply evolves_trans; [apply updateControllerState_evolves|apply IH].
Qed.

Lemma areControllersActive_evolves A l : ∀ w,
  evolves A w.1 (areControllersActive l w).2.1.
Proof.
  induction l as [|c l IH]; intros w; simpl; [apply evolves_refl|].
  pose proof (updateControllerState_evolves A c default_age w) as H1.
  destruct ((updateControllerState c default_age w).1 !! c) as [ci|];
    [|done].
  destruct (active_ (state_ ci)); [|done].
  eapply evolves_trans; [exact H1|apply IH].
Qed.

Lemma areControllersActive_other l c : ∀ w,
  c ∉ l → (areControllersActive l w).2.1 !! c = w.1 !! c.
Proof.
  induction l as [|c0 l IH]; intros w Hc; simpl; [done|].
  apply not_elem_of_cons in Hc as [Hne Hc].
  pose proof (updateControllerState_other c0 default_age w c Hne) as H1.
  destruct ((updateControllerState c0 default_age w).1 !! c0) as [ci|];
    [|done].
  destruct (active_ (state_ ci)); [|done].
  by rewrite IH.
Qed.

(** When [areControllersActive] returns true, every controller of the list
    is active in the registry that the call leaves. *)
Lemma areControllersActive_true l : ∀ w,
  (areControllersActive l w).1 = true →
  all_active (areControllersActive l w).2.1 l = true.
Proof.
  induction l as [|c l IH]; intros w; simpl; [done|].
  destruct ((updateControllerState c default_age w).1 !! c) as [ci|] eqn:Hc;
    [|done].
  destruct (active_ (state_ ci)) eqn:Hact; [|done].
  intros Htrue. rewrite (IH _ Htrue), andb_true_r.
  destruct (decide (c ∈ l)) as [Hin|Hnin].
  - pose proof (proj1 (all_active_elem _ l) (IH _ Htrue) c Hin)
      as (ci' & -> & Hact'). done.
  - by rewrite (areControllersActive_other l c _ Hnin), Hc.
Qed.

Lemma find_active_evolves A opts bijection : ∀ w,
  evolves A w.1 (find_active opts bijection w).2.1.
Proof.
  induction bijection as [|i rest IH]; intros w; simpl;
    [apply evolves_refl|].
  pose proof (areControllersActive_evolves A (default [] (opts !! i)) w)
    as H1.
  destruct (areControllersActive (default [] (opts !! i)) w) as [[|] w1];
    simpl in *; [done|].
  eapply evolves_trans; [exact H1|apply IH].
Qed.

Lemma find_active_Some opts bijection o : ∀ w,
  (find_active opts bijection w).1 = Some o →
  (∃ i, i ∈ bijection ∧ o = default [] (opts !! i)) ∧
  all_active (find_active opts bijection w).2.1 o = true.
Proof.
  induction bijection as [|i rest IH]; intros w; simpl; [done|].
  pose proof (areControllersActive_true (default [] (opts !! i)) w) as H1.
  destruct (areControllersActive (default [] (opts !! i)) w) as [[|] w1];
    simpl in *.
  - intros [= <-]. split; [|by apply H1]. exists i. split; [|done].
    apply elem_of_cons. by left.
  - intros H. destruct (IH w1 H) as [(i' & Hi' & ->) Hact]. split; [|done].
    exists i'. split; [|done]. apply elem_of_cons. by right.
Qed.

Lemma findControllers_evolves J k A w :
  evolves A w.1 (findControllers J k A w).2.1.
Proof.
  unfold findControllers.
  set (R := if k =? 0 then w.1 else touch_all A w.1).
  assert (HR : evolves A w.1 R).
  { unfold R. destruct (k =? 0); [apply evolves_refl|].
    apply evolves_touch_all. }
  destruct (generateControllerCombination R k J A []) as [|o1 [|o2 rest]];
    [done|done|].
  destruct (negb manage_controllers_); [|done].
  match goal with
  | |- context [find_active ?o ?b ?w0] =>
      pose proof (find_active_evolves A o b w0) as Hf;
      destruct (find_active o b w0) as [[o'|] w']
  end; simpl in *; by eapply evolves_trans.
Qed.

Lemma findControllers_None J k A w :
  (findControllers J k A w).1 = None ↔ options w.1 J k A = [].
Proof.
  unfold findControllers, options.
  set (R := if k =? 0 then w.1 else touch_all A w.1).
  assert (HR : generateControllerCombination R k J A []
               = generateControllerCombination w.1 k J A []).
  { symmetry. apply generateControllerCombination_ext. unfold R.
    destruct (k =? 0); [done|]. apply (evolves_touch_all A w.1). }
  rewrite <- HR.
  destruct (generateControllerCombination R k J A []) as [|o1 [|o2 rest]];
    [done|done|].
  split; [|done]. destruct (negb manage_controllers_); [|done].
  by destruct (find_active _ _ _) as [[o'|] w'].
Qed.

Lemma other_option_evolves J A sizes : ∀ w,
  evolves A w.1 (other_option J A sizes w).2.1.
Proof.
  induction sizes as [|j rest IH]; intros w; simpl; [apply evolves_refl|].
  pose proof (findControllers_evolves J j A w) as H1.
  destruct (findControllers J j A w) as [[o|] w1]; simpl in *.
  - pose proof (areControllersActive_evolves A o w1) as H2.
    destruct (areControllersActive o w1) as [[|] w2]; simpl in *.
    + by eapply evolves_trans.
    + eapply evolves_trans; [|apply IH]. by eapply evolves_trans.
  - eapply evolves_trans; [exact H1|apply IH].
Qed.

Lemma select_loop_evolves J A sizes : ∀ w,
  evolves A w.1 (select_loop J A sizes w).2.1.
Proof.
  induction sizes as [|i rest IH]; intros w; simpl; [apply evolves_refl|].
  pose proof (findControllers_evolves J i A w) as H1.
  destruct (findControllers J i A w) as [[o|] w1]; simpl in *.
  - destruct manage_controllers_; [done|].
    pose proof (areControllersActive_evolves A o w1) as H2.
    destruct (areControllersActive o w1) as [[|] w2]; simpl in *.
    + by eapply evolves_trans.
    + eapply evolves_trans; [|apply other_option_evolves].
      by eapply evolves_trans.
  - eapply evolves_trans; [exact H1|apply IH].
Qed.

Lemma selectControllers_evolves J A w :
  evolves A w.1 (selectControllers J A w).2.1.
Proof. apply select_loop_evolves. Qed.

Lemma select_loop_None J A sizes : ∀ w,
  (select_loop J A sizes w).1 = None ↔
  ∀ k, k ∈ sizes → options w.1 J k A = [].
Proof.
  induction sizes as [|i sizes IH]; intros w; simpl.
  - split; [|done]. intros _ k Hk. by apply elem_of_nil in Hk.
  - pose proof (findControllers_None J i A w) as Hn.
    pose proof (findControllers_evolves J i A w) as He.
    destruct (findControllers J i A w) as [[S0|] w1]; simpl in *.
    + split.
      * destruct manage_controllers_; [done|].
        by destruct (areControllersActive S0 w1) as [[|] w2].
      * intros H. exfalso.
        assert (Hi : options w.1 J i A = [])
          by (apply H, elem_of_cons; by left).
        apply Hn in Hi. done.
    + rewrite IH. setoid_rewrite (evolves_options A w.1 w1.1 J _ A He).
      split.
      * intros H k Hk. apply elem_of_cons in Hk as [->|Hk]; [|by apply H].
        by apply Hn.
      * intros H k Hk. apply H, elem_of_cons. by right.
Qed.

(** Controllers that are managed are selected without a reading of the
    outside. *)
Lemma findControllers_managed J k A w :
  manage_controllers_ = true →
  (findControllers J k A w).2
  = (if k =? 0 then w.1 else touch_all A w.1, w.2).
Proof.
  intros Hm. unfold findControllers. rewrite Hm. simpl.
  by destruct (generateControllerCombination _ k J A []) as [|o1 [|o2 rest]].
Qed.

Hypothesis std_sort_perm : ∀ lt l, std_sort lt l ≡ₚ l.

Lemma sorted_index_in_range lt (opts : list (list string)) i :
  i ∈ std_sort lt (seq 0 (length opts)) →
  default [] (opts !! i) ∈ opts.
Proof.
  intros Hi. rewrite std_sort_perm in Hi. apply elem_of_seq in Hi.
  destruct (opts !! i) as [o|] eqn:Ho.
  - simpl. apply list_elem_of_lookup. eauto.
  - apply lookup_ge_None in Ho. lia.
Qed.

Lemma sorted_head_in_range lt (opts : list (list string)) :
  opts ≠ [] →
  default 0 (head (std_sort lt (seq 0 (length opts))))
  ∈ std_sort lt (seq 0 (length opts)).
Proof.
  intros Hne.
  destruct (std_sort lt (seq 0 (length opts))) as [|i rest] eqn:E.
  - pose proof (std_sort_perm lt (seq 0 (length opts))) as Hp.
    rewrite E in Hp. apply Permutation_nil_l in Hp.
    destruct opts; [done|]. simpl in Hp. done.
  - simpl. apply elem_of_cons. by left.
Qed.

Lemma findControllers_in J k A w S :
  (findControllers J k A w).1 = Some S → S ∈ options w.1 J k A.
Proof.
  unfold findControllers, options.
  set (R := if k =? 0 then w.1 else touch_all A w.1).
  assert (HR : generateControllerCombination R k J A []
               = generateControllerCombination w.1 k J A []).
  { symmetry. apply generateControllerCombination_ext. unfold R.
    destruct (k =? 0); [done|]. apply (evolves_touch_all A w.1). }
  rewrite <- HR.
  destruct (generateControllerCombination R k J A []) as [|o1 [|o2 rest]] eqn:E;
    [done| |].
  - intros [= ->]. apply list_elem_of_singleton. done.
  - set (opts := o1 :: o2 :: rest).
    set (lt := order_options _ _ _).
    assert (Hhead : default [] (opts !! default 0
               (head (std_sort lt (seq 0 (length opts))))) ∈ opts).
    { apply (sorted_index_in_range lt), sorted_head_in_range. done. }
    destruct (negb manage_controllers_); [|by intros [= <-]].
    pose proof (find_active_Some opts (std_sort lt (seq 0 (length opts))))
      as Hf.
    destruct (find_active opts _ (R, w.2)) as [[o'|] w'] eqn:Hfa;
      [|by intros [= <-]].
    intros [= <-]. destruct (Hf o' (R, w.2)) as [(i & Hi & ->) _].
    { by rewrite Hfa. }
    by apply (sorted_index_in_range lt).
Qed.

(** *** The two loops of [selectControllers] *)

Lemma other_option_Some J A sizes T : ∀ w,
  (other_option J A sizes w).1 = Some T →
  all_active (other_option J A sizes w).2.1 T = true ∧
  ∃ j, j ∈ sizes ∧ T ∈ options w.1 J j A.
Proof.
  induction sizes as [|j rest IH]; intros w; simpl; [done|].
  pose proof (findControllers_in J j A w) as Hin.
  pose proof (findControllers_evolves J j A w) as He.
  destruct (findControllers J j A w) as [[o|] w1]; simpl in *.
  - pose proof (areControllersActive_true o w1) as Ht.
    pose proof (areControllersActive_evolves A o w1) as He2.
    destruct (areControllersActive o w1) as [[|] w2]; simpl in *.
    + intros [= <-]. split; [by apply Ht|].
      exists j. split; [apply elem_of_cons; by left|by apply Hin].
    + intros H. destruct (IH w2 H) as (Hact & j' & Hj' & HT).
      split; [done|]. exists j'. split; [apply elem_of_cons; by right|].
      rewrite <- (evolves_options A w.1 w2.1); [done|].
      by eapply evolves_trans.
  - intros H. destruct (IH w1 H) as (Hact & j' & Hj' & HT).
    split; [done|]. exists j'. split; [apply elem_of_cons; by right|].
    by rewrite <- (evolves_options A w.1 w1.1).
Qed.

Lemma select_loop_Some J A sizes S : ∀ w,
  (select_loop J A sizes w).1 = Some S →
  ∃ pre i post, sizes = pre ++ i :: post ∧
    (∀ k, k ∈ pre → options w.1 J k A = []) ∧
    (S ∈ options w.1 J i A ∨
     (manage_controllers_ = false ∧
      all_active (select_loop J A sizes w).2.1 S = true ∧
      ∃ j, j ∈ post ∧ S ∈ options w.1 J j A)).
Proof.
  induction sizes as [|i rest IH]; intros w; simpl; [done|].
  pose proof (findControllers_in J i A w) as Hin.
  pose proof (findControllers_None J i A w) as Hn.
  pose proof (findControllers_evolves J i A w) as He.
  destruct (findControllers J i A w) as [[S0|] w1]; simpl in *.
  - intros Hsel. exists [], i, rest. split; [done|].
    split; [intros k Hk; by apply elem_of_nil in Hk|].
    destruct manage_controllers_; simpl in *.
    { left. injection Hsel as <-. by apply Hin. }
    pose proof (areControllersActive_evolves A S0 w1) as He2.
    destruct (areControllersActive S0 w1) as [[|] w2]; simpl in *.
    { left. injection Hsel as <-. by apply Hin. }
    pose proof (other_option_Some J A rest) as Ho.
    destruct (other_option J A rest w2) as [[T|] w3] eqn:Hoo; simpl in *.
    + injection Hsel as <-. right. split; [done|].
      destruct (Ho T w2) as (Hact & j & Hj & HT); [by rewrite Hoo|].
      rewrite Hoo in Hact. split; [done|]. exists j. split; [done|].
      rewrite <- (evolves_options A w.1 w2.1); [done|].
      by eapply evolves_trans.
    + left. injection Hsel as <-. by apply Hin.
  - intros H. destruct (IH w1 H) as (pre & i' & post & -> & Hpre & Hcase).
    exists (i :: pre), i', post. split; [done|].
    assert (Hopt : ∀ k, options w1.1 J k A = options w.1 J k A)
      by (intros k; by apply (evolves_options A)).
    split.
    + intros k Hk. apply elem_of_cons in Hk as [->|Hk]; [by apply Hn|].
      rewrite <- Hopt. by apply Hpre.
    + rewrite !Hopt in Hcase. destruct Hcase as [?|(? & ? & j & ? & ?)];
        [by left|right]. split_and!; try done. exists j. by rewrite <- Hopt.
Qed.

Lemma selectControllers_in_options J A w Sel :
  (selectControllers J A w).1 = Some Sel →
  ∃ k, 1 ≤ k ≤ length A ∧ Sel ∈ options w.1 J k A.
Proof.
  intros Hsel. unfold selectControllers in Hsel.
  apply select_loop_Some in Hsel as (pre & i & post & Hsizes & Hpre & Hcase).
  apply seq_split in Hsizes as (_ & Hi1 & Hin & ->).
  destruct Hcase as [?|(_ & _ & j & Hj & ?)].
  - exists i. split; [lia|done].
  - exists j. apply elem_of_seq in Hj. split; [lia|done].
Qed.

(** What a successful selection is: a non-empty admissible sublist of the
    available controllers that covers the actuated joints; without
    repetition and pairwise joint-disjoint when no available controller is
    listed twice. *)
Lemma selectControllers_sound J A w Sel :
  registry_wf w.1 →
  (selectControllers J A w).1 = Some Sel →
  Sel ≠ [] ∧ Sel `sublist_of` A ∧ covers w.1 J Sel ∧
  admissible w.1 [] Sel ∧
  (NoDup A → NoDup Sel ∧ pairwise_disjoint w.1 Sel).
Proof.
  intros Hwf Hsel.
  destruct (selectControllers_in_options J A w Sel Hsel) as (k & Hk & Hin).
  apply options_sound in Hin as (Hlen & Hsub & Hadm & Hcov).
  split_and!; try done.
  - intros ->. simpl in Hlen. lia.
  - intros HA. assert (Hnd : NoDup Sel) by (by eapply sublist_NoDup).
    split; [done|]. by apply admissible_NoDup_disjoint.
Qed.


Lemma selectControllers_fails_no_cover J A w :
  registry_wf w.1 →
  (selectControllers J A w).1 = None →
  ∀ S', S' `sublist_of` A → pairwise_disjoint w.1 S' → covers w.1 J S' →
        S' = [].
Proof.
  intros Hwf Hnone S' Hsub Hd Hcov. unfold selectControllers in Hnone.
  rewrite select_loop_None in Hnone.
  destruct (decide (S' = [])) as [|Hne]; [done|]. exfalso.
  pose proof (options_complete w.1 J A S' Hwf Hsub Hd Hcov) as Hin.
  rewrite Hnone in Hin; [by apply elem_of_nil in Hin|].
  apply elem_of_seq. pose proof (sublist_length _ _ Hsub).
  destruct S'; simpl in *; [done|lia].
Qed.

(** X11.  Controller selection fails exactly when no non-empty sublist of
    the available controllers is pairwise joint-disjoint and covers the
    actuated joints: it never gives up on joints that some admissible
    combination covers. *)
Theorem selectControllers_fails_iff_no_cover J A R n :
  registry_wf R →
  (selectControllers J A (R, n)).1 = None ↔
  ∀ S', S' `sublist_of` A → pairwise_disjoint R S' → covers R J S' →
        S' = [].
Proof.
  intros Hwf. split.
  - by apply (selectControllers_fails_no_cover J A (R, n)).
  - unfold selectControllers. rewrite select_loop_None. simpl.
    intros Hall k Hk. apply elem_of_seq in Hk.
    destruct (options R J k A) as [|S rest] eqn:E; [done|]. exfalso.
    destruct (options_without_repetition R J k A S Hwf)
      as (S' & Hne & Hsub & Hd & Hcov); [lia|rewrite E; by left|].
    by apply Hne, Hall.
Qed.

(** *** The ranking of the options of one size *)

Lemma not_ranked_after_refl R o : not_ranked_after R o o.
Proof. unfold not_ranked_after. lia. Qed.

Lemma order_options_strict_weak nrdefault nrjoints nractive :
  strict_weak (order_options nrdefault nrjoints nractive).
Proof.
  unfold strict_weak, order_options. split.
  - intros x y.
    generalize (default 0 (nrdefault !! x)) (default 0 (nrdefault !! y))
               (default 0 (nrjoints !! x)) (default 0 (nrjoints !! y))
               (default 0 (nractive !! x)) (default 0 (nractive !! y)).
    intros dx dy jx jy ax ay.
    repeat match goal with
           | |- context [(?a <? ?b)] => destruct (Nat.ltb_spec a b)
           end; try done; lia.
  - intros x y z.
    generalize (default 0 (nrdefault !! x)) (default 0 (nrdefault !! y))
               (default 0 (nrdefault !! z))
               (default 0 (nrjoints !! x)) (default 0 (nrjoints !! y))
               (default 0 (nrjoints !! z))
               (default 0 (nractive !! x)) (default 0 (nractive !! y))
               (default 0 (nractive !! z)).
    intros dx dy dz jx jy jz ax ay az.
    repeat match goal with
           | |- context [(?a <? ?b)] => destruct (Nat.ltb_spec a b)
           end; try done; lia.
Qed.

Lemma order_options_not_before R (opts : list (list string)) i i' o o' :
  opts !! i = Some o → opts !! i' = Some o' →
  order_options (nr_default R <$> opts) (total_joints R <$> opts)
    (nr_active R <$> opts) i' i = false →
  not_ranked_after R o o'.
Proof.
  intros Hi Hi'. unfold order_options, not_ranked_after.
  rewrite !list_lookup_fmap, Hi, Hi'. simpl.
  repeat match goal with
         | |- context [(?a <? ?b)] => destruct (Nat.ltb_spec a b)
         end; try done; lia.
Qed.

Lemma count_if_ext R R' f o :
  (∀ c, known R c = known R' c) → count_if R f o = count_if R' f o.
Proof.
  intros H. unfold count_if. f_equal. apply list_filter_iff.
  intros c. by rewrite H.
Qed.

Lemma total_joints_ext R R' o :
  (∀ c, known R c = known R' c) → total_joints R o = total_joints R' o.
Proof.
  intros H. unfold total_joints. generalize 0.
  induction o as [|c o IH]; intros n; simpl; [done|]. by rewrite H, IH.
Qed.

Lemma known_touch_all cs : ∀ R c, known (touch_all cs R) c = known R c.
Proof.
  induction cs as [|c0 cs IH]; intros R c; simpl; [done|].
  by rewrite IH, known_touch.
Qed.

Lemma not_ranked_after_ext R R' o o' :
  (∀ c, known R c = known R' c) →
  not_ranked_after R o o' → not_ranked_after R' o o'.
Proof.
  intros H. unfold not_ranked_after, nr_default, nr_active.
  by rewrite !(count_if_ext R R'), !(total_joints_ext R R').
Qed.

Hypothesis std_sort_sorted : ∀ lt l,
  strict_weak lt → StronglySorted (λ a b, lt b a = false) (std_sort lt l).

(** X13.  Among the combinations of one size, [findControllers] returns
    one that no other is ranked before, unless controllers are not managed
    and it returns one that is fully active in the registry that it leaves.
    The ranking is on the states that the registry holds when
    [findControllers] is called; it prefers more default controllers, then
    fewer joints in total, then fewer active controllers.  With managed
    controllers nothing is read of the outside. *)
Theorem findControllers_returns_best_ranked J k A R n S :
  (findControllers J k A (R, n)).1 = Some S →
  let R' := (findControllers J k A (R, n)).2.1 in
  (manage_controllers_ = true ∨ all_active R' S = false →
   ∀ S', S' ∈ options R J k A → not_ranked_after R S S') ∧
  (manage_controllers_ = true → (findControllers J k A (R, n)).2.2 = n).
Proof.
  intros Hfind R'. split.
  2:{ intros Hm. by rewrite findControllers_managed. }
  subst R'. revert Hfind. unfold findControllers, options. simpl.
  set (Rt := if k =? 0 then R else touch_all A R).
  assert (Hk : ∀ c, known Rt c = known R c).
  { intros c. unfold Rt. destruct (k =? 0); [done|].
    apply known_touch_all. }
  assert (HR : generateControllerCombination Rt k J A []
               = generateControllerCombination R k J A []).
  { apply generateControllerCombination_ext. intros c. by rewrite Hk. }
  rewrite <- HR.
  destruct (generateControllerCombination Rt k J A []) as [|o1 [|o2 rest]]
    eqn:E; [done| |].
  { intros [= ->] _ S' HS'. apply list_elem_of_singleton in HS' as ->.
    apply not_ranked_after_refl. }
  set (opts := o1 :: o2 :: rest).
  fold (nr_default Rt) (nr_active Rt).
  set (lt := order_options (nr_default Rt <$> opts) (total_joints Rt <$> opts)
               (nr_active Rt <$> opts)).
  set (bijection := std_sort lt (seq 0 (length opts))).
  assert (Hsw : strict_weak lt) by apply order_options_strict_weak.
  pose proof (std_sort_sorted lt (seq 0 (length opts)) Hsw) as Hsorted.
  fold bijection in Hsorted.
  assert (Hidx : ∀ S', S' ∈ opts → ∃ i', opts !! i' = Some S' ∧
                                         i' ∈ bijection).
  { intros S' HS'. apply list_elem_of_lookup in HS' as [i' Hi'].
    exists i'. split; [done|]. unfold bijection. rewrite std_sort_perm.
    apply elem_of_seq. apply lookup_lt_Some in Hi'. lia. }
  assert (Hrange : ∀ i, i ∈ bijection → ∃ o, opts !! i = Some o).
  { intros i Hi. unfold bijection in Hi. rewrite std_sort_perm in Hi.
    apply elem_of_seq in Hi. apply lookup_lt_is_Some_2. lia. }
  assert (Hhead : ∃ h tl, bijection = h :: tl).
  { destruct bijection as [|h tl] eqn:Hb; [|eauto]. exfalso.
    pose proof (std_sort_perm lt (seq 0 (length opts))) as Hp.
    fold bijection in Hp. rewrite Hb in Hp.
    apply Permutation_nil_l in Hp. done. }
  destruct Hhead as (h & tl & Hb).
  assert (Hbest_head : ∀ oh S', opts !! h = Some oh → S' ∈ opts →
                                not_ranked_after R oh S').
  { intros oh S' Hh HS'. destruct (Hidx S' HS') as (i' & Hi' & Hin).
    apply (not_ranked_after_ext Rt R); [done|].
    rewrite Hb in Hin, Hsorted.
    apply elem_of_cons in Hin as [->|Hin].
    - simplify_eq. apply not_ranked_after_refl.
    - apply StronglySorted_cons in Hsorted as [Hall _].
      rewrite Forall_forall in Hall.
      by apply (order_options_not_before Rt opts h i'); [..|apply Hall]. }
  assert (Hfirst : default [] (opts !! default 0 (head bijection))
                   = default [] (opts !! h)) by (by rewrite Hb).
  destruct (Hrange h) as [oh Hoh]; [rewrite Hb; apply elem_of_cons; by left|].
  destruct manage_controllers_ eqn:Hm; simpl negb; cbv iota.
  - intros [= <-] _ S' HS'. rewrite Hfirst, Hoh. simpl.
    by apply Hbest_head.
  - pose proof (find_active_Some opts bijection) as Hf.
    destruct (find_active opts bijection (Rt, n)) as [[o'|] w'] eqn:Hfa;
      simpl.
    + intros [= <-] [?|Hno]; [done|]. exfalso.
      destruct (Hf o' (Rt, n)) as [_ Hact]; [by rewrite Hfa|].
      rewrite Hfa in Hact. simpl in Hact. congruence.
    + intros [= <-] _ S' HS'. rewrite Hfirst, Hoh. simpl.
      by apply Hbest_head.
Qed.

End SelectionRun.

(** X12.  Whether controller selection succeeds depends on the joints and
    the overlap sets of the controllers only: not on which controllers are
    active, default or loaded, nor on when their states were read, not on
    whether controllers are managed, not on the order that [std::sort]
    returns, and not on what the clock and the controller manager return. *)
Theorem selectControllers_success_ignores_states R R' manage manage'
    sort sort' cm cm' now now' states states' n n' J A :
  (∀ c, joints_ (known R c) = joints_ (known R' c) ∧
        overlapping_controllers_ (known R c)
        = overlapping_controllers_ (known R' c)) →
  (selectControllers manage sort cm now states J A (R, n)).1 = None ↔
  (selectControllers manage' sort' cm' now' states' J A (R', n')).1 = None.
Proof.
  intros Hsame. unfold selectControllers. rewrite !select_loop_None.
  unfold options. simpl.
  split; intros H k Hk.
  - rewrite <- (generateControllerCombination_ext R R') by done. by apply H.
  - rewrite (generateControllerCombination_ext R R') by done. by apply H.
Qed.

(** *** Scenario D: three controllers over four joints *)

(** An insertion sort to stand for [std::sort] where a run is computed. *)
Fixpoint insert_sorted (lt : nat → nat → bool) (x : nat) (l : list nat)
    : list nat :=
  match l with
  | [] => [x]
  | y :: l' => if lt x y then x :: l else y :: insert_sorted lt x l'
  end.

Definition insertion_sort (lt : nat → nat → bool) (l : list nat) : list nat :=
  foldr (insert_sorted lt) [] l.

Lemma insert_sorted_perm lt x l : insert_sorted lt x l ≡ₚ x :: l.
Proof.
  induction l as [|y l IH]; simpl; [done|].
  destruct (lt x y); [done|]. rewrite IH. apply Permutation_swap.
Qed.

Lemma insertion_sort_perm lt l : insertion_sort lt l ≡ₚ l.
Proof.
  induction l as [|x l IH]; simpl; [done|].
  by rewrite insert_sorted_perm, IH.
Qed.

Definition scenario_D_joints (c : string) : list string :=
  if String.eqb c "A" then ["j1"; "j2"]
  else if String.eqb c "B" then ["j3"; "j4"]
  else if String.eqb c "C" then ["j1"; "j2"; "j3"; "j4"]
  else [].

(** A and B are the default controllers; [c_active] tells whether C is
    active, [ab_active] whether A and B are. *)
Definition scenario_D_state (ab_active c_active : bool) (c : string)
    : ControllerState :=
  if String.eqb c "C" then mkState c_active false true
  else mkState ab_active true true.

(** The clock of the scenario reads 2 s every time, and the controller
    manager reports the same states every time. *)
Definition scenario_D_clock (_ : nat) : Q := 2.

Definition scenario_D_reports (ab_active c_active : bool) (_ : nat)
    : string → ControllerState :=
  scenario_D_state ab_active c_active.

(** The registry as a reload leaves it: no state has been read. *)
Definition scenario_D_loaded : gmap string ControllerInformation :=
  reloadControllerInformation ["A"; "B"; "C"] scenario_D_joints.

(** The registry once [updateControllersState] has read the states. *)
Definition scenario_D_registry (ab_active c_active : bool)
    : gmap string ControllerInformation :=
  (updateControllersState true scenario_D_clock
     (scenario_D_reports ab_active c_active) default_age
     (scenario_D_loaded, 0)).1.

Definition four_joints : gset string :=
  list_to_set ["j1"; "j2"; "j3"; "j4"].

Definition first_arm : gset string := list_to_set ["j1"; "j2"].


(** A controller that is listed twice among the available ones can be
    selected twice.  A is cached as inactive, and the cache is fresh during
    the look at the selections of size one; it is a second old when [A; A]
    is checked, and the controller manager then reports A active. *)
Lemma selection_can_repeat_a_controller :
  (selectControllers false insertion_sort true
     (λ n, if n <? 3 then 2 else 4)%Q (scenario_D_reports true false)
     first_arm ["A"; "A"] (scenario_D_registry false false, 0)).1
  = Some ["A"; "A"].
Proof. by vm_compute. Qed.

Lemma scenario_D_registry_wf ab c : registry_wf (scenario_D_registry ab c).
Proof.
  unfold scenario_D_registry.
  eapply (evolves_wf []); [apply updateControllersState_evolves|].
  apply reloadControllerInformation_wf.
Qed.



(** Witness of X11: scenario D. *)
Lemma selectControllers_fails_iff_no_cover_witness :
  let R := scenario_D_registry false false in
  registry_wf R ∧
  ((selectControllers true insertion_sort true scenario_D_clock
      (scenario_D_reports false false) four_joints ["A"; "B"; "C"]
      (R, 0)).1 = None
   ↔ ∀ S', S' `sublist_of` ["A"; "B"; "C"] → pairwise_disjoint R S' →
           covers R four_joints S' → S' = []).
Proof.
  intros R. split; [exact (scenario_D_registry_wf false false)|].
  exact (selectControllers_fails_iff_no_cover true insertion_sort true
           scenario_D_clock (scenario_D_reports false false)
           four_joints ["A"; "B"; "C"] R 0
           (scenario_D_registry_wf false false)).
Defined.

Lemma scenario_D_same_joints c :
  joints_ (known (scenario_D_registry true false) c)
  = joints_ (known scenario_D_loaded c) ∧
  overlapping_controllers_ (known (scenario_D_registry true false) c)
  = overlapping_controllers_ (known scenario_D_loaded c).
Proof.
  pose proof (updateControllersState_evolves true scenario_D_clock
                (scenario_D_reports true false) [] default_age
                (scenario_D_loaded, 0)) as (Hs & _).
  destruct (Hs c) as [H1 H2]. simpl in H1, H2. by split.
Qed.

(** Witness of X12: scenario D with A and B cached as active and not
    managed, against the registry that was just loaded, managed, and with a
    controller manager that reports C active. *)
Lemma selectControllers_success_ignores_states_witness :
  (∀ c,
     joints_ (known (scenario_D_registry true false) c)
     = joints_ (known scenario_D_loaded c) ∧
     overlapping_controllers_ (known (scenario_D_registry true false) c)
     = overlapping_controllers_ (known scenario_D_loaded c)) ∧
  ((selectControllers false insertion_sort true scenario_D_clock
      (scenario_D_reports true false) four_joints ["A"; "B"; "C"]
      (scenario_D_registry true false, 0)).1 = None ↔
   (selectControllers true insertion_sort true scenario_D_clock
      (scenario_D_reports false true) four_joints ["A"; "B"; "C"]
      (scenario_D_loaded, 5)).1 = None).
Proof.
  split; [exact scenario_D_same_joints|].
  exact (selectControllers_success_ignores_states
           (scenario_D_registry true false) scenario_D_loaded
           false true insertion_sort insertion_sort true true
           scenario_D_clock scenario_D_clock
           (scenario_D_reports true false) (scenario_D_reports false true)
           0 5 four_joints ["A"; "B"; "C"] scenario_D_same_joints).
Defined.

Lemma insert_sorted_elem lt x l y :
  y ∈ insert_sorted lt x l → y = x ∨ y ∈ l.
Proof.
  intros Hy. rewrite insert_sorted_perm in Hy.
  by apply elem_of_cons in Hy.
Qed.

Lemma insert_sorted_sorted lt x l :
  strict_weak lt →
  StronglySorted (λ a b, lt b a = false) l →
  StronglySorted (λ a b, lt b a = false) (insert_sorted lt x l).
Proof.
  intros [Hasym Hneg]. induction 1 as [|y l Hl IH Hy]; simpl.
  - repeat constructor.
  - rewrite Forall_forall in Hy. destruct (lt x y) eqn:Hxy.
    + constructor; [by constructor; [|apply Forall_forall]|].
      constructor; [by apply Hasym|].
      apply Forall_forall. intros z Hz.
      apply (Hneg z y x); [by apply Hy|by apply Hasym].
    + constructor; [done|]. apply Forall_forall. intros z Hz.
      apply insert_sorted_elem in Hz as [->|Hz]; [done|by apply Hy].
Qed.

Lemma insertion_sort_sorted lt l :
  strict_weak lt →
  StronglySorted (λ a b, lt b a = false) (insertion_sort lt l).
Proof.
  intros Hsw. induction l as [|x l IH]; simpl; [constructor|].
  by apply insert_sorted_sorted.
Qed.

Lemma scenario_D_first_arm :
  (findControllers true insertion_sort true scenario_D_clock
     (scenario_D_reports false false) first_arm 1 ["A"; "B"; "C"]
     (scenario_D_registry false false, 0)).1 = Some ["A"].
Proof. by vm_compute. Qed.

(** Witness of X13: for j1 and j2 in scenario D, A and C are the options
    of size one; A is a default controller, C is not. *)
Lemma findControllers_returns_best_ranked_witness :
  let R := scenario_D_registry false false in
  let run := findControllers true insertion_sort true scenario_D_clock
               (scenario_D_reports false false) first_arm 1
               ["A"; "B"; "C"] (R, 0) in
  run.1 = Some ["A"] ∧
  (true = true ∨ all_active run.2.1 ["A"] = false →
   ∀ S', S' ∈ options R first_arm 1 ["A"; "B"; "C"] →
         not_ranked_after R ["A"] S') ∧
  (true = true → run.2.2 = 0).
Proof.
  intros R run. split; [exact scenario_D_first_arm|].
  exact (findControllers_returns_best_ranked true insertion_sort true
           scenario_D_clock (scenario_D_reports false false)
           insertion_sort_perm insertion_sort_sorted first_arm 1
           ["A"; "B"; "C"] R 0 ["A"] scenario_D_first_arm).
Defined.

(** ** Trajectories and their distribution over controllers *)

Local Open Scope Q_scope.

Definition Pose := list Q.

Record JointTrajectoryPoint := mkPoint {
  positions : list Q;
  velocities : list Q;
  accelerations : list Q;
  time_from_start : Q
}.

(** [header_stamp] is the time stamp of the message header, in seconds. *)
Record JointTrajectory := mkJT {
  header_stamp : Q;
  joint_names : list string;
  points : list JointTrajectoryPoint
}.

Record MultiDOFJointTrajectoryPoint := mkMPoint {
  poses : list Pose;
  m_time_from_start : Q
}.

Record MultiDOFJointTrajectory := mkMT {
  m_header_stamp : Q;
  m_joint_names : list string;
  frame_ids : list string;
  child_frame_ids : list string;
  m_points : list MultiDOFJointTrajectoryPoint
}.

Record RobotTrajectory := mkRT {
  joint_trajectory : JointTrajectory;
  multi_dof_joint_trajectory : MultiDOFJointTrajectory
}.

(** Default-constructed messages, as [parts.resize] leaves them. *)
Definition empty_JT : JointTrajectory := mkJT 0 [] [].
Definition empty_MT : MultiDOFJointTrajectory := mkMT 0 [] [] [] [].

(** [std::set_intersection] of two sets of names: the common names in
    increasing order. *)
Definition set_intersection (a b : gset string) : list string :=
  merge_sort string_le (elements (a ∩ b)).

(** The map [index] from a joint name to its place in the trajectory, filled
    by assignment from the first name to the last. *)
Definition index_of_names (names : list string) : gmap string nat :=
  foldl (λ m jn, <[jn.2 := jn.1]> m) ∅ (imap (λ j n, (j, n)) names).

Definition bijection_of (names jnames : list string) : list nat :=
  (λ n, default 0%nat (index_of_names names !! n)) <$> jnames.

(** The values of the selected joints; reading past the end of the input is
    undefined in the source and yields the default value here. *)
Definition project {A} (d : A) (bijection : list nat) (values : list A)
    : list A :=
  (λ b, default d (values !! b)) <$> bijection.

Definition project_nonempty (bijection : list nat) (values : list Q)
    : list Q :=
  match values with
  | [] => []
  | _ => project 0 bijection values
  end.

Definition distribute_point (bijection : list nat) (p : JointTrajectoryPoint)
    : JointTrajectoryPoint :=
  mkPoint (project_nonempty bijection (positions p))
          (project_nonempty bijection (velocities p))
          (project_nonempty bijection (accelerations p))
          (time_from_start p).

Definition distribute_single (ci : ControllerInformation)
    (t : JointTrajectory) : JointTrajectory :=
  match set_intersection (joints_ ci) (list_to_set (joint_names t)) with
  | [] => empty_JT
  | jnames =>
      let bijection := bijection_of (joint_names t) jnames in
      mkJT (header_stamp t) jnames (distribute_point bijection <$> points t)
  end.

Definition distribute_mdof (ci : ControllerInformation)
    (t : MultiDOFJointTrajectory) : MultiDOFJointTrajectory :=
  match set_intersection (joints_ ci) (list_to_set (m_joint_names t)) with
  | [] => empty_MT
  | jnames =>
      let bijection := bijection_of (m_joint_names t) jnames in
      mkMT 0 jnames
        (project EmptyString bijection (frame_ids t))
        (project EmptyString bijection (child_frame_ids t))
        ((λ p, mkMPoint (project [] bijection (poses p))
                 (m_time_from_start p)) <$> m_points t)
  end.

(** [distributeTrajectory]: one part per controller, or failure on a
    controller that is not in the registry. *)
Definition distributeTrajectory (R : gmap string ControllerInformation)
    (trajectory : RobotTrajectory) (controllers : list string)
    : option (list RobotTrajectory) :=
  mapM (λ c, match R !! c with
             | None => None
             | Some ci =>
                 Some (mkRT (distribute_single ci (joint_trajectory trajectory))
                         (distribute_mdof ci
                            (multi_dof_joint_trajectory trajectory)))
             end) controllers.

Lemma set_intersection_nil a b : set_intersection a b = [] ↔ a ∩ b = ∅.
Proof.
  unfold set_intersection. split.
  - intros H. apply leibniz_equiv, elements_empty_inv.
    apply Permutation_nil_r. rewrite <- H. by rewrite merge_sort_Permutation.
  - intros ->. rewrite elements_empty. done.
Qed.

(** C9.  When every selected controller is in the registry the split
    succeeds and yields one part per controller.  The part of a controller
    whose joints meet the joint names of the trajectory has one point per
    point of the trajectory, each with the time from start of the point at
    the same place; the part of a controller whose joints do not meet them
    is empty.  The same holds of the multi-DOF trajectory. *)
Theorem distributeTrajectory_keeps_points_and_times R trajectory controllers :
  (∀ c, c ∈ controllers → is_Some (R !! c)) →
  ∃ parts,
    distributeTrajectory R trajectory controllers = Some parts ∧
    length parts = length controllers ∧
    ∀ i c ci, controllers !! i = Some c → R !! c = Some ci →
      ∃ part, parts !! i = Some part ∧
        let single := joint_trajectory trajectory in
        let mdof := multi_dof_joint_trajectory trajectory in
        (joints_ ci ∩ list_to_set (joint_names single) ≠ ∅ →
           length (points (joint_trajectory part)) = length (points single) ∧
           ∀ j p, points (joint_trajectory part) !! j = Some p →
             ∃ q, points single !! j = Some q ∧
                  time_from_start p = time_from_start q) ∧
        (joints_ ci ∩ list_to_set (joint_names single) = ∅ →
           joint_trajectory part = empty_JT) ∧
        (joints_ ci ∩ list_to_set (m_joint_names mdof) ≠ ∅ →
           length (m_points (multi_dof_joint_trajectory part))
           = length (m_points mdof) ∧
           ∀ j p, m_points (multi_dof_joint_trajectory part) !! j = Some p →
             ∃ q, m_points mdof !! j = Some q ∧
                  m_time_from_start p = m_time_from_start q) ∧
        (joints_ ci ∩ list_to_set (m_joint_names mdof) = ∅ →
           multi_dof_joint_trajectory part = empty_MT).
Proof.
  intros Hknown.
  destruct (distributeTrajectory R trajectory controllers) as [parts|] eqn:E.
  2:{ exfalso. unfold distributeTrajectory in E.
      assert (Hs : is_Some (mapM (λ c, match R !! c with
                 | None => None
                 | Some ci =>
                     Some (mkRT (distribute_single ci
                                   (joint_trajectory trajectory))
                             (distribute_mdof ci
                                (multi_dof_joint_trajectory trajectory)))
                 end) controllers)).
      { apply mapM_is_Some. apply Forall_forall. intros c Hc.
        destruct (Hknown c Hc) as [ci Hci]. simpl. rewrite Hci. done. }
      rewrite E in Hs. by destruct Hs. }
  exists parts. unfold distributeTrajectory in E. apply mapM_Some in E.
  split_and!; [done|symmetry; by eapply Forall2_length|].
  intros i c ci Hi Hc.
  destruct (Forall2_lookup_l _ _ _ _ _ E Hi) as (part & Hpart & Hdef).
  rewrite Hc in Hdef. simplify_eq. eexists. split; [done|]. simpl.
  split_and!.
  - intros Hne. unfold distribute_single.
    destruct (set_intersection _ _) as [|n jnames] eqn:Hint.
    { apply set_intersection_nil in Hint. done. }
    simpl. rewrite length_fmap. split; [done|].
    intros j p Hj. apply list_lookup_fmap_Some in Hj as (q & -> & Hq).
    exists q. done.
  - intros Hemp. unfold distribute_single.
    apply set_intersection_nil in Hemp. by rewrite Hemp.
  - intros Hne. unfold distribute_mdof.
    destruct (set_intersection _ _) as [|n jnames] eqn:Hint.
    { apply set_intersection_nil in Hint. done. }
    simpl. rewrite length_fmap. split; [done|].
    intros j p Hj. apply list_lookup_fmap_Some in Hj as (q & -> & Hq).
    exists q. done.
  - intros Hemp. unfold distribute_mdof.
    apply set_intersection_nil in Hemp. by rewrite Hemp.
Qed.

(** ** Execution *)

Inductive ExecutionStatus :=
| UNKNOWN | RUNNING | SUCCEEDED | PREEMPTED | TIMED_OUT | ABORTED | FAILED.

#[local] Instance ExecutionStatus_eq_dec : EqDecision ExecutionStatus.
Proof. solve_decision. Defined.

Record TrajectoryExecutionContext := mkContext {
  controllers_ : list string;
  trajectory_parts_ : list RobotTrajectory
}.

(** The calls that leave the manager: to a controller handle, named by its
    controller, to the waiters on the completion condition and to the
    completion callback. *)
Inductive Call :=
| SendTrajectory (handle : string) (part : RobotTrajectory)
| CancelExecution (handle : string)
| WaitForExecution (handle : string) (timeout : Q)
| NotifyAll
| CompletionCallback (status : ExecutionStatus).

(** The members of the manager that execution reads and writes, and the
    calls made so far, oldest first.  The time index serves concurrent
    observers only and is left out.  [self_join_] is not a member of the
    class: it belongs to the worker thread and records that the worker has
    called [join] on its own thread, a call from which it does not
    return. *)
Record Manager := mkManager {
  execution_complete_ : bool;
  last_execution_status_ : ExecutionStatus;
  trajectories_ : list TrajectoryExecutionContext;
  active_handles_ : list string;
  current_context_ : Z;
  calls : list Call;
  self_join_ : bool
}.

Definition set_status (st : ExecutionStatus) (m : Manager) : Manager :=
  mkManager (execution_complete_ m) st (trajectories_ m) (active_handles_ m)
            (current_context_ m) (calls m) (self_join_ m).

Definition set_complete (b : bool) (m : Manager) : Manager :=
  mkManager b (last_execution_status_ m) (trajectories_ m) (active_handles_ m)
            (current_context_ m) (calls m) (self_join_ m).

Definition set_handles (hs : list string) (ctx : Z) (m : Manager) : Manager :=
  mkManager (execution_complete_ m) (last_execution_status_ m)
            (trajectories_ m) hs ctx (calls m) (self_join_ m).

Definition log (cs : list Call) (m : Manager) : Manager :=
  mkManager (execution_complete_ m) (last_execution_status_ m)
            (trajectories_ m) (active_handles_ m) (current_context_ m)
            (calls m ++ cs) (self_join_ m).

Definition set_self_join (b : bool) (m : Manager) : Manager :=
  mkManager (execution_complete_ m) (last_execution_status_ m)
            (trajectories_ m) (active_handles_ m) (current_context_ m)
            (calls m) b.

(** [clear]. *)
Definition clear (m : Manager) : Manager :=
  mkManager (execution_complete_ m) (last_execution_status_ m) []
            (active_handles_ m) (current_context_ m) (calls m)
            (self_join_ m).

(** What the worker sees when [waitForExecution] on a handle returns:
    whether the handle finished in time, whether a stop request of another
    thread landed in the meantime, the time elapsed since the parts were
    sent, and the status the handle reports. *)
Record WaitObservation := mkObs {
  wait_ok : bool;
  stop_requested : bool;
  elapsed : Q;
  handle_status : ExecutionStatus
}.

(** The thread that makes a call: the worker thread, which runs
    [executeThread], or any other. *)
Inductive Thread := worker_thread | other_thread.

(** [stopExecution].  When execution is not complete it is marked
    complete, every active handle is cancelled and PREEMPTED is recorded;
    then, in both branches, the worker thread is joined.  Called by another
    thread, the join returns once the worker has ended and changes nothing
    that the worker reads; the clearing of the queue that [auto_clear] asks
    for comes after it, that is after the run of the worker.  Called by the
    worker itself, as [executePart] does, the join waits for the end of the
    thread that makes it: it does not return (or leaves the thread function
    by an exception of the thread library), and nothing that follows it in
    the worker is run. *)
Definition stopExecution (caller : Thread) (m : Manager) : Manager :=
  let m' :=
    if execution_complete_ m then m
    else set_status PREEMPTED
           (log (CancelExecution <$> active_handles_ m)
              (set_complete true m)) in
  match caller with
  | worker_thread => set_self_join true m'
  | other_thread => m'
  end.

(** The part of [executePart] that computes the expected duration: the
    duration of one part, the maximum over the parts, and the budget. *)
Definition last_time_from_start (t : JointTrajectory) : Q :=
  match last (points t) with
  | Some p => time_from_start p
  | None => 0
  end.

Definition m_last_time_from_start (t : MultiDOFJointTrajectory) : Q :=
  match last (m_points t) with
  | Some p => m_time_from_start p
  | None => 0
  end.

Definition part_duration (current_time : Q) (part : RobotTrajectory) : Q :=
  let jt := joint_trajectory part in
  let mt := multi_dof_joint_trajectory part in
  match points jt with
  | [] => 0
  | _ =>
      let d0 :=
        if Qltb current_time (header_stamp jt)
        then header_stamp jt - current_time else 0 in
      let d1 :=
        if Qltb current_time (m_header_stamp mt)
        then Qmax' d0 (m_header_stamp mt - current_time) else d0 in
      d1 + Qmax' (last_time_from_start jt) (m_last_time_from_start mt)
  end.

Definition longest_duration (current_time : Q) (parts : list RobotTrajectory)
    : Q :=
  foldl (λ expected part, Qmax' (part_duration current_time part) expected)
    0 parts.

Definition expected_trajectory_duration (current_time : Q)
    (parts : list RobotTrajectory) : Q :=
  longest_duration current_time parts * (11 # 10) + (1 # 2).

(** The budget as the claim words it: for each part the larger of the
    positive start offset and the time from start of the last point, the
    maximum over the parts, scaled by 1.1 and padded by 0.5 s. *)
Definition claimed_part_duration (current_time : Q) (part : RobotTrajectory)
    : Q :=
  let jt := joint_trajectory part in
  Qmax' (if Qltb current_time (header_stamp jt)
         then header_stamp jt - current_time else 0)
        (last_time_from_start jt).

Definition claimed_budget (current_time : Q) (parts : list RobotTrajectory)
    : Q :=
  foldl (λ expected part,
           Qmax' (claimed_part_duration current_time part) expected) 0 parts
  * (11 # 10) + (1 # 2).

(** The budget as the amended claim words it.  The start offset of a part
    is the larger of the positive parts of its two header stamps minus the
    current time, its running time the larger of the times from start of
    the last joint point and of the last multi-DOF point; the duration of a
    part with joint points is the SUM of the two, that of a part without is
    0; the budget is the maximum over the parts, scaled by 1.1 and padded by
    0.5 s. *)
Definition positive_part (q : Q) : Q := if Qltb 0 q then q else 0.

Definition amended_part_duration (current_time : Q) (part : RobotTrajectory)
    : Q :=
  let jt := joint_trajectory part in
  let mt := multi_dof_joint_trajectory part in
  match points jt with
  | [] => 0
  | _ =>
      Qmax' (positive_part (header_stamp jt - current_time))
            (positive_part (m_header_stamp mt - current_time))
      + Qmax' (last_time_from_start jt) (m_last_time_from_start mt)
  end.

Definition amended_budget (current_time : Q) (parts : list RobotTrajectory)
    : Q :=
  foldr (λ part longest,
           Qmax' (amended_part_duration current_time part) longest) 0 parts
  * (11 # 10) + (1 # 2).

Section Execution.

(** The collaborators of one run of the worker: the outcome of
    [ensureActiveControllers] on the controllers of a context, whether the
    handle accepts the part sent to it (a thrown exception counts as a
    refusal), the clock read after the parts of a context are sent, and
    what each wait observes.  Contexts and parts are named by their
    index. *)
Variable ensureActiveControllers : list string → bool.
Variable send_ok : nat → nat → bool.
Variable now : nat → Q.
Variable observe : nat → nat → WaitObservation.

(** The loop that sends the parts of context [ctx], from part [i] on: the
    index of the part that was refused, if one was, and the calls made. *)
Fixpoint send_loop (ctx i : nat) (hp : list (string * RobotTrajectory))
    : option nat * list Call :=
  match hp with
  | [] => (None, [])
  | (h, p) :: rest =>
      if send_ok ctx i then
        let '(r, cs) := send_loop ctx (S i) rest in
        (r, SendTrajectory h p :: cs)
      else (Some i, [SendTrajectory h p])
  end.

(** The loop that waits on the handles of context [ctx], from handle [i]
    on; [result] is the flag the loop maintains.  A stop request that lands
    during a wait is the [stopExecution] of another thread.  When a wait
    fails after more than the budget, the worker calls [stopExecution]
    itself: it is left in the join of its own thread, so that the
    assignment of TIMED_OUT that follows the call in the source is not
    reached, and the loop has no result ([None]). *)
Fixpoint wait_loop (ctx i : nat) (budget : Q) (handles : list string)
    (m : Manager) (result : bool) : Manager * option bool :=
  match handles with
  | [] => (m, Some result)
  | h :: rest =>
      let o := observe ctx i in
      let m1 := log [WaitForExecution h budget] m in
      let m2 :=
        if stop_requested o then stopExecution other_thread m1 else m1 in
      if negb (wait_ok o) && negb (execution_complete_ m2)
         && Qltb budget (elapsed o)
      then (stopExecution worker_thread m2, None)
      else if execution_complete_ m2 then (m2, Some false)
      else if bool_decide (handle_status o ≠ SUCCEEDED)
      then wait_loop ctx (S i) budget rest
             (set_status (handle_status o) m2) false
      else wait_loop ctx (S i) budget rest m2 result
  end.

(** [executePart].  When the wait loop leaves the worker in its own join,
    the call does not return: the pair then holds false and the state at
    the join, in which the active handles are not cleared. *)
Definition executePart (m : Manager) (part_index : nat) : bool * Manager :=
  match trajectories_ m !! part_index with
  | None => (false, m)
  | Some context =>
      if ensureActiveControllers (controllers_ context) then
        if execution_complete_ m then (false, m)
        else
          let handles := controllers_ context in
          let m1 := set_handles handles (Z.of_nat part_index) m in
          match send_loop part_index 0
                  (zip handles (trajectory_parts_ context)) with
          | (Some i, cs) =>
              (false,
               set_status ABORTED
                 (set_handles [] (-1)%Z
                    (log (cs ++ (CancelExecution <$> take i handles)) m1)))
          | (None, cs) =>
              let budget :=
                expected_trajectory_duration (now part_index)
                  (trajectory_parts_ context) in
              match wait_loop part_index 0 budget handles (log cs m1) true
              with
              | (m2, Some result) => (result, set_handles [] (-1)%Z m2)
              | (m2, None) => (false, m2)
              end
          end
      else (false, m)
  end.

(** The loop of [executeThread] over the queued contexts. *)
Fixpoint execute_loop (m : Manager) (indices : list nat) : Manager :=
  match indices with
  | [] => m
  | i :: rest =>
      let '(ok, m') := executePart m i in
      if negb ok || execution_complete_ m' then m'
      else execute_loop m' rest
  end.

(** [executeThread], the run of a new worker thread: a worker is started
    only after the one before it was joined, so that it starts outside any
    join.  A worker that is left in its own join runs nothing of what
    follows the loop. *)
Definition executeThread (m : Manager) (callback auto_clear : bool)
    : Manager :=
  let m0 := set_self_join false m in
  if execution_complete_ m0 then set_status ABORTED m0
  else
    let m1 := set_status SUCCEEDED m0 in
    let m2 := execute_loop m1 (seq 0 (length (trajectories_ m1))) in
    if self_join_ m2 then m2
    else
      let m3 := if auto_clear then clear m2 else m2 in
      let m4 := log [NotifyAll] (set_complete true m3) in
      if callback then log [CompletionCallback (last_execution_status_ m4)] m4
      else m4.

(** *** Sending the parts *)

Lemma send_loop_all_ok ctx (hp : list (string * RobotTrajectory)) : ∀ start,
  (∀ j, (j < length hp)%nat → send_ok ctx (start + j) = true) →
  send_loop ctx start hp
  = (None, (λ x, SendTrajectory x.1 x.2) <$> hp).
Proof.
  induction hp as [|[h p] rest IH]; intros start Hok; simpl; [done|].
  rewrite <- (Nat.add_0_r start) at 1. rewrite (Hok 0%nat) by (simpl; lia).
  rewrite (IH (S start)); [done|].
  intros j Hj. replace (S start + j)%nat with (start + S j)%nat by lia.
  apply Hok. simpl. lia.
Qed.

Lemma send_loop_refused ctx (hp : list (string * RobotTrajectory)) :
  ∀ start i,
  (i < length hp)%nat →
  (∀ j, (j < i)%nat → send_ok ctx (start + j) = true) →
  send_ok ctx (start + i) = false →
  send_loop ctx start hp
  = (Some (start + i)%nat, (λ x, SendTrajectory x.1 x.2) <$> take (S i) hp).
Proof.
  induction hp as [|[h p] rest IH]; intros start i Hlen Hok Hno; simpl in *;
    [lia|].
  destruct i as [|i].
  - rewrite Nat.add_0_r in *. rewrite Hno. by rewrite take_0.
  - rewrite <- (Nat.add_0_r start) at 1. rewrite (Hok 0%nat) by lia.
    rewrite (IH (S start) i).
    + simpl. do 2 f_equal. lia.
    + lia.
    + intros j Hj. replace (S start + j)%nat with (start + S j)%nat by lia.
      apply Hok. lia.
    + by replace (S start + i)%nat with (start + S i)%nat by lia.
Qed.

Lemma sends_of_zip (hs : list string) (ps : list RobotTrajectory) :
  (λ x, SendTrajectory x.1 x.2) <$> zip hs ps = zip_with SendTrajectory hs ps.
Proof.
  revert ps. induction hs as [|h hs IH]; intros [|p ps]; simpl; try done.
  by rewrite <- IH.
Qed.

(** C8.  When the handle refuses part [i] of a context after accepting the
    parts before it, [executePart] returns false; the calls it made are the
    sends of parts 0 to [i], in order, followed by the cancellations of the
    handles of parts 0 to [i]-1, in order, and nothing else; the list of
    active handles is empty and the status is ABORTED. *)
Theorem executePart_send_refused m part_index context i :
  trajectories_ m !! part_index = Some context →
  ensureActiveControllers (controllers_ context) = true →
  execution_complete_ m = false →
  length (controllers_ context) = length (trajectory_parts_ context) →
  (i < length (trajectory_parts_ context))%nat →
  (∀ j, (j < i)%nat → send_ok part_index j = true) →
  send_ok part_index i = false →
  let r := executePart m part_index in
  r.1 = false ∧
  calls r.2 =
    calls m
    ++ zip_with SendTrajectory (take (S i) (controllers_ context))
         (take (S i) (trajectory_parts_ context))
    ++ (CancelExecution <$> take i (controllers_ context)) ∧
  active_handles_ r.2 = [] ∧
  last_execution_status_ r.2 = ABORTED ∧
  trajectories_ r.2 = trajectories_ m.
Proof.
  intros Hctx Hens Hrun Hlen Hi Hok Hno. unfold executePart.
  rewrite Hctx, Hens, Hrun.
  rewrite (send_loop_refused part_index _ 0%nat i); simpl; try done.
  - split_and!; try done. do 2 f_equal.
    rewrite <- sends_of_zip. f_equal.
    apply (zip_with_take pair).
  - rewrite length_zip_with. lia.
Qed.

(** *** The worker started after a stop request *)

(** C10.  When the completion flag is already set as the worker starts,
    the worker records ABORTED, whatever the status was, and returns: it
    makes no call, so the completion callback is not invoked and nobody is
    notified, and it leaves the queue as it is, also with [auto_clear]. *)
Theorem executeThread_started_complete m callback auto_clear :
  execution_complete_ m = true →
  let m' := executeThread m callback auto_clear in
  last_execution_status_ m' = ABORTED ∧
  calls m' = calls m ∧
  trajectories_ m' = trajectories_ m ∧
  execution_complete_ m' = true ∧
  active_handles_ m' = active_handles_ m.
Proof.
  intros Hc. unfold executeThread. simpl. rewrite Hc. simpl. done.
Qed.

(** *** The expected duration and the timeout *)

Lemma longest_duration_fold current_time parts : ∀ acc,
  let E := foldl (λ expected part,
                    Qmax' (part_duration current_time part) expected)
             acc parts in
  acc <= E ∧
  Forall (λ p, part_duration current_time p <= E) parts ∧
  (E = acc ∨ ∃ p, p ∈ parts ∧ E = part_duration current_time p).
Proof.
  induction parts as [|p parts IH]; intros acc; simpl.
  - split_and!; [apply Qle_refl|constructor|by left].
  - destruct (IH (Qmax' (part_duration current_time p) acc))
      as (Hacc & Hall & Hcase).
    split_and!.
    + eapply Qle_trans; [apply Qmax'_ge_r|exact Hacc].
    + constructor; [|done].
      eapply Qle_trans; [apply Qmax'_ge_l|exact Hacc].
    + destruct Hcase as [He|(q & Hq & He)].
      * rewrite He.
        destruct (Qmax'_cases (part_duration current_time p) acc) as [Hm|Hm];
          rewrite Hm.
        -- right. exists p. split; [apply elem_of_cons; by left|done].
        -- by left.
      * right. exists q. split; [apply elem_of_cons; by right|done].
Qed.

(** The duration of a part is at least the start offset of its header plus
    the time from start of its last point. *)
Lemma part_duration_sum current_time part :
  points (joint_trajectory part) ≠ [] →
  (header_stamp (joint_trajectory part) - current_time)
  + last_time_from_start (joint_trajectory part)
  <= part_duration current_time part.
Proof.
  intros Hne. unfold part_duration. cbv zeta.
  destruct (points (joint_trajectory part)) as [|p0 ps] eqn:Hp; [done|].
  cbv iota. clear Hp Hne.
  set (jt := joint_trajectory part). set (mt := multi_dof_joint_trajectory part).
  pose proof (Qmax'_ge_l (last_time_from_start jt) (m_last_time_from_start mt))
    as Hlast.
  set (d0 := if Qltb current_time (header_stamp jt)
             then header_stamp jt - current_time else 0).
  assert (Hd0 : header_stamp jt - current_time <= d0).
  { unfold d0. destruct (Qltb _ _) eqn:E; [apply Qle_refl|].
    apply Qltb_ge in E. lra. }
  assert (Hd1 : d0 <= (if Qltb current_time (m_header_stamp mt)
                       then Qmax' d0 (m_header_stamp mt - current_time)
                       else d0)).
  { destruct (Qltb current_time (m_header_stamp mt));
      [apply Qmax'_ge_l|apply Qle_refl]. }
  generalize dependent (Qmax' (last_time_from_start jt)
                          (m_last_time_from_start mt)).
  intros q Hq.
  generalize dependent (if Qltb current_time (m_header_stamp mt)
                        then Qmax' d0 (m_header_stamp mt - current_time)
                        else d0).
  intros d1 Hd1. lra.
Qed.

(** For a part without multi-DOF points, whose multi-DOF header is not in
    the future and whose last point is not before the start, the duration is
    exactly the positive part of the start offset plus the time from start
    of the last point. *)
Lemma part_duration_single current_time part :
  points (joint_trajectory part) ≠ [] →
  m_points (multi_dof_joint_trajectory part) = [] →
  m_header_stamp (multi_dof_joint_trajectory part) <= current_time →
  0 <= last_time_from_start (joint_trajectory part) →
  part_duration current_time part
  = (if Qltb current_time (header_stamp (joint_trajectory part))
     then header_stamp (joint_trajectory part) - current_time else 0)
    + last_time_from_start (joint_trajectory part).
Proof.
  intros Hne Hm Hstamp Hlast. unfold part_duration. cbv zeta.
  destruct (points (joint_trajectory part)) as [|p0 ps] eqn:Hp; [done|].
  cbv iota. apply Qltb_ge in Hstamp. rewrite Hstamp.
  unfold m_last_time_from_start. rewrite Hm. simpl.
  unfold Qmax'. apply Qltb_ge in Hlast. by rewrite Hlast.
Qed.

Lemma execute_loop_stops m i rest :
  (executePart m i).1 = false →
  execute_loop m (i :: rest) = (executePart m i).2.
Proof.
  intros H. simpl. destruct (executePart m i) as [ok m']. simpl in *.
  by rewrite H.
Qed.

(** *** Waiting on the handles without a stop request or a timeout *)

(** The statuses that the handles [start], ..., [start + n - 1] of context
    [ctx] report after the wait, and those of them that are not SUCCEEDED. *)
Definition reported (ctx start n : nat) : list ExecutionStatus :=
  (λ j, handle_status (observe ctx j)) <$> seq start n.

Definition failures (l : list ExecutionStatus) : list ExecutionStatus :=
  filter (λ s, s ≠ SUCCEEDED) l.

(** The wait on handle [j] of context [ctx] is quiet when no stop request
    lands during it and it does not run over the budget. *)
Definition quiet (ctx : nat) (budget : Q) (j : nat) : Prop :=
  stop_requested (observe ctx j) = false ∧
  (wait_ok (observe ctx j) = true ∨ elapsed (observe ctx j) <= budget).

(** The calls of the worker for one context whose parts are all accepted
    and whose waits are all quiet, and for a queue of such contexts. *)
Definition context_calls (i : nat) (c : TrajectoryExecutionContext)
    : list Call :=
  zip_with SendTrajectory (controllers_ c) (trajectory_parts_ c)
  ++ ((λ h, WaitForExecution h
              (expected_trajectory_duration (now i) (trajectory_parts_ c)))
        <$> controllers_ c).

Fixpoint queue_calls (i : nat) (q : list TrajectoryExecutionContext)
    : list Call :=
  match q with
  | [] => []
  | c :: q' => context_calls i c ++ queue_calls (S i) q'
  end.

Lemma stopExecution_running m :
  execution_complete_ m = false →
  stopExecution other_thread m
  = set_status PREEMPTED
      (log (CancelExecution <$> active_handles_ m) (set_complete true m)).
Proof. intros H. unfold stopExecution. by rewrite H. Qed.

Lemma last_cons_default {A} (d x : A) (l : list A) :
  default d (last (x :: l)) = default x (last l).
Proof.
  destruct l as [|y l]; [done|].
  change (last (x :: y :: l)) with (last (y :: l)).
  destruct (proj2 (last_is_Some (y :: l)) ltac:(done)) as [z Hz].
  by rewrite Hz.
Qed.

Lemma failures_cons_failed st l :
  st ≠ SUCCEEDED → failures (st :: l) = st :: failures l.
Proof. intros H. unfold failures. by rewrite filter_cons_True. Qed.

Lemma failures_cons_succeeded l : failures (SUCCEEDED :: l) = failures l.
Proof. unfold failures. rewrite filter_cons_False; [done|]. by intros H. Qed.

Lemma failures_none ctx n : ∀ start,
  (∀ j, (j < n)%nat → handle_status (observe ctx (start + j)) = SUCCEEDED) →
  failures (reported ctx start n) = [].
Proof.
  induction n as [|n IH]; intros start H; [done|].
  change (reported ctx start (S n))
    with (handle_status (observe ctx start) :: reported ctx (S start) n).
  pose proof (H 0%nat ltac:(lia)) as H0. rewrite Nat.add_0_r in H0.
  rewrite H0, failures_cons_succeeded. apply IH.
  intros j Hj. replace (S start + j)%nat with (start + S j)%nat by lia.
  apply H. lia.
Qed.

Lemma wait_loop_quiet ctx budget : ∀ pre start m result rest,
  execution_complete_ m = false →
  (∀ j, (j < length pre)%nat → quiet ctx budget (start + j)) →
  wait_loop ctx start budget (pre ++ rest) m result
  = wait_loop ctx (start + length pre) budget rest
      (set_status
         (default (last_execution_status_ m)
            (last (failures (reported ctx start (length pre)))))
         (log ((λ h, WaitForExecution h budget) <$> pre) m))
      (result && bool_decide (failures (reported ctx start (length pre)) = [])).
Proof.
  induction pre as [|h pre IH]; intros start m result rest Hrun Hq.
  - simpl. rewrite Nat.add_0_r, andb_true_r. f_equal.
    destruct m. unfold set_status, log. simpl. by rewrite app_nil_r.
  - destruct (Hq 0%nat ltac:(simpl; lia)) as [Hs Hw].
    rewrite Nat.add_0_r in Hs, Hw.
    change ((h :: pre) ++ rest) with (h :: (pre ++ rest)).
    cbn [wait_loop]. rewrite Hs.
    assert (Hno : negb (wait_ok (observe ctx start))
                  && negb (execution_complete_
                             (log [WaitForExecution h budget] m))
                  && Qltb budget (elapsed (observe ctx start)) = false).
    { destruct Hw as [Hw|Hw].
      - by rewrite Hw.
      - apply Qltb_ge in Hw. rewrite Hw. by rewrite andb_false_r. }
    rewrite Hno. simpl execution_complete_. rewrite Hrun.
    assert (Hq' : ∀ j, (j < length pre)%nat → quiet ctx budget (S start + j)).
    { intros j Hj. replace (S start + j)%nat with (start + S j)%nat by lia.
      apply Hq. simpl. lia. }
    change (reported ctx start (length (h :: pre)))
      with (handle_status (observe ctx start)
            :: reported ctx (S start) (length pre)).
    replace (start + length (h :: pre))%nat
      with (S start + length pre)%nat by (simpl; lia).
    destruct (decide (handle_status (observe ctx start) = SUCCEEDED))
      as [Heq|Hne].
    + rewrite bool_decide_eq_false_2 by (by intros H).
      rewrite Heq, failures_cons_succeeded.
      rewrite (IH (S start)) by done.
      f_equal. unfold set_status, log. simpl. f_equal.
      by rewrite <- app_assoc.
    + rewrite bool_decide_eq_true_2 by done.
      rewrite (failures_cons_failed _ _ Hne).
      rewrite (IH (S start)) by done.
      rewrite last_cons_default. rewrite andb_false_r. simpl andb.
      f_equal. unfold set_status, log. simpl. f_equal.
      by rewrite <- app_assoc.
Qed.

(** [executePart] on a context whose parts are all accepted and whose waits
    are all quiet. *)
Lemma executePart_quiet m part_index context :
  trajectories_ m !! part_index = Some context →
  ensureActiveControllers (controllers_ context) = true →
  execution_complete_ m = false →
  (∀ j, (j < length (trajectory_parts_ context))%nat →
        send_ok part_index j = true) →
  (∀ j, (j < length (controllers_ context))%nat →
        quiet part_index
          (expected_trajectory_duration (now part_index)
             (trajectory_parts_ context)) j) →
  let failed :=
    failures (reported part_index 0 (length (controllers_ context))) in
  executePart m part_index
  = (bool_decide (failed = []),
     set_handles [] (-1)%Z
       (set_status (default (last_execution_status_ m) (last failed))
          (log (context_calls part_index context)
             (set_handles (controllers_ context) (Z.of_nat part_index) m)))).
Proof.
  intros Hctx Hens Hrun Hsend Hq failed. unfold executePart.
  rewrite Hctx, Hens, Hrun.
  rewrite (send_loop_all_ok part_index _ 0%nat).
  2:{ intros j Hj. simpl. apply Hsend. rewrite length_zip_with in Hj. lia. }
  rewrite sends_of_zip.
  set (m1 := log _ (set_handles _ _ m)).
  pose proof (wait_loop_quiet part_index
                (expected_trajectory_duration (now part_index)
                   (trajectory_parts_ context))
                (controllers_ context) 0%nat m1 true [] Hrun Hq) as Hw.
  rewrite app_nil_r in Hw. rewrite Hw.
  cbn [wait_loop]. fold failed. simpl andb. f_equal. unfold m1.
  unfold context_calls, set_handles, set_status, log. simpl. f_equal.
  by rewrite <- app_assoc.
Qed.

(** X1.  When the parts of a context are all accepted and no wait is cut
    short by a stop request or runs over the budget, [executePart] waits on
    every handle, in the order of the controllers, also after a handle has
    reported a failure.  It returns true exactly when every handle reports
    SUCCEEDED; otherwise the status it leaves is the one reported by the
    last handle that did not succeed.  Execution is not marked complete, and
    the active handles are cleared. *)
Theorem executePart_waits_on_every_handle m part_index context :
  trajectories_ m !! part_index = Some context →
  ensureActiveControllers (controllers_ context) = true →
  execution_complete_ m = false →
  (∀ j, (j < length (trajectory_parts_ context))%nat →
        send_ok part_index j = true) →
  (∀ j, (j < length (controllers_ context))%nat →
        quiet part_index
          (expected_trajectory_duration (now part_index)
             (trajectory_parts_ context)) j) →
  let budget :=
    expected_trajectory_duration (now part_index) (trajectory_parts_ context) in
  let failed :=
    failures (reported part_index 0 (length (controllers_ context))) in
  let r := executePart m part_index in
  r.1 = bool_decide (failed = []) ∧
  last_execution_status_ r.2
  = default (last_execution_status_ m) (last failed) ∧
  execution_complete_ r.2 = false ∧
  active_handles_ r.2 = [] ∧
  current_context_ r.2 = (-1)%Z ∧
  calls r.2
  = calls m
    ++ zip_with SendTrajectory (controllers_ context)
         (trajectory_parts_ context)
    ++ ((λ h, WaitForExecution h budget) <$> controllers_ context).
Proof.
  intros Hctx Hens Hrun Hsend Hq budget failed r. unfold r.
  rewrite (executePart_quiet m part_index context) by done.
  simpl. by split_and!.
Qed.

(** X2.  When a stop request lands during the wait on handle [i] of a
    context, the waits before it being quiet, [executePart] cancels every
    handle of the context once, in order, waits on no handle after [i],
    leaves the status PREEMPTED with execution marked complete, and returns
    false, so that the worker runs no later context. *)
Theorem executePart_stop_request m part_index context i h :
  trajectories_ m !! part_index = Some context →
  ensureActiveControllers (controllers_ context) = true →
  execution_complete_ m = false →
  (∀ j, (j < length (trajectory_parts_ context))%nat →
        send_ok part_index j = true) →
  controllers_ context !! i = Some h →
  (∀ j, (j < i)%nat →
        quiet part_index
          (expected_trajectory_duration (now part_index)
             (trajectory_parts_ context)) j) →
  stop_requested (observe part_index i) = true →
  let budget :=
    expected_trajectory_duration (now part_index) (trajectory_parts_ context) in
  let r := executePart m part_index in
  r.1 = false ∧
  last_execution_status_ r.2 = PREEMPTED ∧
  execution_complete_ r.2 = true ∧
  active_handles_ r.2 = [] ∧
  calls r.2
  = calls m
    ++ zip_with SendTrajectory (controllers_ context)
         (trajectory_parts_ context)
    ++ ((λ h, WaitForExecution h budget) <$> take (S i) (controllers_ context))
    ++ (CancelExecution <$> controllers_ context) ∧
  ∀ rest, execute_loop m (part_index :: rest) = r.2.
Proof.
  intros Hctx Hens Hrun Hsend Hi Hq Hstop budget r.
  assert (Hr : r.1 = false ∧
    last_execution_status_ r.2 = PREEMPTED ∧
    execution_complete_ r.2 = true ∧
    active_handles_ r.2 = [] ∧
    calls r.2
    = calls m
      ++ zip_with SendTrajectory (controllers_ context)
           (trajectory_parts_ context)
      ++ ((λ h, WaitForExecution h budget)
            <$> take (S i) (controllers_ context))
      ++ (CancelExecution <$> controllers_ context)).
  { unfold r, executePart. rewrite Hctx, Hens, Hrun.
    rewrite (send_loop_all_ok part_index _ 0%nat).
    2:{ intros j Hj. simpl. apply Hsend. rewrite length_zip_with in Hj. lia. }
    rewrite sends_of_zip. fold budget.
    pose proof (lookup_lt_Some _ _ _ Hi) as Hlt.
    set (m1 := log _ (set_handles _ _ m)).
    assert (Hq' : ∀ j, (j < length (take i (controllers_ context)))%nat →
              quiet part_index budget (0 + j)).
    { intros j Hj. rewrite length_take in Hj. apply Hq. lia. }
    pose proof (wait_loop_quiet part_index budget
                  (take i (controllers_ context)) 0%nat m1 true
                  (h :: drop (S i) (controllers_ context)) Hrun Hq') as Hw.
    rewrite (take_drop_middle _ _ _ Hi) in Hw. rewrite Hw.
    rewrite length_take, Nat.min_l by lia. simpl Nat.add.
    cbn [wait_loop]. rewrite Hstop.
    set (mq := log [WaitForExecution h budget] _).
    assert (Hmq : execution_complete_ mq = false) by exact Hrun.
    rewrite (stopExecution_running mq Hmq).
    simpl. rewrite andb_false_r. simpl. split_and!; try done.
    rewrite (take_S_r _ _ _ Hi), fmap_app. simpl.
    by rewrite <- !app_assoc. }
  destruct Hr as (Hr1 & Hr2 & Hr3 & Hr4 & Hr5). split_and!; try done.
  intros rest. by apply execute_loop_stops.
Qed.

(** *** A wait that runs over the budget *)

Lemma wait_loop_overrun ctx budget : ∀ pre start m result h rest,
  execution_complete_ m = false →
  (∀ j, (j < length pre)%nat → quiet ctx budget (start + j)) →
  stop_requested (observe ctx (start + length pre)) = false →
  wait_ok (observe ctx (start + length pre)) = false →
  budget < elapsed (observe ctx (start + length pre)) →
  wait_loop ctx start budget (pre ++ h :: rest) m result
  = (stopExecution worker_thread
       (log [WaitForExecution h budget]
          (set_status
             (default (last_execution_status_ m)
                (last (failures (reported ctx start (length pre)))))
             (log ((λ h, WaitForExecution h budget) <$> pre) m))),
     None).
Proof.
  intros pre start m result h rest Hrun Hq Hstop Hwait Hlate.
  rewrite (wait_loop_quiet ctx budget pre start m result (h :: rest) Hrun Hq).
  cbn [wait_loop]. rewrite Hstop, Hwait. simpl negb. simpl andb.
  simpl execution_complete_. rewrite Hrun. simpl negb.
  apply Qltb_lt in Hlate. by rewrite Hlate.
Qed.

(** [executePart] on a context whose parts are all accepted, when the wait
    on handle [i] fails after more than the budget and the waits before it
    are quiet: the state in which the worker is left. *)
Lemma executePart_overrun m part_index context i h :
  trajectories_ m !! part_index = Some context →
  ensureActiveControllers (controllers_ context) = true →
  execution_complete_ m = false →
  (∀ j, (j < length (trajectory_parts_ context))%nat →
        send_ok part_index j = true) →
  let budget :=
    expected_trajectory_duration (now part_index) (trajectory_parts_ context) in
  controllers_ context !! i = Some h →
  (∀ j, (j < i)%nat → quiet part_index budget j) →
  stop_requested (observe part_index i) = false →
  wait_ok (observe part_index i) = false →
  budget < elapsed (observe part_index i) →
  let r := executePart m part_index in
  r.1 = false ∧
  self_join_ r.2 = true ∧
  last_execution_status_ r.2 = PREEMPTED ∧
  execution_complete_ r.2 = true ∧
  active_handles_ r.2 = controllers_ context ∧
  trajectories_ r.2 = trajectories_ m ∧
  calls r.2
  = calls m
    ++ zip_with SendTrajectory (controllers_ context)
         (trajectory_parts_ context)
    ++ ((λ h, WaitForExecution h budget) <$> take (S i) (controllers_ context))
    ++ (CancelExecution <$> controllers_ context).
Proof.
  intros Hctx Hens Hrun Hsend budget Hi Hq Hstop Hwait Hlate r.
  unfold r, executePart. rewrite Hctx, Hens, Hrun.
  rewrite (send_loop_all_ok part_index _ 0%nat).
  2:{ intros j Hj. simpl. apply Hsend. rewrite length_zip_with in Hj. lia. }
  rewrite sends_of_zip. fold budget.
  set (m1 := log _ (set_handles _ _ m)).
  pose proof (lookup_lt_Some _ _ _ Hi) as Hlt.
  assert (Hlen : length (take i (controllers_ context)) = i)
    by (rewrite length_take; lia).
  pose proof (wait_loop_overrun part_index budget
                (take i (controllers_ context)) 0%nat m1 true h
                (drop (S i) (controllers_ context))) as Hw.
  rewrite Hlen in Hw. simpl in Hw.
  rewrite (take_drop_middle _ _ _ Hi) in Hw.
  rewrite Hw by done. unfold stopExecution. simpl. rewrite Hrun. simpl.
  split_and!; try done.
  rewrite (take_S_r _ _ _ Hi), fmap_app. simpl.
  by rewrite <- !app_assoc.
Qed.

(** *** The expected duration *)

Lemma part_duration_amended current_time part :
  part_duration current_time part = amended_part_duration current_time part.
Proof.
  unfold part_duration, amended_part_duration, positive_part. cbv zeta.
  destruct (points (joint_trajectory part)) as [|p0 ps]; [done|].
  f_equal.
  set (sj := header_stamp (joint_trajectory part)).
  set (sm := m_header_stamp (multi_dof_joint_trajectory part)).
  assert (Hpos : ∀ st, Qltb 0 (st - current_time) = Qltb current_time st).
  { intros st. destruct (Qltb current_time st) eqn:E.
    - apply Qltb_lt in E. apply Qltb_lt. lra.
    - apply Qltb_ge in E. apply Qltb_ge. lra. }
  rewrite !Hpos. destruct (Qltb current_time sm); [done|].
  unfold Qmax'.
  destruct (Qltb current_time sj) eqn:E.
  - apply Qltb_lt in E.
    assert (Hn : Qltb (sj - current_time) 0 = false) by (apply Qltb_ge; lra).
    by rewrite Hn.
  - by vm_compute.
Qed.

Lemma foldr_Qmax'_base {A} (f : A → Q) (x acc : Q) (l : list A) :
  foldr (λ p longest, Qmax' (f p) longest) (Qmax' x acc) l
  == Qmax' x (foldr (λ p longest, Qmax' (f p) longest) acc l).
Proof.
  induction l as [|p l IH]; simpl; [reflexivity|].
  set (a := foldr _ (Qmax' x acc) l) in *.
  set (b := foldr _ acc l) in *.
  destruct (Qmax'_order (f p) a) as [[-> ?]|[-> ?]];
    destruct (Qmax'_order (f p) b) as [[Hb ?]|[Hb ?]]; rewrite Hb in *;
    destruct (Qmax'_order x b) as [[Hx ?]|[Hx ?]]; rewrite ?Hx in *;
    destruct (Qmax'_order x (f p)) as [[Hy ?]|[Hy ?]]; rewrite ?Hy in *;
    lra.
Qed.

Lemma longest_duration_amended current_time parts :
  longest_duration current_time parts
  == foldr (λ part longest,
              Qmax' (amended_part_duration current_time part) longest)
       0 parts.
Proof.
  unfold longest_duration. generalize 0.
  induction parts as [|p parts IH]; intros acc; simpl; [reflexivity|].
  rewrite IH, part_duration_amended. apply foldr_Qmax'_base.
Qed.

(** C3 (amended).  For a context whose parts are all sent, the budget is
    the budget of the amended claim: 1.1 times the longest part duration
    plus 0.5 s, where the longest part duration is the maximum over the
    parts (0 when there is none) of the duration of a part, and the duration
    of a part with joint points is its start offset PLUS its running time.
    When the wait on a handle fails after more than the budget, no stop
    request having come and the waits before it being quiet, the worker
    stops the execution: it waits on no later handle, cancels every handle
    of the context, marks execution complete and runs no later context. *)
Theorem executePart_budget_and_overrun m part_index context :
  trajectories_ m !! part_index = Some context →
  ensureActiveControllers (controllers_ context) = true →
  execution_complete_ m = false →
  (∀ j, (j < length (trajectory_parts_ context))%nat →
        send_ok part_index j = true) →
  let parts := trajectory_parts_ context in
  let current_time := now part_index in
  let budget := expected_trajectory_duration current_time parts in
  budget == amended_budget current_time parts ∧
  (∃ longest, budget = longest * (11 # 10) + (1 # 2) ∧
     0 <= longest ∧
     Forall (λ p, amended_part_duration current_time p <= longest) parts ∧
     (longest = 0 ∨
      ∃ p, p ∈ parts ∧ longest = amended_part_duration current_time p)) ∧
  (∀ i h, controllers_ context !! i = Some h →
     (∀ j, (j < i)%nat → quiet part_index budget j) →
     stop_requested (observe part_index i) = false →
     wait_ok (observe part_index i) = false →
     budget < elapsed (observe part_index i) →
     let r := executePart m part_index in
     execution_complete_ r.2 = true ∧
     calls r.2
     = calls m
       ++ zip_with SendTrajectory (controllers_ context) parts
       ++ ((λ h, WaitForExecution h budget)
             <$> take (S i) (controllers_ context))
       ++ (CancelExecution <$> controllers_ context) ∧
     ∀ rest, execute_loop m (part_index :: rest) = r.2).
Proof.
  intros Hctx Hens Hrun Hsend parts current_time budget. split_and!.
  - unfold budget, expected_trajectory_duration, amended_budget.
    by rewrite longest_duration_amended.
  - destruct (longest_duration_fold current_time parts 0)
      as (H0 & Hall & Hcase).
    fold (longest_duration current_time parts) in H0, Hall, Hcase.
    exists (longest_duration current_time parts). split_and!; try done.
    + eapply Forall_impl; [exact Hall|]. intros p Hp. simpl in Hp.
      by rewrite <- part_duration_amended.
    + destruct Hcase as [?|(p & Hp & He)]; [by left|]. right. exists p.
      by rewrite <- part_duration_amended.
  - intros i h Hh Hbefore Hstop Hwait Hlate r.
    destruct (executePart_overrun m part_index context i h Hctx Hens Hrun
                Hsend Hh Hbefore Hstop Hwait Hlate)
      as (Hr1 & _ & _ & Hr4 & _ & _ & Hr7).
    split_and!; try done. intros rest. by apply execute_loop_stops.
Qed.

(** *** What a run of the worker keeps *)

(** The calls that the worker makes to the controller handles. *)
Definition handle_call (c : Call) : Prop :=
  match c with
  | NotifyAll | CompletionCallback _ => False
  | _ => True
  end.

(** A wait of context [ctx] that failed after more than the budget of the
    context. *)
Definition overrun (ctx : nat) (context : TrajectoryExecutionContext)
    (j : nat) : Prop :=
  wait_ok (observe ctx j) = false ∧
  expected_trajectory_duration (now ctx) (trajectory_parts_ context)
  < elapsed (observe ctx j).

Lemma handle_call_cancels (hs : list string) :
  Forall handle_call (CancelExecution <$> hs).
Proof. apply Forall_fmap, Forall_true. done. Qed.

Lemma stopExecution_keeps caller m :
  trajectories_ (stopExecution caller m) = trajectories_ m ∧
  active_handles_ (stopExecution caller m) = active_handles_ m ∧
  execution_complete_ (stopExecution caller m) = true ∧
  (execution_complete_ m = false →
   last_execution_status_ (stopExecution caller m) = PREEMPTED) ∧
  self_join_ (stopExecution caller m)
  = match caller with
    | worker_thread => true
    | other_thread => self_join_ m
    end ∧
  ∃ cs, calls (stopExecution caller m) = calls m ++ cs ∧
        Forall handle_call cs.
Proof.
  unfold stopExecution.
  destruct (execution_complete_ m) eqn:E, caller; simpl;
    split_and!; try done;
    try (exists []; by rewrite app_nil_r);
    try (eexists; split; [done|apply handle_call_cancels]).
Qed.

(** What the wait loop keeps, and what it leaves when it has no result. *)
Lemma wait_loop_keeps ctx (context : TrajectoryExecutionContext) :
  ∀ hs i m result,
  let budget :=
    expected_trajectory_duration (now ctx) (trajectory_parts_ context) in
  let r := wait_loop ctx i budget hs m result in
  trajectories_ r.1 = trajectories_ m ∧
  active_handles_ r.1 = active_handles_ m ∧
  (∃ cs, calls r.1 = calls m ++ cs ∧ Forall handle_call cs) ∧
  match r.2 with
  | Some _ => self_join_ r.1 = self_join_ m
  | None =>
      self_join_ r.1 = true ∧ execution_complete_ r.1 = true ∧
      last_execution_status_ r.1 = PREEMPTED ∧
      ∃ j, overrun ctx context j
  end.
Proof.
  intros hs i m result budget. revert i m result.
  induction hs as [|h hs IH]; intros i m result.
  - simpl. split_and!; try done. exists []. by rewrite app_nil_r.
  - cbn [wait_loop]. cbv zeta.
    set (m1 := log [WaitForExecution h budget] m).
    set (m2 := if stop_requested (observe ctx i)
               then stopExecution other_thread m1 else m1).
    assert (H2 : trajectories_ m2 = trajectories_ m ∧
                 active_handles_ m2 = active_handles_ m ∧
                 self_join_ m2 = self_join_ m ∧
                 ∃ cs, calls m2 = calls m ++ cs ∧ Forall handle_call cs).
    { unfold m2. destruct (stop_requested _).
      - destruct (stopExecution_keeps other_thread m1)
          as (Ht & Hh & _ & _ & Hj & cs & Hc & Hcs).
        rewrite Ht, Hh, Hj, Hc. simpl. split_and!; try done.
        exists ([WaitForExecution h budget] ++ cs).
        split; [by rewrite app_assoc|]. by constructor.
      - simpl. split_and!; try done. eexists. split; [done|].
        by repeat constructor. }
    destruct H2 as (Ht2 & Hh2 & Hj2 & cs2 & Hc2 & Hcs2).
    destruct (negb (wait_ok (observe ctx i)) && negb (execution_complete_ m2)
              && Qltb budget (elapsed (observe ctx i))) eqn:Hcond.
    + apply andb_prop in Hcond as [Hcond Hlate].
      apply andb_prop in Hcond as [Hwait Hrun].
      apply negb_true_iff in Hwait, Hrun. apply Qltb_lt in Hlate.
      destruct (stopExecution_keeps worker_thread m2)
        as (Ht & Hh & Hcm & Hst & Hj & cs & Hc & Hcs).
      cbn [fst snd]. rewrite Ht, Hh, Hc, Ht2, Hh2, Hc2. split_and!; try done.
      * exists (cs2 ++ cs). split; [by rewrite app_assoc|].
        by apply Forall_app.
      * by apply Hst.
      * exists i. done.
    + destruct (execution_complete_ m2).
      { simpl. split_and!; try done. eauto. }
      destruct (bool_decide _).
      * specialize (IH (S i) (set_status (handle_status (observe ctx i)) m2)
                      false).
        cbv zeta in IH. fold budget in IH.
        destruct (wait_loop _ _ _ _ _ _) as [m' r'].
        destruct IH as (Ht & Hh & (cs & Hc & Hcs) & Hr). simpl in *.
        rewrite Ht, Hh, Hc, Ht2, Hh2, Hc2. split_and!; try done.
        -- exists (cs2 ++ cs). split; [by rewrite app_assoc|].
           by apply Forall_app.
        -- destruct r'; [congruence|done].
      * specialize (IH (S i) m2 result). cbv zeta in IH. fold budget in IH.
        destruct (wait_loop _ _ _ _ _ _) as [m' r'].
        destruct IH as (Ht & Hh & (cs & Hc & Hcs) & Hr). simpl in *.
        rewrite Ht, Hh, Hc, Ht2, Hh2, Hc2. split_and!; try done.
        -- exists (cs2 ++ cs). split; [by rewrite app_assoc|].
           by apply Forall_app.
        -- destruct r'; [congruence|done].
Qed.

(** A call of [executePart] either returns, with the handles cleared if
    none was listed before, or leaves the worker in its own join, with the
    handles of the context still listed. *)
Definition left_in_join (m m' : Manager) (i : nat) : Prop :=
  self_join_ m' = true ∧ execution_complete_ m' = true ∧
  last_execution_status_ m' = PREEMPTED ∧
  ∃ context j, trajectories_ m !! i = Some context ∧
    active_handles_ m' = controllers_ context ∧ overrun i context j.

Lemma send_loop_calls ctx (hp : list (string * RobotTrajectory)) : ∀ i,
  Forall handle_call (send_loop ctx i hp).2.
Proof.
  induction hp as [|[h p] rest IH]; intros i; simpl; [constructor|].
  destruct (send_ok ctx i).
  - specialize (IH (S i)). destruct (send_loop ctx (S i) rest) as [r cs].
    simpl in *. by constructor.
  - by repeat constructor.
Qed.

Lemma executePart_keeps m i :
  trajectories_ (executePart m i).2 = trajectories_ m ∧
  (∃ cs, calls (executePart m i).2 = calls m ++ cs ∧
         Forall handle_call cs) ∧
  ((self_join_ (executePart m i).2 = self_join_ m ∧
    (active_handles_ m = [] → active_handles_ (executePart m i).2 = [])) ∨
   ((executePart m i).1 = false ∧ left_in_join m (executePart m i).2 i)).
Proof.
  assert (Hsame : trajectories_ m = trajectories_ m ∧
            (∃ cs, calls m = calls m ++ cs ∧ Forall handle_call cs) ∧
            ((self_join_ m = self_join_ m ∧
              (active_handles_ m = [] → active_handles_ m = [])) ∨
             (false = false ∧ left_in_join m m i))).
  { split_and!; try done; [|by left]. exists []. by rewrite app_nil_r. }
  unfold executePart.
  destruct (trajectories_ m !! i) as [context|] eqn:Hctx; [|done].
  destruct (ensureActiveControllers _); [|done].
  destruct (execution_complete_ m); [done|].
  pose proof (send_loop_calls i
                (zip (controllers_ context) (trajectory_parts_ context)) 0)
    as Hsends.
  destruct (send_loop _ _ _) as [[k|] cs]; simpl in Hsends.
  - simpl. split_and!; try done; [|by left]. eexists. split; [done|].
    apply Forall_app. split; [done|apply handle_call_cancels].
  - set (m1 := log cs _).
    pose proof (wait_loop_keeps i context (controllers_ context) 0%nat m1
                  true) as Hw.
    cbv zeta in Hw.
    destruct (wait_loop _ _ _ _ _ _) as [m2 [result|]]; simpl in *.
    + destruct Hw as (Ht & Hh & (cs' & Hc & Hcs') & Hj).
      rewrite Ht, Hc. split_and!; try done; [|by left].
      exists (cs ++ cs'). split; [by rewrite app_assoc|].
      by apply Forall_app.
    + destruct Hw as (Ht & Hh & (cs' & Hc & Hcs') & Hj & Hcm & Hst & j & Hj').
      rewrite Ht, Hc. split_and!; try done.
      * exists (cs ++ cs'). split; [by rewrite app_assoc|].
        by apply Forall_app.
      * right. split; [done|]. split_and!; try done.
        exists context, j. by rewrite Hctx.
Qed.

Lemma execute_loop_keeps indices : ∀ m,
  trajectories_ (execute_loop m indices) = trajectories_ m ∧
  (∃ cs, calls (execute_loop m indices) = calls m ++ cs ∧
         Forall handle_call cs) ∧
  ((self_join_ (execute_loop m indices) = self_join_ m ∧
    (active_handles_ m = [] → active_handles_ (execute_loop m indices) = []))
   ∨ ∃ i, left_in_join m (execute_loop m indices) i).
Proof.
  induction indices as [|i rest IH]; intros m.
  - simpl. split_and!; try done; [|by left]. exists []. by rewrite app_nil_r.
  - cbn [execute_loop].
    destruct (executePart_keeps m i) as (Ht & (cs & Hc & Hcs) & Hcase).
    destruct (executePart m i) as [ok m']. simpl in *.
    destruct (negb ok || execution_complete_ m') eqn:Hstop.
    { split_and!; try done; [eauto|].
      destruct Hcase as [?|[_ ?]]; [by left|right; eauto]. }
    destruct Hcase as [[Hj Hh]|[Hok _]].
    2:{ rewrite Hok in Hstop. done. }
    destruct (IH m') as (Ht' & (cs' & Hc' & Hcs') & Hcase').
    rewrite Ht', Hc', Ht, Hc. split_and!; try done.
    + exists (cs ++ cs'). split; [by rewrite app_assoc|].
      by apply Forall_app.
    + destruct Hcase' as [[Hj' Hh']|(k & Hjoin)].
      * left. split; [congruence|]. intros H0. by apply Hh', Hh.
      * right. exists k. unfold left_in_join in *. by rewrite <- Ht.
Qed.

(** X3.  A run of the worker ends with execution marked complete and only
    adds to the calls made before it.  Either it ends outside any join:
    then no handle is listed as active if none was before, and the queue is
    left as it was, unless the worker was asked to clear it and did start,
    in which case it is empty.  Or a wait failed after more than the budget
    of its context and the worker is left in the join of its own thread
    that [stopExecution] makes: then the status is PREEMPTED and not
    TIMED_OUT, the handles of that context are still listed as active, the
    queue is not cleared, no waiter is notified and the completion callback
    is not called. *)
Theorem executeThread_ends_idle_or_in_its_own_join m callback auto_clear :
  let m' := executeThread m callback auto_clear in
  execution_complete_ m' = true ∧
  (∃ cs, calls m' = calls m ++ cs) ∧
  (self_join_ m' = false →
   (active_handles_ m = [] → active_handles_ m' = []) ∧
   trajectories_ m'
   = if auto_clear && negb (execution_complete_ m) then []
     else trajectories_ m) ∧
  (self_join_ m' = true →
   last_execution_status_ m' = PREEMPTED ∧
   trajectories_ m' = trajectories_ m ∧
   (∃ cs, calls m' = calls m ++ cs ∧ Forall handle_call cs) ∧
   ∃ i context j, trajectories_ m !! i = Some context ∧
     active_handles_ m' = controllers_ context ∧ overrun i context j).
Proof.
  unfold executeThread. cbv zeta.
  change (execution_complete_ (set_self_join false m))
    with (execution_complete_ m).
  destruct (execution_complete_ m) eqn:Hc.
  - simpl. rewrite andb_false_r. split_and!; try done.
    exists []. by rewrite app_nil_r.
  - rewrite andb_true_r.
    set (m1 := set_status SUCCEEDED (set_self_join false m)).
    destruct (execute_loop_keeps (seq 0 (length (trajectories_ m1))) m1)
      as (Ht & (cs & Hcs & Hh) & Hcase).
    set (m2 := execute_loop _ _) in *. simpl in Ht, Hcs.
    destruct Hcase as [[Hj Hidle]|(i & Hj & Hcm & Hst & ctx & j & Hi & Ha & Ho)].
    + simpl in Hj, Hidle. rewrite Hj.
      destruct auto_clear, callback; simpl; rewrite ?Hcs, ?Ht, ?Hj;
        (split; [done|]); (split; [rewrite <- ?app_assoc; eauto|]);
        (split; [intros _; by split|done]).
    + rewrite Hj. simpl in Hi. split_and!; try done.
      * eauto.
      * intros Hno. congruence.
      * intros _. split_and!; try done; eauto 10.
Qed.

(** X26.  When the wait on handle [i] of the first queued context fails
    after more than the budget, no stop request having come and the waits
    before it being quiet, the worker cancels every handle of the context
    and is then left in the join of its own thread: the status is PREEMPTED
    and is never set to TIMED_OUT, the handles of the context stay listed
    as active, the queue is kept also with [auto_clear], and after the
    cancellations the worker makes no call: no waiter is notified and the
    completion callback is not called. *)
Theorem executeThread_budget_overrun m callback auto_clear context i h :
  execution_complete_ m = false →
  trajectories_ m !! 0%nat = Some context →
  ensureActiveControllers (controllers_ context) = true →
  (∀ j, (j < length (trajectory_parts_ context))%nat →
        send_ok 0 j = true) →
  let budget :=
    expected_trajectory_duration (now 0) (trajectory_parts_ context) in
  controllers_ context !! i = Some h →
  (∀ j, (j < i)%nat → quiet 0 budget j) →
  stop_requested (observe 0 i) = false →
  wait_ok (observe 0 i) = false →
  budget < elapsed (observe 0 i) →
  let m' := executeThread m callback auto_clear in
  self_join_ m' = true ∧
  last_execution_status_ m' = PREEMPTED ∧
  execution_complete_ m' = true ∧
  active_handles_ m' = controllers_ context ∧
  trajectories_ m' = trajectories_ m ∧
  calls m'
  = calls m
    ++ zip_with SendTrajectory (controllers_ context)
         (trajectory_parts_ context)
    ++ ((λ h, WaitForExecution h budget) <$> take (S i) (controllers_ context))
    ++ (CancelExecution <$> controllers_ context).
Proof.
  intros Hrun Hctx Hens Hsend budget Hi Hq Hstop Hwait Hlate.
  unfold executeThread. cbv zeta.
  change (execution_complete_ (set_self_join false m))
    with (execution_complete_ m).
  rewrite Hrun.
  set (m1 := set_status SUCCEEDED (set_self_join false m)).
  destruct (trajectories_ m) as [|c q] eqn:Hq0; [done|].
  simpl in Hctx. simplify_eq.
  assert (Htr : trajectories_ m1 = context :: q) by done.
  rewrite Htr. change (seq 0 (length (context :: q)))
    with (0%nat :: seq 1 (length q)).
  destruct (executePart_overrun m1 0 context i h) as
    (Hr1 & Hr2 & Hr3 & Hr4 & Hr5 & Hr6 & Hr7); try done.
  { by rewrite Htr. }
  rewrite (execute_loop_stops m1 0 _ Hr1). rewrite Hr2.
  split_and!; try done. by rewrite Hr6, Htr.
Qed.

(** X4.  When the controllers of the first queued context cannot be made
    active, the worker sends nothing and runs no later context, and yet the
    status it leaves, and hands to the completion callback, is SUCCEEDED:
    the status is set before the loop and this way out of [executePart] does
    not change it. *)
Theorem executeThread_activation_failure m callback auto_clear context :
  execution_complete_ m = false →
  trajectories_ m !! 0%nat = Some context →
  ensureActiveControllers (controllers_ context) = false →
  let m' := executeThread m callback auto_clear in
  last_execution_status_ m' = SUCCEEDED ∧
  execution_complete_ m' = true ∧
  calls m'
  = calls m ++ [NotifyAll]
    ++ (if callback then [CompletionCallback SUCCEEDED] else []).
Proof.
  intros Hrun Hctx Hens. unfold executeThread. cbv zeta.
  change (execution_complete_ (set_self_join false m))
    with (execution_complete_ m).
  rewrite Hrun.
  destruct (trajectories_ m) as [|c q] eqn:Hq; [done|].
  simpl in Hctx. simplify_eq.
  change (trajectories_ (set_status SUCCEEDED (set_self_join false m)))
    with (trajectories_ m).
  rewrite Hq. change (seq 0 (length (context :: q)))
    with (0%nat :: seq 1 (length q)).
  rewrite execute_loop_stops.
  2:{ unfold executePart. simpl. rewrite Hq. simpl. by rewrite Hens. }
  unfold executePart. simpl trajectories_. rewrite Hq. simpl lookup.
  cbv iota. rewrite Hens. simpl.
  destruct auto_clear, callback; simpl; split_and!; try done;
    by rewrite <- ?app_assoc.
Qed.

(** *** A queue that runs to the end *)

Lemma execute_loop_quiet q : ∀ m k pre,
  trajectories_ m = pre ++ q →
  length pre = k →
  execution_complete_ m = false →
  (∀ i c, q !! i = Some c →
     ensureActiveControllers (controllers_ c) = true ∧
     (∀ j, (j < length (trajectory_parts_ c))%nat →
           send_ok (k + i) j = true) ∧
     (∀ j, (j < length (controllers_ c))%nat →
           quiet (k + i)
             (expected_trajectory_duration (now (k + i))
                (trajectory_parts_ c)) j ∧
           handle_status (observe (k + i) j) = SUCCEEDED)) →
  let m' := execute_loop m (seq k (length q)) in
  last_execution_status_ m' = last_execution_status_ m ∧
  execution_complete_ m' = false ∧
  self_join_ m' = self_join_ m ∧
  calls m' = calls m ++ queue_calls k q.
Proof.
  induction q as [|c q IH]; intros m k pre Hq Hk Hrun Hall.
  - simpl. by rewrite app_nil_r.
  - destruct (Hall 0%nat c eq_refl) as (Hens & Hsend & Hwait).
    rewrite Nat.add_0_r in Hsend, Hwait.
    assert (Hctx : trajectories_ m !! k = Some c).
    { rewrite Hq, lookup_app_r by lia.
      by replace (k - length pre)%nat with 0%nat by lia. }
    assert (Hnone : failures (reported k 0 (length (controllers_ c))) = []).
    { apply failures_none. intros j Hj. by apply Hwait. }
    cbn [length seq execute_loop].
    rewrite (executePart_quiet m k c Hctx Hens Hrun Hsend
               (λ j Hj, proj1 (Hwait j Hj))).
    rewrite Hnone. rewrite bool_decide_eq_true_2 by done.
    simpl negb. simpl orb. simpl execution_complete_. rewrite Hrun.
    set (m1 := set_handles _ _ _).
    destruct (IH m1 (S k) (pre ++ [c])) as (Hst & Hc & Hj & Hcalls).
    + simpl. by rewrite Hq, <- app_assoc.
    + rewrite length_app. simpl. lia.
    + done.
    + intros i c' Hi. specialize (Hall (S i) c' Hi).
      by replace (k + S i)%nat with (S k + i)%nat in Hall by lia.
    + simpl in Hst, Hc, Hj, Hcalls. rewrite Hst, Hc, Hj, Hcalls. simpl.
      split_and!; try done. by rewrite <- app_assoc.
Qed.

(** X5.  When every queued context can be activated, all its parts are
    accepted, and all its handles finish quietly with SUCCEEDED, the worker
    runs the contexts in queue order: for each context it sends the parts in
    the order of the controllers and then waits on the handles in the same
    order, with the budget of that context; it then notifies the waiters,
    and the status is SUCCEEDED. *)
Theorem executeThread_runs_queue_in_order m callback auto_clear :
  execution_complete_ m = false →
  (∀ i c, trajectories_ m !! i = Some c →
     ensureActiveControllers (controllers_ c) = true ∧
     (∀ j, (j < length (trajectory_parts_ c))%nat → send_ok i j = true) ∧
     (∀ j, (j < length (controllers_ c))%nat →
           quiet i
             (expected_trajectory_duration (now i) (trajectory_parts_ c)) j ∧
           handle_status (observe i j) = SUCCEEDED)) →
  let m' := executeThread m callback auto_clear in
  last_execution_status_ m' = SUCCEEDED ∧
  execution_complete_ m' = true ∧
  calls m'
  = calls m ++ queue_calls 0 (trajectories_ m) ++ [NotifyAll]
    ++ (if callback then [CompletionCallback SUCCEEDED] else []).
Proof.
  intros Hrun Hall. unfold executeThread. cbv zeta.
  change (execution_complete_ (set_self_join false m))
    with (execution_complete_ m).
  rewrite Hrun.
  destruct (execute_loop_quiet (trajectories_ m)
              (set_status SUCCEEDED (set_self_join false m))
              0%nat [] eq_refl eq_refl Hrun Hall)
    as (Hst & Hc & Hj & Hcalls).
  change (trajectories_ (set_status SUCCEEDED (set_self_join false m)))
    with (trajectories_ m).
  set (m2 := execute_loop _ _) in *. simpl in Hst, Hj, Hcalls. rewrite Hj.
  destruct auto_clear, callback; simpl; rewrite ?Hst, ?Hcalls;
    split_and!; try done; by rewrite <- ?app_assoc.
Qed.

(** *** The budget of a context without joint-trajectory points *)

(** X6.  The expected duration only counts the parts whose joint
    trajectory has points: when no part of a context has any, the budget is
    0.5 s, whatever the multi-DOF trajectories of the parts hold and
    whenever their headers are stamped. *)
Theorem expected_trajectory_duration_multi_dof_only current_time parts :
  Forall (λ p, points (joint_trajectory p) = []) parts →
  expected_trajectory_duration current_time parts == 1 # 2.
Proof.
  intros Hall. unfold expected_trajectory_duration, longest_duration.
  assert (H0 : foldl (λ expected part,
                        Qmax' (part_duration current_time part) expected)
                 0 parts = 0).
  { induction Hall as [|p ps Hp Hps IH]; [done|]. simpl.
    unfold part_duration at 2. rewrite Hp. exact IH. }
  rewrite H0. reflexivity.
Qed.

End Execution.

(** *** Runs of the worker *)

Definition point_at (t : Q) : JointTrajectoryPoint := mkPoint [0] [] [] t.

(** A part for one joint, whose header is stamped [stamp] and whose points
    are at 0 and at [duration] from the start. *)
Definition single_part (joint : string) (stamp duration : Q)
    : RobotTrajectory :=
  mkRT (mkJT stamp [joint] [point_at 0; point_at duration]) empty_MT.

Definition idle_manager (queue : list TrajectoryExecutionContext) : Manager :=
  mkManager false SUCCEEDED queue [] (-1) [] false.

Definition always_active (_ : list string) : bool := true.
Definition accept_all (_ _ : nat) : bool := true.
Definition accept_first_only (_ j : nat) : bool := (j =? 0)%nat.
Definition clock_zero (_ : nat) : Q := 0.
Definition never_finishes (_ _ : nat) : WaitObservation :=
  mkObs false false 4 RUNNING.

(** One part that starts in 1 s and lasts 2 s. *)
Definition delayed_context : TrajectoryExecutionContext :=
  mkContext ["A"] [single_part "j1" 1 2].

Definition two_part_context : TrajectoryExecutionContext :=
  mkContext ["A"; "B"] [single_part "j1" 0 2; single_part "j3" 0 2].

(** C3, the claim fails: for one part that starts 1 s from now and lasts
    2 s, the budget of the code is 1.1 * (1 + 2) + 0.5 = 3.8 s, where the
    claim gives 1.1 * max(1, 2) + 0.5 = 2.7 s. *)
Lemma budget_adds_start_offset :
  Qeq_bool (expected_trajectory_duration 0 [single_part "j1" 1 2]) (38 # 10)
  = true ∧
  Qeq_bool (claimed_budget 0 [single_part "j1" 1 2]) (27 # 10) = true.
Proof. by vm_compute. Qed.

(** Witness of C3: the delayed part is sent and its handle never
    finishes. *)
Lemma executePart_budget_and_overrun_witness :
  let m := idle_manager [delayed_context] in
  let run := executePart always_active accept_all clock_zero never_finishes in
  trajectories_ m !! 0%nat = Some delayed_context ∧
  always_active (controllers_ delayed_context) = true ∧
  execution_complete_ m = false ∧
  (∀ j, (j < length (trajectory_parts_ delayed_context))%nat →
        accept_all 0 j = true) ∧
  let parts := trajectory_parts_ delayed_context in
  let budget := expected_trajectory_duration 0 parts in
  budget == amended_budget 0 parts ∧
  (∃ longest, budget = longest * (11 # 10) + (1 # 2) ∧
     0 <= longest ∧
     Forall (λ p, amended_part_duration 0 p <= longest) parts ∧
     (longest = 0 ∨ ∃ p, p ∈ parts ∧ longest = amended_part_duration 0 p)) ∧
  execution_complete_ (run m 0%nat).2 = true ∧
  calls (run m 0%nat).2
  = calls m
    ++ zip_with SendTrajectory (controllers_ delayed_context) parts
    ++ ((λ h, WaitForExecution h budget)
          <$> take 1 (controllers_ delayed_context))
    ++ (CancelExecution <$> controllers_ delayed_context) ∧
  ∀ rest, execute_loop always_active accept_all clock_zero never_finishes
            m (0%nat :: rest) = (run m 0%nat).2.
Proof.
  intros m run.
  assert (H1 : trajectories_ m !! 0%nat = Some delayed_context) by done.
  assert (H2 : always_active (controllers_ delayed_context) = true) by done.
  assert (H3 : execution_complete_ m = false) by done.
  assert (H4 : ∀ j, (j < length (trajectory_parts_ delayed_context))%nat →
                    accept_all 0 j = true) by done.
  split_and!; [exact H1|exact H2|exact H3|exact H4|].
  destruct (executePart_budget_and_overrun always_active accept_all
              clock_zero never_finishes m 0%nat delayed_context H1 H2 H3 H4)
    as (Hbudget & Hmax & Hover).
  intros parts budget. split; [exact Hbudget|]. split; [exact Hmax|].
  apply (Hover 0%nat "A"%string); try done.
  intros j Hj. lia.
Defined.

(** Witness of X26: the worker runs the delayed part, whose handle never
    finishes, with a callback and with [auto_clear]. *)
Lemma executeThread_budget_overrun_witness :
  let m := idle_manager [delayed_context] in
  let m' := executeThread always_active accept_all clock_zero never_finishes
              m true true in
  let budget :=
    expected_trajectory_duration 0 (trajectory_parts_ delayed_context) in
  self_join_ m' = true ∧
  last_execution_status_ m' = PREEMPTED ∧
  execution_complete_ m' = true ∧
  active_handles_ m' = controllers_ delayed_context ∧
  trajectories_ m' = trajectories_ m ∧
  calls m'
  = calls m
    ++ zip_with SendTrajectory (controllers_ delayed_context)
         (trajectory_parts_ delayed_context)
    ++ ((λ h, WaitForExecution h budget)
          <$> take 1 (controllers_ delayed_context))
    ++ (CancelExecution <$> controllers_ delayed_context).
Proof.
  intros m m' budget.
  apply (executeThread_budget_overrun always_active accept_all clock_zero
           never_finishes m true true delayed_context 0%nat "A"%string);
    try done.
  intros j Hj. lia.
Defined.

(** Witness of C8: the second of two parts is refused. *)
Lemma executePart_send_refused_witness :
  let m := idle_manager [two_part_context] in
  let r := executePart always_active accept_first_only clock_zero
             never_finishes m 0 in
  trajectories_ m !! 0%nat = Some two_part_context ∧
  always_active (controllers_ two_part_context) = true ∧
  execution_complete_ m = false ∧
  length (controllers_ two_part_context)
  = length (trajectory_parts_ two_part_context) ∧
  (1 < length (trajectory_parts_ two_part_context))%nat ∧
  (∀ j, (j < 1)%nat → accept_first_only 0 j = true) ∧
  accept_first_only 0 1 = false ∧
  r.1 = false ∧
  calls r.2 =
    calls m
    ++ zip_with SendTrajectory (take 2 (controllers_ two_part_context))
         (take 2 (trajectory_parts_ two_part_context))
    ++ (CancelExecution <$> take 1 (controllers_ two_part_context)) ∧
  active_handles_ r.2 = [] ∧
  last_execution_status_ r.2 = ABORTED ∧
  trajectories_ r.2 = trajectories_ m.
Proof.
  intros m r.
  assert (H1 : trajectories_ m !! 0%nat = Some two_part_context) by done.
  assert (H6 : ∀ j, (j < 1)%nat → accept_first_only 0 j = true).
  { intros j Hj. assert (j = 0%nat) as -> by lia. done. }
  split_and!; [exact H1|done|done|done|simpl; lia|exact H6|done|..];
    apply (executePart_send_refused always_active accept_first_only
             clock_zero never_finishes m 0%nat two_part_context 1%nat
             H1 eq_refl eq_refl eq_refl ltac:(simpl; lia) H6 eq_refl).
Defined.

(** Witness of C10: a worker started after a stop request, with a callback
    and with [auto_clear]. *)
Lemma executeThread_started_complete_witness :
  let m := mkManager true PREEMPTED [two_part_context] [] (-1) [] false in
  let m' := executeThread always_active accept_all clock_zero never_finishes
              m true true in
  execution_complete_ m = true ∧
  last_execution_status_ m' = ABORTED ∧
  calls m' = calls m ∧
  trajectories_ m' = trajectories_ m ∧
  execution_complete_ m' = true ∧
  active_handles_ m' = active_handles_ m.
Proof.
  intros m m'. split; [done|].
  exact (executeThread_started_complete always_active accept_all clock_zero
           never_finishes m true true eq_refl).
Defined.

(** *** Runs with quiet waits, with a stop request, without activation *)

Definition never_active (_ : list string) : bool := false.

(** Every wait returns in time; the first handle of a context reports
    FAILED, the others SUCCEEDED. *)
Definition first_handle_fails (_ j : nat) : WaitObservation :=
  mkObs true false 1 (if (j =? 0)%nat then FAILED else SUCCEEDED).

(** A stop request lands during the wait on the second handle. *)
Definition stop_at_second (_ j : nat) : WaitObservation :=
  mkObs true (j =? 1)%nat 1 SUCCEEDED.

Definition all_succeed (_ _ : nat) : WaitObservation :=
  mkObs true false 1 SUCCEEDED.

(** A part that only holds a multi-DOF trajectory, stamped 10 s from the
    origin of time, whose last point is 100 s from its start. *)
Definition planar_part : RobotTrajectory :=
  mkRT empty_JT
    (mkMT 10 ["base"] ["odom"] ["base_link"]
       [mkMPoint [[0; 0; 0]] 0; mkMPoint [[1; 0; 0]] 100]).

(** Witness of X1: of two handles, the first reports FAILED. *)
Lemma executePart_waits_on_every_handle_witness :
  let m := idle_manager [two_part_context] in
  let budget :=
    expected_trajectory_duration (clock_zero 0)
      (trajectory_parts_ two_part_context) in
  let r := executePart always_active accept_all clock_zero first_handle_fails
             m 0 in
  (∀ j, (j < length (controllers_ two_part_context))%nat →
        quiet first_handle_fails 0 budget j) ∧
  r.1 = false ∧
  last_execution_status_ r.2 = FAILED ∧
  execution_complete_ r.2 = false ∧
  active_handles_ r.2 = [] ∧
  current_context_ r.2 = (-1)%Z ∧
  calls r.2
  = calls m
    ++ zip_with SendTrajectory (controllers_ two_part_context)
         (trajectory_parts_ two_part_context)
    ++ ((λ h, WaitForExecution h budget) <$> controllers_ two_part_context).
Proof.
  intros m budget r.
  assert (Hq : ∀ j, (j < length (controllers_ two_part_context))%nat →
                    quiet first_handle_fails 0 budget j).
  { intros j Hj. split; [done|by left]. }
  split; [exact Hq|].
  exact (executePart_waits_on_every_handle always_active accept_all
           clock_zero first_handle_fails m 0%nat two_part_context
           eq_refl eq_refl eq_refl (λ j Hj, eq_refl) Hq).
Defined.

(** Witness of X2: of two handles, the stop request lands during the wait
    on the second. *)
Lemma executePart_stop_request_witness :
  let m := idle_manager [two_part_context] in
  let budget :=
    expected_trajectory_duration (clock_zero 0)
      (trajectory_parts_ two_part_context) in
  let r := executePart always_active accept_all clock_zero stop_at_second
             m 0 in
  (∀ j, (j < 1)%nat → quiet stop_at_second 0 budget j) ∧
  r.1 = false ∧
  last_execution_status_ r.2 = PREEMPTED ∧
  execution_complete_ r.2 = true ∧
  active_handles_ r.2 = [] ∧
  calls r.2
  = calls m
    ++ zip_with SendTrajectory (controllers_ two_part_context)
         (trajectory_parts_ two_part_context)
    ++ ((λ h, WaitForExecution h budget)
          <$> take 2 (controllers_ two_part_context))
    ++ (CancelExecution <$> controllers_ two_part_context) ∧
  ∀ rest, execute_loop always_active accept_all clock_zero stop_at_second
            m (0%nat :: rest) = r.2.
Proof.
  intros m budget r.
  assert (Hq : ∀ j, (j < 1)%nat → quiet stop_at_second 0 budget j).
  { intros j Hj. assert (j = 0%nat) as -> by lia. split; [done|by left]. }
  split; [exact Hq|].
  exact (executePart_stop_request always_active accept_all clock_zero
           stop_at_second m 0%nat two_part_context 1%nat "B"
           eq_refl eq_refl eq_refl (λ j Hj, eq_refl) eq_refl Hq eq_refl).
Defined.

(** Witness of X4: one queued context whose controllers cannot be made
    active, with a completion callback. *)
Lemma executeThread_activation_failure_witness :
  let m := idle_manager [two_part_context] in
  let m' := executeThread never_active accept_all clock_zero all_succeed
              m true false in
  execution_complete_ m = false ∧
  trajectories_ m !! 0%nat = Some two_part_context ∧
  never_active (controllers_ two_part_context) = false ∧
  last_execution_status_ m' = SUCCEEDED ∧
  execution_complete_ m' = true ∧
  calls m' = calls m ++ [NotifyAll] ++ [CompletionCallback SUCCEEDED].
Proof.
  intros m m'. split_and!; [done|done|done|..];
    apply (executeThread_activation_failure never_active accept_all
             clock_zero all_succeed m true false two_part_context
             eq_refl eq_refl eq_refl).
Defined.

Lemma all_succeed_queue :
  let m := idle_manager [two_part_context; delayed_context] in
  ∀ i c, trajectories_ m !! i = Some c →
    always_active (controllers_ c) = true ∧
    (∀ j, (j < length (trajectory_parts_ c))%nat → accept_all i j = true) ∧
    (∀ j, (j < length (controllers_ c))%nat →
          quiet all_succeed i
            (expected_trajectory_duration (clock_zero i)
               (trajectory_parts_ c)) j ∧
          handle_status (all_succeed i j) = SUCCEEDED).
Proof.
  intros m i c Hc. split_and!; [done|done|].
  intros j Hj. split; [|done]. split; [done|by left].
Qed.

(** Witness of X5: a queue of two contexts, the first of two parts. *)
Lemma executeThread_runs_queue_in_order_witness :
  let m := idle_manager [two_part_context; delayed_context] in
  let m' := executeThread always_active accept_all clock_zero all_succeed
              m false true in
  execution_complete_ m = false ∧
  last_execution_status_ m' = SUCCEEDED ∧
  execution_complete_ m' = true ∧
  calls m'
  = calls m ++ queue_calls clock_zero 0 (trajectories_ m) ++ [NotifyAll] ++ [].
Proof.
  intros m m'. split; [done|].
  exact (executeThread_runs_queue_in_order always_active accept_all
           clock_zero all_succeed m false true eq_refl all_succeed_queue).
Defined.

(** Witness of X6: the planar part alone. *)
Lemma expected_trajectory_duration_multi_dof_only_witness :
  Forall (λ p, points (joint_trajectory p) = []) [planar_part] ∧
  expected_trajectory_duration 0 [planar_part] == 1 # 2.
Proof.
  assert (H : Forall (λ p, points (joint_trajectory p) = []) [planar_part])
    by (by constructor).
  split; [exact H|].
  exact (expected_trajectory_duration_multi_dof_only 0 [planar_part] H).
Defined.

Definition two_joint_trajectory : RobotTrajectory :=
  mkRT (mkJT 5 ["j2"; "j1"]
          [mkPoint [1; 2] [] [] 0; mkPoint [3; 4] [7; 8] [] (1 # 2)])
       empty_MT.

Lemma scenario_D_known c :
  c ∈ ["A"; "B"] → is_Some (scenario_D_registry true false !! c).
Proof.
  intros Hc. apply elem_of_cons in Hc as [->|Hc];
    [|apply list_elem_of_singleton in Hc as ->].
  - destruct (scenario_D_registry true false !! "A") eqn:E; [eauto|].
    by vm_compute in E.
  - destruct (scenario_D_registry true false !! "B") eqn:E; [eauto|].
    by vm_compute in E.
Qed.

(** Witness of C9: a trajectory over j1 and j2 split over A, which moves
    them, and B, which moves neither. *)
Lemma distributeTrajectory_keeps_points_and_times_witness :
  let R := scenario_D_registry true false in
  (∀ c, c ∈ ["A"; "B"] → is_Some (R !! c)) ∧
  ∃ parts,
    distributeTrajectory R two_joint_trajectory ["A"; "B"] = Some parts ∧
    length parts = length ["A"; "B"] ∧
    ∀ i c ci, ["A"; "B"] !! i = Some c → R !! c = Some ci →
      ∃ part, parts !! i = Some part ∧
        let single := joint_trajectory two_joint_trajectory in
        let mdof := multi_dof_joint_trajectory two_joint_trajectory in
        (joints_ ci ∩ list_to_set (joint_names single) ≠ ∅ →
           length (points (joint_trajectory part)) = length (points single) ∧
           ∀ j p, points (joint_trajectory part) !! j = Some p →
             ∃ q, points single !! j = Some q ∧
                  time_from_start p = time_from_start q) ∧
        (joints_ ci ∩ list_to_set (joint_names single) = ∅ →
           joint_trajectory part = empty_JT) ∧
        (joints_ ci ∩ list_to_set (m_joint_names mdof) ≠ ∅ →
           length (m_points (multi_dof_joint_trajectory part))
           = length (m_points mdof) ∧
           ∀ j p, m_points (multi_dof_joint_trajectory part) !! j = Some p →
             ∃ q, m_points mdof !! j = Some q ∧
                  m_time_from_start p = m_time_from_start q) ∧
        (joints_ ci ∩ list_to_set (m_joint_names mdof) = ∅ →
           multi_dof_joint_trajectory part = empty_MT).
Proof.
  intros R. split; [exact scenario_D_known|].
  exact (distributeTrajectory_keeps_points_and_times R two_joint_trajectory
           ["A"; "B"] scenario_D_known).
Defined.

(** ** The parts of a distributed trajectory *)

Local Open Scope nat_scope.

#[local] Instance string_le_total : Total string_le.
Proof. intros x y. apply String.leb_total. Qed.

Lemma set_intersection_elem a b n :
  n ∈ set_intersection a b ↔ n ∈ a ∧ n ∈ b.
Proof.
  unfold set_intersection. rewrite merge_sort_Permutation.
  rewrite elem_of_elements. set_solver.
Qed.

Lemma set_intersection_NoDup a b : NoDup (set_intersection a b).
Proof.
  unfold set_intersection. rewrite merge_sort_Permutation.
  apply NoDup_elements.
Qed.

Lemma distribute_single_names ci t :
  joint_names (distribute_single ci t)
  = set_intersection (joints_ ci) (list_to_set (joint_names t)).
Proof. unfold distribute_single. by destruct (set_intersection _ _). Qed.

Lemma distribute_mdof_names ci t :
  m_joint_names (distribute_mdof ci t)
  = set_intersection (joints_ ci) (list_to_set (m_joint_names t)).
Proof. unfold distribute_mdof. by destruct (set_intersection _ _). Qed.

Lemma distributeTrajectory_lookup R trajectory controllers parts i part :
  distributeTrajectory R trajectory controllers = Some parts →
  parts !! i = Some part →
  ∃ c ci, controllers !! i = Some c ∧ R !! c = Some ci ∧
    part = mkRT (distribute_single ci (joint_trajectory trajectory))
             (distribute_mdof ci (multi_dof_joint_trajectory trajectory)).
Proof.
  unfold distributeTrajectory. intros E Hi. apply mapM_Some in E.
  destruct (Forall2_lookup_r _ _ _ _ _ E Hi) as (c & Hc & Hdef).
  destruct (R !! c) as [ci|] eqn:Hci; [|done]. simplify_eq. eauto.
Qed.

(** The map [index] sends a name to the last place where the name stands in
    the trajectory. *)
Lemma index_of_names_snoc names n :
  index_of_names (names ++ [n])
  = <[n := length names]> (index_of_names names).
Proof.
  unfold index_of_names. rewrite imap_app, foldl_app. simpl.
  by rewrite Nat.add_0_r.
Qed.

Lemma index_of_names_lookup names n b :
  index_of_names names !! n = Some b ↔
  names !! b = Some n ∧ ∀ b', names !! b' = Some n → b' ≤ b.
Proof.
  revert b. induction names as [|x names IH] using rev_ind; intros b.
  - unfold index_of_names. simpl. rewrite lookup_empty.
    split; [done|]. intros [Hb _]. by rewrite lookup_nil in Hb.
  - rewrite index_of_names_snoc.
    destruct (decide (x = n)) as [->|Hne].
    + rewrite lookup_insert_eq. split.
      * intros [= <-]. split.
        -- by rewrite lookup_app_r, Nat.sub_diag by lia.
        -- intros b' Hb'. apply lookup_lt_Some in Hb'.
           rewrite length_app in Hb'. simpl in Hb'. lia.
      * intros [Hb Hmax].
        assert (Hlast : (names ++ [n]) !! length names = Some n)
          by (by rewrite lookup_app_r, Nat.sub_diag by lia).
        specialize (Hmax _ Hlast). apply lookup_lt_Some in Hb.
        rewrite length_app in Hb. simpl in Hb. f_equal. lia.
    + rewrite lookup_insert_ne by done. rewrite IH. split.
      * intros [Hb Hmax]. split.
        -- rewrite lookup_app_l; [done|]. by eapply lookup_lt_Some.
        -- intros b' Hb'. apply Hmax.
           destruct (decide (b' < length names)) as [Hlt|Hge].
           ++ by rewrite lookup_app_l in Hb' by done.
           ++ rewrite lookup_app_r in Hb' by lia.
              destruct (b' - length names) as [|d]; simpl in Hb';
                [congruence|]. by rewrite lookup_nil in Hb'.
      * intros [Hb Hmax].
        assert (Hlt : b < length names).
        { apply lookup_lt_Some in Hb as Hlt. rewrite length_app in Hlt.
          simpl in Hlt. destruct (decide (b = length names)) as [->|]; [|lia].
          rewrite lookup_app_r, Nat.sub_diag in Hb by lia.
          simpl in Hb. congruence. }
        rewrite lookup_app_l in Hb by done. split; [done|].
        intros b' Hb'. apply Hmax. rewrite lookup_app_l; [done|].
        by eapply lookup_lt_Some.
Qed.

Lemma bijection_of_lookup names jnames k n :
  jnames !! k = Some n → n ∈ names →
  ∃ b, bijection_of names jnames !! k = Some b ∧
       names !! b = Some n ∧ ∀ b', names !! b' = Some n → b' ≤ b.
Proof.
  intros Hk Hn. unfold bijection_of. rewrite list_lookup_fmap, Hk. simpl.
  destruct (index_of_names names !! n) as [b|] eqn:Hb.
  - apply index_of_names_lookup in Hb. eauto.
  - exfalso. apply list_elem_of_lookup in Hn as [b0 Hb0].
    assert (Hex : ∃ b, names !! b = Some n ∧
                       ∀ b', names !! b' = Some n → b' ≤ b).
    { clear Hb Hk. revert b0 Hb0.
      induction names as [|x names IH] using rev_ind; intros b0 Hb0;
        [by rewrite lookup_nil in Hb0|].
      destruct (decide (x = n)) as [->|Hne].
      - exists (length names). split.
        + by rewrite lookup_app_r, Nat.sub_diag by lia.
        + intros b' Hb'. apply lookup_lt_Some in Hb'.
          rewrite length_app in Hb'. simpl in Hb'. lia.
      - assert (Hlt : b0 < length names).
        { apply lookup_lt_Some in Hb0 as Hlt. rewrite length_app in Hlt.
          simpl in Hlt.
          destruct (decide (b0 = length names)) as [->|]; [|lia].
          rewrite lookup_app_r, Nat.sub_diag in Hb0 by lia.
          simpl in Hb0. congruence. }
        rewrite lookup_app_l in Hb0 by done.
        destruct (IH b0 Hb0) as (b & Hb & Hmax). exists b. split.
        + rewrite lookup_app_l; [done|]. by eapply lookup_lt_Some.
        + intros b' Hb'. apply Hmax.
          destruct (decide (b' < length names)) as [Hlt'|Hge].
          * by rewrite lookup_app_l in Hb' by done.
          * rewrite lookup_app_r in Hb' by lia.
            destruct (b' - length names) as [|d]; simpl in Hb';
              [congruence|]. by rewrite lookup_nil in Hb'. }
    destruct Hex as (b & Hex). apply index_of_names_lookup in Hex.
    congruence.
Qed.

Lemma project_nonempty_lookup bijection values k b v :
  bijection !! k = Some b → values !! b = Some v →
  project_nonempty bijection values !! k = Some v.
Proof.
  intros Hk Hb. unfold project_nonempty, project.
  destruct values as [|v0 values]; [by rewrite lookup_nil in Hb|].
  rewrite list_lookup_fmap, Hk. simpl. by rewrite Hb.
Qed.

(** A part keeps the optional fields of a point optional. *)
Lemma project_nonempty_nil bijection values :
  values = [] → project_nonempty bijection values = [].
Proof. by intros ->. Qed.

(** X7.  Splitting fails exactly when one of the controllers is not in the
    registry. *)
Theorem distributeTrajectory_fails_iff_unknown R trajectory controllers :
  distributeTrajectory R trajectory controllers = None ↔
  ∃ c, c ∈ controllers ∧ R !! c = None.
Proof.
  unfold distributeTrajectory. rewrite mapM_None, Exists_exists.
  split; intros (c & Hc & Hnone); exists c; (split; [done|]);
    destruct (R !! c); done.
Qed.

(** X8.  The joint names of a part are the names of the trajectory that
    its controller drives: each of them once, in the order of the names
    (not in the order of the trajectory), and no other.  The joint
    trajectory of a part that has names carries the header stamp of the
    trajectory; the multi-DOF trajectory of a part is never given the
    stamp of the multi-DOF trajectory. *)
Theorem distributeTrajectory_part_names R trajectory controllers parts
    i c ci part :
  distributeTrajectory R trajectory controllers = Some parts →
  controllers !! i = Some c → R !! c = Some ci → parts !! i = Some part →
  let single := joint_trajectory trajectory in
  let mdof := multi_dof_joint_trajectory trajectory in
  NoDup (joint_names (joint_trajectory part)) ∧
  Sorted string_le (joint_names (joint_trajectory part)) ∧
  (∀ n, n ∈ joint_names (joint_trajectory part) ↔
        n ∈ joints_ ci ∧ n ∈ joint_names single) ∧
  (joint_names (joint_trajectory part) ≠ [] →
   header_stamp (joint_trajectory part) = header_stamp single) ∧
  NoDup (m_joint_names (multi_dof_joint_trajectory part)) ∧
  Sorted string_le (m_joint_names (multi_dof_joint_trajectory part)) ∧
  (∀ n, n ∈ m_joint_names (multi_dof_joint_trajectory part) ↔
        n ∈ joints_ ci ∧ n ∈ m_joint_names mdof) ∧
  m_header_stamp (multi_dof_joint_trajectory part) = 0%Q.
Proof.
  intros E Hc Hci Hi single mdof.
  destruct (distributeTrajectory_lookup _ _ _ _ _ _ E Hi)
    as (c' & ci' & Hc' & Hci' & ->).
  simplify_eq. simpl.
  rewrite distribute_single_names, distribute_mdof_names.
  split_and!.
  - apply set_intersection_NoDup.
  - apply Sorted_merge_sort. apply _.
  - intros n. rewrite set_intersection_elem, elem_of_list_to_set. done.
  - unfold distribute_single. fold single.
    destruct (set_intersection _ _); done.
  - apply set_intersection_NoDup.
  - apply Sorted_merge_sort. apply _.
  - intros n. rewrite set_intersection_elem, elem_of_list_to_set. done.
  - unfold distribute_mdof. by destruct (set_intersection _ _).
Qed.

(** X9.  Every joint of a part keeps its own values: when the part names
    joint [n] at place [k], the trajectory names [n] at some place [b] (the
    last one, should the name be repeated), and in every point of the part
    the position, velocity and acceleration at place [k] are those that the
    point at the same place of the trajectory has at place [b].  A field
    that the point of the trajectory leaves empty is empty in the part. *)
Theorem distributeTrajectory_values_follow_names R trajectory controllers
    parts i part k n :
  distributeTrajectory R trajectory controllers = Some parts →
  parts !! i = Some part →
  joint_names (joint_trajectory part) !! k = Some n →
  let single := joint_trajectory trajectory in
  ∃ b, joint_names single !! b = Some n ∧
       (∀ b', joint_names single !! b' = Some n → b' ≤ b) ∧
       ∀ j p, points (joint_trajectory part) !! j = Some p →
         ∃ q, points single !! j = Some q ∧
           (∀ v, positions q !! b = Some v → positions p !! k = Some v) ∧
           (∀ v, velocities q !! b = Some v → velocities p !! k = Some v) ∧
           (∀ v, accelerations q !! b = Some v →
                 accelerations p !! k = Some v) ∧
           (positions q = [] → positions p = []) ∧
           (velocities q = [] → velocities p = []) ∧
           (accelerations q = [] → accelerations p = []).
Proof.
  intros E Hi Hk single.
  destruct (distributeTrajectory_lookup _ _ _ _ _ _ E Hi)
    as (c & ci & Hc & Hci & ->).
  simpl in *. fold single in Hk |- *.
  assert (Hn : n ∈ joint_names single).
  { assert (Hin : n ∈ joint_names (distribute_single ci single))
      by (apply list_elem_of_lookup; eauto).
    rewrite distribute_single_names, set_intersection_elem in Hin.
    destruct Hin as [_ Hin]. by apply elem_of_list_to_set in Hin. }
  unfold distribute_single in *.
  destruct (set_intersection (joints_ ci) (list_to_set (joint_names single)))
    as [|n0 jnames] eqn:Hint; [simpl in Hk; by rewrite lookup_nil in Hk|].
  simpl in Hk.
  destruct (bijection_of_lookup (joint_names single) (n0 :: jnames) k n Hk Hn)
    as (b & Hb & Hbn & Hmax).
  exists b. split_and!; [done|done|].
  intros j p Hj. simpl in Hj.
  apply list_lookup_fmap_Some in Hj as (q & -> & Hq).
  exists q. split; [done|]. unfold distribute_point. simpl.
  split_and!; try (intros v Hv; by eapply project_nonempty_lookup);
    apply project_nonempty_nil.
Qed.

(** The parts of pairwise joint-disjoint controllers name every joint at
    most once. *)
Lemma distribute_one_part_per_joint R trajectory controllers
    parts :
  pairwise_disjoint R controllers →
  distributeTrajectory R trajectory controllers = Some parts →
  (∀ n, n ∈ joint_names (joint_trajectory trajectory) →
        n ∈ combined_joints R controllers →
        ∃ i part, parts !! i = Some part ∧
          n ∈ joint_names (joint_trajectory part) ∧
          ∀ i' part', parts !! i' = Some part' →
            n ∈ joint_names (joint_trajectory part') → i' = i) ∧
  (∀ n, n ∈ m_joint_names (multi_dof_joint_trajectory trajectory) →
        n ∈ combined_joints R controllers →
        ∃ i part, parts !! i = Some part ∧
          n ∈ m_joint_names (multi_dof_joint_trajectory part) ∧
          ∀ i' part', parts !! i' = Some part' →
            n ∈ m_joint_names (multi_dof_joint_trajectory part') → i' = i).
Proof.
  intros Hd E.
  assert (Hlen : length parts = length controllers).
  { unfold distributeTrajectory in E. apply mapM_Some in E.
    symmetry. by eapply Forall2_length. }
  assert (Hpart : ∀ i c, controllers !! i = Some c →
            ∃ ci part, R !! c = Some ci ∧ parts !! i = Some part ∧
              part = mkRT (distribute_single ci (joint_trajectory trajectory))
                       (distribute_mdof ci
                          (multi_dof_joint_trajectory trajectory))).
  { intros i c Hc.
    destruct (parts !! i) as [part|] eqn:Hi.
    - destruct (distributeTrajectory_lookup _ _ _ _ _ _ E Hi)
        as (c' & ci & Hc' & Hci & ->). simplify_eq. eauto.
    - apply lookup_ge_None in Hi. apply lookup_lt_Some in Hc. lia. }
  assert (Hone : ∀ n i i' c c' ci ci',
            controllers !! i = Some c → controllers !! i' = Some c' →
            R !! c = Some ci → R !! c' = Some ci' →
            n ∈ joints_ ci → n ∈ joints_ ci' → i' = i).
  { intros n i i' c c' ci ci' Hc Hc' Hci Hci' Hn Hn'.
    destruct (decide (i' = i)) as [|Hne]; [done|]. exfalso.
    specialize (Hd i' i c' c Hne Hc' Hc). unfold known in Hd.
    rewrite Hci, Hci' in Hd. simpl in Hd. set_solver. }
  split.
  - intros n Hn Hcov. apply combined_joints_elem in Hcov as (c & Hc & Hnc).
    apply list_elem_of_lookup in Hc as [i Hc].
    destruct (Hpart i c Hc) as (ci & part & Hci & Hi & ->).
    unfold known in Hnc. rewrite Hci in Hnc. simpl in Hnc.
    exists i. eexists. split; [done|]. simpl.
    rewrite distribute_single_names, set_intersection_elem,
      elem_of_list_to_set.
    split; [done|].
    intros i' part' Hi' Hn'.
    destruct (distributeTrajectory_lookup _ _ _ _ _ _ E Hi')
      as (c' & ci' & Hc' & Hci' & ->). simpl in Hn'.
    rewrite distribute_single_names, set_intersection_elem in Hn'.
    destruct Hn' as [Hn' _]. by eapply (Hone n i i').
  - intros n Hn Hcov. apply combined_joints_elem in Hcov as (c & Hc & Hnc).
    apply list_elem_of_lookup in Hc as [i Hc].
    destruct (Hpart i c Hc) as (ci & part & Hci & Hi & ->).
    unfold known in Hnc. rewrite Hci in Hnc. simpl in Hnc.
    exists i. eexists. split; [done|]. simpl.
    rewrite distribute_mdof_names, set_intersection_elem,
      elem_of_list_to_set.
    split; [done|].
    intros i' part' Hi' Hn'.
    destruct (distributeTrajectory_lookup _ _ _ _ _ _ E Hi')
      as (c' & ci' & Hc' & Hci' & ->). simpl in Hn'.
    rewrite distribute_mdof_names, set_intersection_elem in Hn'.
    destruct Hn' as [Hn' _]. by eapply (Hone n i i').
Qed.

(** X10.  When the controllers are pairwise joint-disjoint, a joint of the
    trajectory that one of them drives is named by exactly one part, the
    part of that controller; so is a multi-DOF joint. *)
Theorem distributeTrajectory_partitions_joints R trajectory controllers
    parts :
  pairwise_disjoint R controllers →
  distributeTrajectory R trajectory controllers = Some parts →
  (∀ n, n ∈ joint_names (joint_trajectory trajectory) →
        n ∈ combined_joints R controllers →
        ∃ i part, parts !! i = Some part ∧
          n ∈ joint_names (joint_trajectory part) ∧
          ∀ i' part', parts !! i' = Some part' →
            n ∈ joint_names (joint_trajectory part') → i' = i) ∧
  (∀ n, n ∈ m_joint_names (multi_dof_joint_trajectory trajectory) →
        n ∈ combined_joints R controllers →
        ∃ i part, parts !! i = Some part ∧
          n ∈ m_joint_names (multi_dof_joint_trajectory part) ∧
          ∀ i' part', parts !! i' = Some part' →
            n ∈ m_joint_names (multi_dof_joint_trajectory part') → i' = i).
Proof. apply distribute_one_part_per_joint. Qed.

(** Scenario D with the trajectory over j2 and j1, in this order, split
    over A, which drives j1 and j2, and B, which drives j3 and j4. *)

Definition scenario_D_part_A : RobotTrajectory :=
  (mkRT (mkJT 5 ["j1"; "j2"]
           [mkPoint [2; 1] [] [] 0; mkPoint [4; 3] [8; 7] [] (1 # 2)])
        empty_MT)%Q.

Definition scenario_D_parts : list RobotTrajectory :=
  [scenario_D_part_A; mkRT empty_JT empty_MT].

Lemma scenario_D_split :
  distributeTrajectory (scenario_D_registry true false) two_joint_trajectory
    ["A"; "B"] = Some scenario_D_parts.
Proof. by vm_compute. Qed.

Lemma scenario_D_lookup_A :
  scenario_D_registry true false !! "A"
  = Some (known (scenario_D_registry true false) "A").
Proof. by vm_compute. Qed.

Lemma scenario_D_AB_disjoint :
  pairwise_disjoint (scenario_D_registry true false) ["A"; "B"].
Proof.
  assert (H : joints_ (known (scenario_D_registry true false) "A")
              ## joints_ (known (scenario_D_registry true false) "B")).
  { assert (Hb : bool_decide
                     (joints_ (known (scenario_D_registry true false) "A")
                      ## joints_ (known (scenario_D_registry true false) "B"))
                   = true) by (by vm_compute).
    by apply bool_decide_eq_true_1 in Hb. }
  intros i j ci cj Hij Hi Hj.
  destruct i as [|[|i]], j as [|[|j]]; simplify_eq/=; done.
Qed.

(** Witness of X8: the part of A. *)
Lemma distributeTrajectory_part_names_witness :
  let R := scenario_D_registry true false in
  let part := scenario_D_part_A in
  let ci := known R "A" in
  distributeTrajectory R two_joint_trajectory ["A"; "B"]
  = Some scenario_D_parts ∧
  R !! "A" = Some ci ∧
  scenario_D_parts !! 0 = Some part ∧
  NoDup ["j1"; "j2"] ∧
  Sorted string_le ["j1"; "j2"] ∧
  (∀ n, n ∈ ["j1"; "j2"] ↔ n ∈ joints_ ci ∧ n ∈ ["j2"; "j1"]) ∧
  (["j1"; "j2"] ≠ [] → header_stamp (joint_trajectory part) = 5%Q) ∧
  NoDup (m_joint_names empty_MT) ∧
  Sorted string_le (m_joint_names empty_MT) ∧
  (∀ n, n ∈ m_joint_names empty_MT ↔ n ∈ joints_ ci ∧ n ∈ []) ∧
  m_header_stamp empty_MT = 0%Q.
Proof.
  intros R part ci.
  split_and!; [exact scenario_D_split|exact scenario_D_lookup_A|done|..];
    apply (distributeTrajectory_part_names R two_joint_trajectory
             ["A"; "B"] scenario_D_parts 0 "A" ci part
             scenario_D_split eq_refl scenario_D_lookup_A eq_refl).
Defined.

(** Witness of X9: the part of A names j1 first, which the trajectory names
    second. *)
Lemma distributeTrajectory_values_follow_names_witness :
  let R := scenario_D_registry true false in
  let part := scenario_D_part_A in
  let single := joint_trajectory two_joint_trajectory in
  distributeTrajectory R two_joint_trajectory ["A"; "B"]
  = Some scenario_D_parts ∧
  scenario_D_parts !! 0 = Some part ∧
  joint_names (joint_trajectory part) !! 0 = Some "j1" ∧
  ∃ b, joint_names single !! b = Some "j1" ∧
       (∀ b', joint_names single !! b' = Some "j1" → b' ≤ b) ∧
       ∀ j p, points (joint_trajectory part) !! j = Some p →
         ∃ q, points single !! j = Some q ∧
           (∀ v, positions q !! b = Some v → positions p !! 0 = Some v) ∧
           (∀ v, velocities q !! b = Some v → velocities p !! 0 = Some v) ∧
           (∀ v, accelerations q !! b = Some v →
                 accelerations p !! 0 = Some v) ∧
           (positions q = [] → positions p = []) ∧
           (velocities q = [] → velocities p = []) ∧
           (accelerations q = [] → accelerations p = []).
Proof.
  intros R part single.
  split_and!; [exact scenario_D_split|done|done|].
  exact (distributeTrajectory_values_follow_names R two_joint_trajectory
           ["A"; "B"] scenario_D_parts 0 part 0 "j1"
           scenario_D_split eq_refl eq_refl).
Defined.

(** Witness of X10: A and B share no joint. *)
Lemma distributeTrajectory_partitions_joints_witness :
  let R := scenario_D_registry true false in
  pairwise_disjoint R ["A"; "B"] ∧
  distributeTrajectory R two_joint_trajectory ["A"; "B"]
  = Some scenario_D_parts ∧
  (∀ n, n ∈ joint_names (joint_trajectory two_joint_trajectory) →
        n ∈ combined_joints R ["A"; "B"] →
        ∃ i part, scenario_D_parts !! i = Some part ∧
          n ∈ joint_names (joint_trajectory part) ∧
          ∀ i' part', scenario_D_parts !! i' = Some part' →
            n ∈ joint_names (joint_trajectory part') → i' = i) ∧
  (∀ n, n ∈ m_joint_names (multi_dof_joint_trajectory two_joint_trajectory) →
        n ∈ combined_joints R ["A"; "B"] →
        ∃ i part, scenario_D_parts !! i = Some part ∧
          n ∈ m_joint_names (multi_dof_joint_trajectory part) ∧
          ∀ i' part', scenario_D_parts !! i' = Some part' →
            n ∈ m_joint_names (multi_dof_joint_trajectory part') → i' = i).
Proof.
  intros R. split; [exact scenario_D_AB_disjoint|].
  split; [exact scenario_D_split|].
  exact (distributeTrajectory_partitions_joints R two_joint_trajectory
           ["A"; "B"] scenario_D_parts scenario_D_AB_disjoint
           scenario_D_split).
Defined.

(** ** When controller selection succeeds *)


(** ** The registry after a reload *)

Lemma load_names_fold names getControllerJoints :
  ∀ (m : gmap string ControllerInformation) c,
  foldl (λ m n,
           <[n := mkInfo n (list_to_set (getControllerJoints n)) ∅
                    (mkState false false false) 0]> m) m names !! c
  = if decide (c ∈ names)
    then Some (mkInfo c (list_to_set (getControllerJoints c)) ∅
                 (mkState false false false) 0)
    else m !! c.
Proof.
  induction names as [|n names IH]; intros m c; cbn [foldl].
  - destruct (decide (c ∈ [])) as [H|]; [by apply elem_of_nil in H|done].
  - rewrite IH.
    destruct (decide (c ∈ names)) as [Hin|Hnin],
             (decide (c ∈ n :: names)) as [Hin'|Hnin']; try done.
    + exfalso. apply Hnin', elem_of_cons. by right.
    + apply elem_of_cons in Hin' as [->|?]; [|done].
      by rewrite lookup_insert_eq.
    + rewrite lookup_insert_ne; [done|]. intros ->.
      apply Hnin', elem_of_cons. by left.
Qed.

Lemma load_names_entry names getControllerJoints c :
  load_names names getControllerJoints !! c
  = if decide (c ∈ names)
    then Some (mkInfo c (list_to_set (getControllerJoints c)) ∅
                 (mkState false false false) 0)
    else None.
Proof.
  unfold load_names. rewrite load_names_fold.
  destruct (decide (c ∈ names)); [done|]. by rewrite lookup_empty.
Qed.

(** X14.  After a reload the registry holds exactly the controllers that
    the controller manager lists, each under its own name with the joints
    reported for it; and a controller is in the overlap set of another
    exactly when it is a different listed controller that shares a joint
    with it, so that overlapping is symmetric and no controller overlaps
    itself. *)
Theorem reloadControllerInformation_registry names getControllerJoints :
  let R := reloadControllerInformation names getControllerJoints in
  (∀ c, is_Some (R !! c) ↔ c ∈ names) ∧
  (∀ c ci, R !! c = Some ci →
     name_ ci = c ∧
     joints_ ci = list_to_set (getControllerJoints c) ∧
     ∀ c', c' ∈ overlapping_controllers_ ci ↔
           c' ≠ c ∧ c' ∈ names ∧
           ∃ j, j ∈ getControllerJoints c ∧ j ∈ getControllerJoints c') ∧
  (∀ c c' ci ci', R !! c = Some ci → R !! c' = Some ci' →
     c' ∈ overlapping_controllers_ ci → c ∈ overlapping_controllers_ ci').
Proof.
  intros R.
  assert (Hlook : ∀ c, R !! c
            = if decide (c ∈ names)
              then Some (mkInfo c (list_to_set (getControllerJoints c))
                           (overlaps_of (load_names names getControllerJoints)
                              c (mkInfo c
                                   (list_to_set (getControllerJoints c)) ∅
                                   (mkState false false false) 0))
                           (mkState false false false) 0)
              else None).
  { intros c. unfold R, reloadControllerInformation.
    rewrite map_lookup_imap, load_names_entry.
    destruct (decide (c ∈ names)); [|done]. simpl.
    by rewrite (left_id_L ∅ (∪)). }
  assert (Hover : ∀ c c', c ∈ names →
            c' ∈ overlaps_of (load_names names getControllerJoints) c
                   (mkInfo c (list_to_set (getControllerJoints c)) ∅
                      (mkState false false false) 0) ↔
            c' ≠ c ∧ c' ∈ names ∧
            ∃ j, j ∈ getControllerJoints c ∧ j ∈ getControllerJoints c').
  { intros c c' Hc. unfold overlaps_of. rewrite elem_of_dom. split.
    - intros [ci' H]. apply map_lookup_filter_Some in H as [H [Hne Hcap]].
      rewrite load_names_entry in H.
      destruct (decide (c' ∈ names)); [|done]. simplify_eq. simpl in *.
      split_and!; [done|done|].
      apply set_choose_L in Hcap as [j Hj]. exists j.
      rewrite elem_of_intersection, !elem_of_list_to_set in Hj. done.
    - intros (Hne & Hc' & j & Hj & Hj').
      exists (mkInfo c' (list_to_set (getControllerJoints c')) ∅
                (mkState false false false) 0).
      apply map_lookup_filter_Some. split.
      + rewrite load_names_entry. by destruct (decide (c' ∈ names)).
      + simpl. split; [done|]. intros Hemp.
        assert (Hin : j ∈ (list_to_set (getControllerJoints c) : gset string)
                          ∩ list_to_set (getControllerJoints c'))
          by (rewrite elem_of_intersection, !elem_of_list_to_set; done).
        rewrite Hemp in Hin. by apply not_elem_of_empty in Hin. }
  assert (Hentry : ∀ c ci, R !! c = Some ci →
            c ∈ names ∧ name_ ci = c ∧
            joints_ ci = list_to_set (getControllerJoints c) ∧
            ∀ c', c' ∈ overlapping_controllers_ ci ↔
                  c' ≠ c ∧ c' ∈ names ∧
                  ∃ j, j ∈ getControllerJoints c ∧ j ∈ getControllerJoints c').
  { intros c ci Hc. rewrite Hlook in Hc.
    destruct (decide (c ∈ names)) as [Hin|]; [|done]. simplify_eq. simpl.
    split_and!; try done. intros c'. by apply Hover. }
  split_and!.
  - intros c. rewrite Hlook.
    destruct (decide (c ∈ names)); split; try done; try (by intros [? ?]);
      eauto.
  - intros c ci Hc. destruct (Hentry c ci Hc) as (_ & ? & ? & ?). done.
  - intros c c' ci ci' Hc Hc' Hin.
    destruct (Hentry c ci Hc) as (Hn & _ & _ & Ho).
    destruct (Hentry c' ci' Hc') as (Hn' & _ & _ & Ho').
    apply Ho in Hin as (Hne & _ & j & Hj & Hj'). apply Ho'.
    split_and!; [done|done|]. eauto.
Qed.

(** ** Making controllers active *)

(** The order of [std::string] is transitive. *)
Lemma string_leb_trans : ∀ a b c,
  String.leb a b = true → String.leb b c = true → String.leb a c = true.
Proof.
  unfold String.leb.
  induction a as [|x a IH]; intros [|y b] [|z c]; simpl; try done.
  unfold Ascii.compare.
  destruct (N.compare_spec (Ascii.N_of_ascii x) (Ascii.N_of_ascii y));
    destruct (N.compare_spec (Ascii.N_of_ascii y) (Ascii.N_of_ascii z));
    destruct (N.compare_spec (Ascii.N_of_ascii x) (Ascii.N_of_ascii z));
    try done; try lia.
  apply IH.
Qed.

#[local] Instance string_le_trans : Transitive string_le.
Proof. intros a b c. apply string_leb_trans. Qed.

Lemma sorted_names_sorted s : StronglySorted string_le (sorted_names s).
Proof. apply StronglySorted_merge_sort; apply _. Qed.

(** The calls to the controller manager that change what is loaded and
    what runs. *)
Inductive ManagerCall :=
| LoadController (controller : string)
| SwitchControllers (activate deactivate : list string).

(** The four collections that [ensureActiveControllers] fills while it goes
    through the requested controllers. *)
Record Activation := mkActivation {
  controllers_to_activate : list string;
  controllers_to_deactivate : list string;
  joints_to_be_activated : gset string;
  joints_to_be_deactivated : gset string
}.

(** The active controllers among those that overlap [ci], in the order of
    the overlap set. *)
Definition active_overlaps (R : gmap string ControllerInformation)
    (ci : ControllerInformation) : list string :=
  filter (λ k, active_ (state_ (known R k)) = true)
    (sorted_names (overlapping_controllers_ ci)).

(** The loop over the requested controllers; [None] is the early return
    on a controller that is not known.  The controllers of an overlap set
    are looked up with [known_controllers_[...]], so that the registry is
    returned too. *)
Fixpoint scan_controllers (R : gmap string ControllerInformation)
    (controllers : list string) (a : Activation)
    : option Activation * gmap string ControllerInformation :=
  match controllers with
  | [] => (Some a, R)
  | c :: rest =>
      match R !! c with
      | None => (None, R)
      | Some ci =>
          if active_ (state_ ci) then scan_controllers R rest a
          else
            scan_controllers
              (touch_all (sorted_names (overlapping_controllers_ ci)) R) rest
              (mkActivation
                 (controllers_to_activate a ++ [c])
                 (controllers_to_deactivate a ++ active_overlaps R ci)
                 (joints_to_be_activated a ∪ joints_ ci)
                 (joints_to_be_deactivated a
                  ∪ combined_joints R (active_overlaps R ci)))
      end
  end.

(** The known controllers that overlap none of the controllers to
    activate. *)
Definition possible_additional_controllers
    (R : gmap string ControllerInformation) (to_activate : list string)
    : list string :=
  filter (λ c, Forall (λ k, k ∉ overlapping_controllers_ (known R c))
                 to_activate)
    (all_controller_names R).

(** [known_controllers_[c].last_update_ = ros::Time()]. *)
Definition reset_last_update (R : gmap string ControllerInformation)
    (c : string) : gmap string ControllerInformation :=
  let ci := known R c in
  <[c := mkInfo (name_ ci) (joints_ ci) (overlapping_controllers_ ci)
           (state_ ci) 0]> R.

Section Activation.

(** The controller manager: whether there is one, the state it reports for
    a controller, and whether it manages to load a controller and to switch
    controllers, each at the n-th reading of the outside; the clock; and
    [std::includes], which is the library's. *)
Variable manage_controllers_ : bool.
Variable std_sort : (nat → nat → bool) → list nat → list nat.
Variable has_controller_manager : bool.
Variable ros_Time_now : nat → Q.
Variable getControllerState : nat → string → ControllerState.
Variable loadController : nat → string → bool.
Variable switchControllers : nat → list string → list string → bool.
Variable std_includes : list string → list string → bool.

(** The loop that resets the time stamp of the controllers to activate and
    loads those that are not loaded; it stops at the first that cannot be
    loaded. *)
Fixpoint load_loop (to_activate : list string) (w : World)
    : bool * list ManagerCall * World :=
  match to_activate with
  | [] => (true, [], w)
  | a :: rest =>
      let R1 := reset_last_update w.1 a in
      if loaded_ (state_ (known w.1 a)) then load_loop rest (R1, w.2)
      else if loadController w.2 a then
        let r := load_loop rest (R1, S w.2) in
        (r.1.1, LoadController a :: r.1.2, r.2)
      else (false, [LoadController a], (R1, S w.2))
  end.

(** [ensureActiveControllers]: its result, the calls it makes to load and
    to switch controllers, and the registry it leaves. *)
Definition ensureActiveControllers (w : World) (controllers : list string)
    : bool * list ManagerCall * World :=
  let w1 :=
    updateControllersState has_controller_manager ros_Time_now
      getControllerState default_age w in
  if manage_controllers_ then
    match scan_controllers w1.1 controllers (mkActivation [] [] ∅ ∅) with
    | (None, R2) => (false, [], (R2, w1.2))
    | (Some a, R2) =>
        let diff := joints_to_be_deactivated a ∖ joints_to_be_activated a in
        let extended :=
          if decide (diff = ∅)
          then (Some (controllers_to_activate a), (R2, w1.2))
          else
            let s :=
              selectControllers manage_controllers_ std_sort
                has_controller_manager ros_Time_now getControllerState diff
                (possible_additional_controllers R2
                   (controllers_to_activate a)) (R2, w1.2) in
            ((λ additional_controllers,
                controllers_to_activate a ++ additional_controllers) <$> s.1,
             s.2) in
        match extended.1 with
        | None => (false, [], extended.2)
        | Some to_activate =>
            if bool_decide (to_activate ≠ [])
               || bool_decide (controllers_to_deactivate a ≠ [])
            then
              if has_controller_manager then
                let l := load_loop to_activate extended.2 in
                if l.1.1 then
                  (switchControllers l.2.2 to_activate
                     (controllers_to_deactivate a),
                   l.1.2 ++ [SwitchControllers to_activate
                               (controllers_to_deactivate a)],
                   (foldl reset_last_update l.2.1
                      (controllers_to_deactivate a), S l.2.2))
                else (false, l.1.2, l.2)
              else (false, [], extended.2)
            else (true, [], extended.2)
        end
    end
  else
    (std_includes
       (sorted_names
          (dom (filter (λ kv, active_ (state_ kv.2) = true) w1.1)))
       controllers, [], w1).

(** [ensureActiveController]. *)
Definition ensureActiveController (w : World) (controller : string)
    : bool * list ManagerCall * World :=
  ensureActiveControllers w [controller].

(** [ensureActiveControllersForJoints]. *)
Definition ensureActiveControllersForJoints (w : World)
    (joints : list string) : bool * list ManagerCall * World :=
  let s :=
    selectControllers manage_controllers_ std_sort has_controller_manager
      ros_Time_now getControllerState (list_to_set joints)
      (all_controller_names w.1) w in
  match s.1 with
  | Some selected_controllers =>
      ensureActiveControllers s.2 selected_controllers
  | None => (false, [], s.2)
  end.

(** *** The loop over the requested controllers *)

Lemma active_overlaps_elem R ci d :
  d ∈ active_overlaps R ci ↔
  active_ (state_ (known R d)) = true ∧ d ∈ overlapping_controllers_ ci.
Proof.
  unfold active_overlaps. by rewrite list_elem_of_filter, sorted_names_elem.
Qed.

Lemma combined_joints_app R l1 l2 j :
  j ∈ combined_joints R (l1 ++ l2) ↔
  j ∈ combined_joints R l1 ∨ j ∈ combined_joints R l2.
Proof.
  rewrite !combined_joints_elem. setoid_rewrite elem_of_app. firstorder.
Qed.

(** When every name of an overlap set is a key, the look-ups of the loop
    leave the registry as it is. *)
Lemma touch_overlaps R c ci :
  overlaps_known R → R !! c = Some ci →
  touch_all (sorted_names (overlapping_controllers_ ci)) R = R.
Proof.
  intros Hok Hc. apply touch_all_known. intros s Hs.
  apply sorted_names_elem in Hs. by apply (Hok c ci).
Qed.

Lemma scan_controllers_registry R controllers : ∀ a,
  overlaps_known R → (scan_controllers R controllers a).2 = R.
Proof.
  induction controllers as [|c rest IH]; intros a Hok; simpl; [done|].
  destruct (R !! c) as [ci|] eqn:Hc; [|done].
  destruct (active_ (state_ ci)); [by apply IH|].
  rewrite (touch_overlaps R c ci Hok Hc). by apply IH.
Qed.

Lemma scan_controllers_unknown R controllers : ∀ a,
  overlaps_known R →
  (∃ c, c ∈ controllers ∧ R !! c = None) →
  (scan_controllers R controllers a).1 = None.
Proof.
  induction controllers as [|c rest IH]; intros a Hok (c0 & Hin & Hc0).
  - by apply elem_of_nil in Hin.
  - simpl. destruct (R !! c) as [ci|] eqn:Hc; [|done].
    assert (Hrest : ∃ c, c ∈ rest ∧ R !! c = None).
    { apply elem_of_cons in Hin as [->|Hin]; [congruence|eauto]. }
    destruct (active_ (state_ ci)); [by apply IH|].
    rewrite (touch_overlaps R c ci Hok Hc). by apply IH.
Qed.

Lemma scan_controllers_active R controllers : ∀ a,
  (∀ c, c ∈ controllers →
        ∃ ci, R !! c = Some ci ∧ active_ (state_ ci) = true) →
  scan_controllers R controllers a = (Some a, R).
Proof.
  induction controllers as [|c rest IH]; intros a Hall; [done|].
  simpl. destruct (Hall c) as (ci & Hc & Hact); [apply elem_of_cons; by left|].
  rewrite Hc, Hact. apply IH. intros c' Hc'. apply Hall, elem_of_cons.
  by right.
Qed.

Lemma scan_controllers_spec R controllers : ∀ a0 a,
  overlaps_known R →
  (scan_controllers R controllers a0).1 = Some a →
  (∀ c, c ∈ controllers → is_Some (R !! c)) ∧
  ∃ act deact,
    controllers_to_activate a = controllers_to_activate a0 ++ act ∧
    controllers_to_deactivate a = controllers_to_deactivate a0 ++ deact ∧
    (∀ j, j ∈ joints_to_be_activated a ↔
          j ∈ joints_to_be_activated a0 ∨ j ∈ combined_joints R act) ∧
    (∀ j, j ∈ joints_to_be_deactivated a ↔
          j ∈ joints_to_be_deactivated a0 ∨ j ∈ combined_joints R deact) ∧
    (∀ c, c ∈ act ↔
          c ∈ controllers ∧ active_ (state_ (known R c)) = false) ∧
    (∀ d, d ∈ deact ↔
          active_ (state_ (known R d)) = true ∧
          ∃ c, c ∈ act ∧ d ∈ overlapping_controllers_ (known R c)).
Proof.
  induction controllers as [|c rest IH]; intros a0 a Hok Hscan.
  - simpl in Hscan. simplify_eq. split.
    { intros c Hc. by apply elem_of_nil in Hc. }
    exists [], []. rewrite !app_nil_r. split_and!; try done.
    + intros j. rewrite combined_joints_elem. split; [by left|].
      intros [?|(c & Hc & _)]; [done|by apply elem_of_nil in Hc].
    + intros j. rewrite combined_joints_elem. split; [by left|].
      intros [?|(c & Hc & _)]; [done|by apply elem_of_nil in Hc].
    + intros c. split; [intros Hc|intros [Hc _]]; by apply elem_of_nil in Hc.
    + intros d. split; [intros Hd; by apply elem_of_nil in Hd|].
      intros (_ & c & Hc & _). by apply elem_of_nil in Hc.
  - simpl in Hscan. destruct (R !! c) as [ci|] eqn:Hc; [|done].
    pose proof (known_lookup R c ci Hc) as Hk.
    destruct (active_ (state_ ci)) eqn:Hact.
    + destruct (IH a0 a Hok Hscan)
        as (Hknown & act & deact & Ha & Hd & Hja & Hjd & Hin & Hde).
      split.
      { intros c' Hc'. apply elem_of_cons in Hc' as [->|Hc']; eauto. }
      exists act, deact. split_and!; try done.
      intros c'. rewrite Hin, elem_of_cons.
      split; [intros [? ?]; split; [by right|done]|].
      intros [[->|?] Hno]; [|done]. rewrite Hk in Hno. congruence.
    + rewrite (touch_overlaps R c ci Hok Hc) in Hscan.
      destruct (IH _ a Hok Hscan)
        as (Hknown & act & deact & Ha & Hd & Hja & Hjd & Hin & Hde).
      simpl in Ha, Hd, Hja, Hjd. split.
      { intros c' Hc'. apply elem_of_cons in Hc' as [->|Hc']; eauto. }
      exists (c :: act), (active_overlaps R ci ++ deact).
      split_and!.
      * by rewrite Ha, <- app_assoc.
      * by rewrite Hd, <- app_assoc.
      * intros j. rewrite Hja, elem_of_union.
        rewrite (combined_joints_app R [c] act).
        rewrite (combined_joints_elem R j [c]).
        setoid_rewrite list_elem_of_singleton. rewrite <- Hk.
        split.
        -- intros [[?|?]|?]; [by left| |by right; right].
           right. left. eauto.
        -- intros [?|[(c0 & -> & ?)|?]];
             [by left; left|by left; right|by right].
      * intros j. rewrite Hjd, elem_of_union, combined_joints_app. tauto.
      * intros c'. rewrite !elem_of_cons, Hin. split.
        -- intros [->|[? ?]]; [|by split; [right|]].
           rewrite Hk. split; [by left|done].
        -- intros [[->|?] ?]; [by left|by right].
      * intros d. rewrite elem_of_app, active_overlaps_elem, Hde.
        setoid_rewrite elem_of_cons. rewrite <- Hk. split.
        -- intros [[? ?]|(? & c0 & ? & ?)]; (split; [done|]); eauto.
        -- intros (? & c0 & [->|?] & ?); [by left|right; eauto].
Qed.

Lemma load_loop_calls to_activate : ∀ w act deact,
  SwitchControllers act deact ∉ (load_loop to_activate w).1.2.
Proof.
  induction to_activate as [|a rest IH]; intros w act deact; simpl.
  - apply not_elem_of_nil.
  - destruct (loaded_ (state_ (known w.1 a))); [apply IH|].
    destruct (loadController w.2 a); simpl.
    + intros H. apply elem_of_cons in H as [?|H]; [done|].
      by apply IH in H.
    + intros H. apply list_elem_of_singleton in H. done.
Qed.

(** X15.  With managed controllers and a registry that satisfies its
    invariant, a request that names a controller that is not in the
    registry fails without a call to load or to switch controllers; and a
    request whose controllers are all active in the registry as
    [updateControllersState] leaves it succeeds without such a call.  Both
    leave the registry as [updateControllersState] leaves it. *)
Theorem ensureActiveControllers_makes_no_call R0 n controllers :
  manage_controllers_ = true →
  registry_wf R0 →
  let w1 := updateControllersState has_controller_manager ros_Time_now
              getControllerState default_age (R0, n) in
  ((∃ c, c ∈ controllers ∧ R0 !! c = None) →
   ensureActiveControllers (R0, n) controllers = (false, [], w1)) ∧
  ((∀ c, c ∈ controllers →
         ∃ ci, w1.1 !! c = Some ci ∧ active_ (state_ ci) = true) →
   ensureActiveControllers (R0, n) controllers = (true, [], w1)).
Proof.
  intros Hm Hwf0 w1. unfold ensureActiveControllers. fold w1. rewrite Hm.
  pose proof (updateControllersState_evolves has_controller_manager
                ros_Time_now getControllerState [] default_age (R0, n))
    as Hev.
  fold w1 in Hev. simpl in Hev.
  assert (Hok : overlaps_known w1.1).
  { apply registry_wf_overlaps_known. by apply (evolves_wf [] R0). }
  split.
  - intros (c & Hc & Hnone).
    pose proof (scan_controllers_registry w1.1 controllers
                  (mkActivation [] [] ∅ ∅) Hok) as Hreg.
    pose proof (scan_controllers_unknown w1.1 controllers
                  (mkActivation [] [] ∅ ∅) Hok) as Hscan.
    destruct (scan_controllers w1.1 controllers _) as [[a|] R2];
      simpl in *.
    + exfalso. assert (Some a = None); [|done]. apply Hscan.
      exists c. split; [done|].
      apply (evolves_lookup_None [] R0); [done|done|]. apply not_elem_of_nil.
    + subst R2. by destruct w1.
  - intros Hall. rewrite scan_controllers_active by done. simpl.
    rewrite decide_True by set_solver. simpl. by destruct w1.
Qed.

(** X16.  With managed controllers, when [ensureActiveControllers] asks
    the controller manager to switch controllers, the request is its last
    call and its result.  The registry meant is the one that
    [updateControllersState] leaves.  Every requested controller that is
    not active in it is in the list to activate.  Every controller in the
    list to deactivate is active and overlaps a requested controller that
    is not.  No controller is in both lists.  And every joint of a
    controller to deactivate is a joint of a controller to activate: no
    joint is left without a controller. *)
Theorem ensureActiveControllers_switch_request R0 n controllers act deact :
  manage_controllers_ = true →
  (∀ lt l, std_sort lt l ≡ₚ l) →
  registry_wf R0 →
  SwitchControllers act deact
  ∈ (ensureActiveControllers (R0, n) controllers).1.2 →
  let R := (updateControllersState has_controller_manager ros_Time_now
              getControllerState default_age (R0, n)).1 in
  (∃ k, (ensureActiveControllers (R0, n) controllers).1.1
        = switchControllers k act deact) ∧
  (∃ loads, (ensureActiveControllers (R0, n) controllers).1.2
            = loads ++ [SwitchControllers act deact] ∧
            ∀ a d, SwitchControllers a d ∉ loads) ∧
  (∀ c, c ∈ controllers → active_ (state_ (known R c)) = false → c ∈ act) ∧
  (∀ d, d ∈ deact →
     active_ (state_ (known R d)) = true ∧
     ∃ c, c ∈ controllers ∧ active_ (state_ (known R c)) = false ∧
          d ∈ overlapping_controllers_ (known R c)) ∧
  (∀ x, x ∈ act → x ∉ deact) ∧
  (∀ d j, d ∈ deact → j ∈ joints_ (known R d) →
          j ∈ combined_joints R act).
Proof.
  intros Hm Hperm Hwf0 Hcall. cbv zeta.
  unfold ensureActiveControllers in *.
  set (w1 := updateControllersState has_controller_manager ros_Time_now
               getControllerState default_age (R0, n)) in *.
  set (R := w1.1) in *.
  assert (Hwf : registry_wf R).
  { apply (evolves_wf [] R0); [|done].
    apply (updateControllersState_evolves has_controller_manager
             ros_Time_now getControllerState [] default_age (R0, n)). }
  pose proof (registry_wf_overlaps_known R Hwf) as Hok.
  rewrite Hm in *.
  pose proof (scan_controllers_registry R controllers
                (mkActivation [] [] ∅ ∅) Hok) as Hreg.
  pose proof (scan_controllers_spec R controllers
                (mkActivation [] [] ∅ ∅)) as Hspec.
  destruct (scan_controllers R controllers (mkActivation [] [] ∅ ∅))
    as [[a|] R2]; [|by apply elem_of_nil in Hcall].
  simpl in Hreg. subst R2.
  destruct (Hspec a Hok eq_refl)
    as (Hknown & act0 & deact0 & Ha & Hd & Hja & Hjd & Hin & Hde).
  clear Hspec. simpl in Ha, Hd, Hja, Hjd.
  set (diff := joints_to_be_deactivated a ∖ joints_to_be_activated a) in *.
  set (extended :=
         if decide (diff = ∅)
         then (Some (controllers_to_activate a), (R, w1.2))
         else
           let s :=
             selectControllers true std_sort has_controller_manager
               ros_Time_now getControllerState diff
               (possible_additional_controllers R
                  (controllers_to_activate a)) (R, w1.2) in
           ((λ additional_controllers,
               controllers_to_activate a ++ additional_controllers) <$> s.1,
            s.2)) in *.
  assert (Hext : ∀ to_activate,
            extended.1 = Some to_activate →
            ∃ additional, to_activate = act0 ++ additional ∧
              (∀ x, x ∈ additional →
                    ∀ k, k ∈ act0 →
                         k ∉ overlapping_controllers_ (known R x)) ∧
              (∀ j, j ∈ diff → j ∈ combined_joints R additional)).
  { intros to_activate Hto. unfold extended in Hto.
    destruct (decide (diff = ∅)) as [Hemp|Hne].
    - injection Hto as <-. exists []. rewrite app_nil_r.
      split_and!; [exact Ha| |].
      + intros x Hx. by apply elem_of_nil in Hx.
      + intros j Hj. rewrite Hemp in Hj. by apply not_elem_of_empty in Hj.
    - cbv zeta in Hto. simpl in Hto.
      destruct (selectControllers true std_sort has_controller_manager
                  ros_Time_now getControllerState diff _ (R, w1.2)).1
        as [add|] eqn:Hsel; [|done].
      injection Hto as <-. exists add.
      destruct (selectControllers_sound true std_sort has_controller_manager
                  ros_Time_now getControllerState Hperm diff _ (R, w1.2) add
                  Hwf Hsel) as (_ & Hsub & Hcov & _).
      split_and!; [by rewrite Ha|..].
      + intros x Hx k Hk.
        apply (sublist_subseteq _ _ Hsub) in Hx.
        unfold possible_additional_controllers in Hx.
        apply list_elem_of_filter in Hx as [Hall _].
        rewrite Forall_forall in Hall. apply Hall. rewrite Ha. done.
      + intros j Hj. by apply Hcov. }
  destruct (extended.1) as [to_activate|] eqn:Hto;
    [|by apply elem_of_nil in Hcall].
  destruct (Hext to_activate eq_refl) as (additional & -> & Hadd & Hcov).
  destruct (bool_decide _ || bool_decide _);
    [|by apply elem_of_nil in Hcall].
  destruct has_controller_manager eqn:Hcm; [|by apply elem_of_nil in Hcall].
  pose proof (load_loop_calls (act0 ++ additional) extended.2) as Hloads.
  destruct (load_loop (act0 ++ additional) extended.2) as [[ok cs] w4].
  simpl in Hloads, Hcall |- *.
  destruct ok; [|by apply Hloads in Hcall].
  simpl in Hcall |- *. apply elem_of_app in Hcall as [Hcall|Hcall];
    [by apply Hloads in Hcall|].
  apply list_elem_of_singleton in Hcall. injection Hcall as -> ->.
  rewrite Hd. simpl.
  split_and!.
  - eauto.
  - exists cs. split; [done|]. intros a' d'. apply Hloads.
  - intros c Hc Hno. apply elem_of_app. left. by apply Hin.
  - intros d Hd'. apply Hde in Hd' as (Hact & c & Hc & Ho).
    split; [done|]. apply Hin in Hc as [Hc Hno]. eauto.
  - intros x Hx Hxd. apply Hde in Hxd as (Hact & c & Hc & Ho).
    apply elem_of_app in Hx as [Hx|Hx].
    + apply Hin in Hx as [_ Hno]. congruence.
    + apply (Hadd x Hx c Hc).
      pose proof Hc as Hc'. apply Hin in Hc' as [Hcin _].
      destruct (Hknown c Hcin) as [ci Hci].
      rewrite (known_lookup R c ci Hci) in Ho.
      apply (Hwf c ci x Hci) in Ho as (Hne & xi & Hxi & Hcap).
      rewrite (known_lookup R x xi Hxi).
      apply (Hwf x xi c Hxi). split; [done|].
      exists ci. split; [done|]. by rewrite (comm_L (∩)).
  - intros d j Hd' Hj.
    assert (Hjd' : j ∈ joints_to_be_deactivated a).
    { apply Hjd. right. apply combined_joints_elem. eauto. }
    apply combined_joints_app.
    destruct (decide (j ∈ joints_to_be_activated a)) as [Hja'|Hnja].
    + left. apply Hja in Hja' as [Hemp|?]; [|done].
      by apply not_elem_of_empty in Hemp.
    + right. apply Hcov. unfold diff. by apply elem_of_difference.
Qed.

(** What is relied on of [std::includes]: on two ranges in increasing
    order without repetition, it tells whether every element of the second
    is in the first. *)
Hypothesis std_includes_sorted : ∀ a b,
  StronglySorted string_le a → NoDup a →
  StronglySorted string_le b → NoDup b →
  (std_includes a b = true ↔ b ⊆ a).

(** X17.  When controllers are not managed, [ensureActiveControllers]
    never asks to load or to switch a controller, and it leaves the
    registry as [updateControllersState] leaves it; for a request in
    increasing name order without repetition it succeeds exactly when every
    requested controller is in that registry and active in it. *)
Theorem ensureActiveControllers_unmanaged R0 n controllers :
  manage_controllers_ = false →
  StronglySorted string_le controllers → NoDup controllers →
  let w1 := updateControllersState has_controller_manager ros_Time_now
              getControllerState default_age (R0, n) in
  (ensureActiveControllers (R0, n) controllers).1.2 = [] ∧
  (ensureActiveControllers (R0, n) controllers).2 = w1 ∧
  ((ensureActiveControllers (R0, n) controllers).1.1 = true ↔
   ∀ c, c ∈ controllers →
        ∃ ci, w1.1 !! c = Some ci ∧ active_ (state_ ci) = true).
Proof.
  intros Hm Hsorted Hnd w1. unfold ensureActiveControllers. fold w1.
  rewrite Hm. simpl.
  split; [done|]. split; [done|].
  rewrite std_includes_sorted;
    [|apply sorted_names_sorted|apply sorted_names_NoDup|done|done].
  split.
  - intros Hsub c Hc. apply Hsub in Hc.
    apply sorted_names_elem, elem_of_dom in Hc as [ci Hci].
    apply map_lookup_filter_Some in Hci as [Hci Hact]. eauto.
  - intros Hall c Hc. destruct (Hall c Hc) as (ci & Hci & Hact).
    apply sorted_names_elem, elem_of_dom. exists ci.
    by apply map_lookup_filter_Some.
Qed.

End Activation.

(** *** Scenario D: activation *)

Definition loads_all (_ : nat) (_ : string) : bool := true.
Definition switches_all (_ : nat) (_ _ : list string) : bool := true.

(** A stand-in for [std::includes] where a run is computed. *)
Definition includes_all (a b : list string) : bool := bool_decide (b ⊆ a).

Lemma includes_all_sorted a b :
  StronglySorted string_le a → NoDup a →
  StronglySorted string_le b → NoDup b →
  (includes_all a b = true ↔ b ⊆ a).
Proof. intros _ _ _ _. apply bool_decide_eq_true. Qed.

(** C is active, A and B are not; A is requested. *)
Lemma scenario_D_switch :
  (ensureActiveControllers true insertion_sort true scenario_D_clock
     (scenario_D_reports false true) loads_all switches_all includes_all
     (scenario_D_loaded, 0) ["A"]).1
  = (true, [SwitchControllers ["A"; "B"] ["C"]]).
Proof. by vm_compute. Qed.

Lemma scenario_D_unknown_Z :
  ∃ c, c ∈ ["A"; "Z"] ∧ scenario_D_loaded !! c = None.
Proof.
  exists "Z". split; [|by vm_compute].
  apply elem_of_cons. right. by apply list_elem_of_singleton.
Qed.

Lemma scenario_D_active_A c :
  c ∈ ["A"] →
  ∃ ci, (updateControllersState true scenario_D_clock
           (scenario_D_reports true false) default_age
           (scenario_D_loaded, 0)).1 !! c = Some ci ∧
        active_ (state_ ci) = true.
Proof.
  intros Hc. apply list_elem_of_singleton in Hc as ->.
  exists (known (scenario_D_registry true false) "A").
  split; by vm_compute.
Qed.

Lemma scenario_D_loaded_wf : registry_wf scenario_D_loaded.
Proof. apply reloadControllerInformation_wf. Qed.

(** Witness of X15: with managed controllers and the registry that was
    just loaded, a request for A and for Z, which is not known, and a
    request for A, which the controller manager reports active. *)
Lemma ensureActiveControllers_makes_no_call_witness :
  let run := ensureActiveControllers true insertion_sort true
               scenario_D_clock (scenario_D_reports true false) loads_all
               switches_all includes_all (scenario_D_loaded, 0) in
  let w1 := updateControllersState true scenario_D_clock
              (scenario_D_reports true false) default_age
              (scenario_D_loaded, 0) in
  run ["A"; "Z"] = (false, [], w1) ∧ run ["A"] = (true, [], w1).
Proof.
  intros run w1. split.
  - exact (proj1 (ensureActiveControllers_makes_no_call true insertion_sort
                    true scenario_D_clock (scenario_D_reports true false)
                    loads_all switches_all includes_all scenario_D_loaded 0
                    ["A"; "Z"] eq_refl scenario_D_loaded_wf)
             scenario_D_unknown_Z).
  - exact (proj2 (ensureActiveControllers_makes_no_call true insertion_sort
                    true scenario_D_clock (scenario_D_reports true false)
                    loads_all switches_all includes_all scenario_D_loaded 0
                    ["A"] eq_refl scenario_D_loaded_wf)
             scenario_D_active_A).
Defined.

(** Witness of X16: activating A takes C down, which leaves j3 and j4
    to B. *)
Lemma ensureActiveControllers_switch_request_witness :
  let R0 := scenario_D_loaded in
  let R := scenario_D_registry false true in
  let r := ensureActiveControllers true insertion_sort true
             scenario_D_clock (scenario_D_reports false true) loads_all
             switches_all includes_all (R0, 0) ["A"] in
  registry_wf R0 ∧
  SwitchControllers ["A"; "B"] ["C"] ∈ r.1.2 ∧
  (∃ k, r.1.1 = switches_all k ["A"; "B"] ["C"]) ∧
  (∃ loads, r.1.2 = loads ++ [SwitchControllers ["A"; "B"] ["C"]] ∧
            ∀ a d, SwitchControllers a d ∉ loads) ∧
  (∀ c, c ∈ ["A"] → active_ (state_ (known R c)) = false →
        c ∈ ["A"; "B"]) ∧
  (∀ d, d ∈ ["C"] →
     active_ (state_ (known R d)) = true ∧
     ∃ c, c ∈ ["A"] ∧ active_ (state_ (known R c)) = false ∧
          d ∈ overlapping_controllers_ (known R c)) ∧
  (∀ x, x ∈ ["A"; "B"] → x ∉ ["C"]) ∧
  (∀ d j, d ∈ ["C"] → j ∈ joints_ (known R d) →
          j ∈ combined_joints R ["A"; "B"]).
Proof.
  intros R0 R r.
  assert (Hcall : SwitchControllers ["A"; "B"] ["C"] ∈ r.1.2).
  { unfold r, R0. rewrite scenario_D_switch.
    by apply list_elem_of_singleton. }
  split; [exact scenario_D_loaded_wf|].
  split; [exact Hcall|].
  exact (ensureActiveControllers_switch_request true insertion_sort true
           scenario_D_clock (scenario_D_reports false true) loads_all
           switches_all includes_all R0 0 ["A"] ["A"; "B"] ["C"] eq_refl
           insertion_sort_perm scenario_D_loaded_wf Hcall).
Defined.

Lemma scenario_D_request_sorted :
  StronglySorted string_le ["A"; "B"] ∧ NoDup ["A"; "B"].
Proof.
  split.
  - repeat constructor.
  - apply NoDup_cons. split; [|apply NoDup_singleton].
    intros H. apply list_elem_of_singleton in H. done.
Qed.

(** Witness of X17: A and B are reported active and requested. *)
Lemma ensureActiveControllers_unmanaged_witness :
  let r := ensureActiveControllers false insertion_sort true
             scenario_D_clock (scenario_D_reports true false) loads_all
             switches_all includes_all (scenario_D_loaded, 0) ["A"; "B"] in
  let w1 := updateControllersState true scenario_D_clock
              (scenario_D_reports true false) default_age
              (scenario_D_loaded, 0) in
  StronglySorted string_le ["A"; "B"] ∧ NoDup ["A"; "B"] ∧
  r.1.2 = [] ∧ r.2 = w1 ∧
  (r.1.1 = true ↔
   ∀ c, c ∈ ["A"; "B"] →
        ∃ ci, w1.1 !! c = Some ci ∧ active_ (state_ ci) = true).
Proof.
  intros r w1.
  split; [exact (proj1 scenario_D_request_sorted)|].
  split; [exact (proj2 scenario_D_request_sorted)|].
  exact (ensureActiveControllers_unmanaged false insertion_sort true
           scenario_D_clock (scenario_D_reports true false) loads_all
           switches_all includes_all includes_all_sorted scenario_D_loaded 0
           ["A"; "B"] eq_refl (proj1 scenario_D_request_sorted)
           (proj2 scenario_D_request_sorted)).
Defined.

(** ** Queueing a trajectory *)

(** The execution state together with the controller registry and the
    number of readings of the outside made so far. *)
Record TrajectoryExecutionManager := mkTEM {
  manager : Manager;
  known_controllers_ : gmap string ControllerInformation;
  readings : nat
}.

Definition actuated_joints_of (trajectory : RobotTrajectory) : gset string :=
  list_to_set (m_joint_names (multi_dof_joint_trajectory trajectory))
  ∪ list_to_set (joint_names (joint_trajectory trajectory)).

Definition all_known (R : gmap string ControllerInformation)
    (controllers : list string) : bool :=
  forallb (λ c, bool_decide (is_Some (R !! c))) controllers.

(** Every joint of the trajectory that one of the controllers drives is
    named by a part. *)
Lemma distribute_some_part_per_joint R trajectory controllers parts :
  distributeTrajectory R trajectory controllers = Some parts →
  (∀ n, n ∈ joint_names (joint_trajectory trajectory) →
        n ∈ combined_joints R controllers →
        ∃ i part, parts !! i = Some part ∧
          n ∈ joint_names (joint_trajectory part)) ∧
  (∀ n, n ∈ m_joint_names (multi_dof_joint_trajectory trajectory) →
        n ∈ combined_joints R controllers →
        ∃ i part, parts !! i = Some part ∧
          n ∈ m_joint_names (multi_dof_joint_trajectory part)).
Proof.
  intros E.
  assert (Hlen : length parts = length controllers).
  { unfold distributeTrajectory in E. apply mapM_Some in E.
    symmetry. by eapply Forall2_length. }
  assert (Hpart : ∀ i c, controllers !! i = Some c →
            ∃ ci part, R !! c = Some ci ∧ parts !! i = Some part ∧
              part = mkRT (distribute_single ci (joint_trajectory trajectory))
                       (distribute_mdof ci
                          (multi_dof_joint_trajectory trajectory))).
  { intros i c Hc.
    destruct (parts !! i) as [part|] eqn:Hi.
    - destruct (distributeTrajectory_lookup _ _ _ _ _ _ E Hi)
        as (c' & ci & Hc' & Hci & ->). simplify_eq. eauto.
    - apply lookup_ge_None in Hi. apply lookup_lt_Some in Hc. lia. }
  split.
  - intros n Hn Hcov. apply combined_joints_elem in Hcov as (c & Hc & Hnc).
    apply list_elem_of_lookup in Hc as [i Hc].
    destruct (Hpart i c Hc) as (ci & part & Hci & Hi & ->).
    unfold known in Hnc. rewrite Hci in Hnc. simpl in Hnc.
    exists i. eexists. split; [done|]. simpl.
    by rewrite distribute_single_names, set_intersection_elem,
      elem_of_list_to_set.
  - intros n Hn Hcov. apply combined_joints_elem in Hcov as (c & Hc & Hnc).
    apply list_elem_of_lookup in Hc as [i Hc].
    destruct (Hpart i c Hc) as (ci & part & Hci & Hi & ->).
    unfold known in Hnc. rewrite Hci in Hnc. simpl in Hnc.
    exists i. eexists. split; [done|]. simpl.
    by rewrite distribute_mdof_names, set_intersection_elem,
      elem_of_list_to_set.
Qed.

Section Queue.

(** What [reloadControllerInformation] reads from the controller manager:
    the controllers it lists (none when there is no controller manager) and
    the joints of each.  The selection reads the clock and the states that
    the controller manager reports, as above. *)
Variable manage_controllers_ : bool.
Variable std_sort : (nat → nat → bool) → list nat → list nat.
Variable has_controller_manager : bool.
Variable ros_Time_now : nat → Q.
Variable getControllerState : nat → string → ControllerState.
Variable getControllersList : list string.
Variable getControllerJoints : string → list string.

Definition reload : gmap string ControllerInformation :=
  reloadControllerInformation getControllersList getControllerJoints.

(** One pass of selection and splitting over the available controllers:
    [None] when the selection fails, otherwise the context, if the split
    succeeds; and the registry that the selection leaves. *)
Definition select_and_distribute (w : World)
    (trajectory : RobotTrajectory) (available : list string)
    : option (option TrajectoryExecutionContext) * World :=
  let s :=
    selectControllers manage_controllers_ std_sort has_controller_manager
      ros_Time_now getControllerState (actuated_joints_of trajectory)
      available w in
  (match s.1 with
   | Some selected =>
       Some (mkContext selected
               <$> distributeTrajectory s.2.1 trajectory selected)
   | None => None
   end, s.2).

(** [configure]: the registry it leaves and the context it fills, if it
    returns true. *)
Definition configure (w : World)
    (trajectory : RobotTrajectory) (controllers : list string)
    : World * option TrajectoryExecutionContext :=
  if bool_decide (m_points (multi_dof_joint_trajectory trajectory) = [])
     && bool_decide (points (joint_trajectory trajectory) = [])
  then (w, None)
  else if decide (actuated_joints_of trajectory = ∅) then (w, None)
  else
    match controllers with
    | [] =>
        let s1 := select_and_distribute w trajectory
                    (all_controller_names w.1) in
        match s1.1 with
        | Some result => (s1.2, result)
        | None =>
            let s2 := select_and_distribute (reload, s1.2.2) trajectory
                        (all_controller_names reload) in
            match s2.1 with
            | Some result => (s2.2, result)
            | None => (s2.2, None)
            end
        end
    | _ =>
        let reloaded := negb (all_known w.1 controllers) in
        let w1 := if reloaded then (reload, w.2) else w in
        if reloaded && negb (all_known w1.1 controllers) then (w1, None)
        else
          let s := select_and_distribute w1 trajectory controllers in
          match s.1 with
          | Some result => (s.2, result)
          | None => (s.2, None)
          end
    end.

(** [push] of a trajectory with a list of controllers. *)
Definition push (t : TrajectoryExecutionManager)
    (trajectory : RobotTrajectory) (controllers : list string)
    : bool * TrajectoryExecutionManager :=
  let m := manager t in
  if negb (execution_complete_ m) then (false, t)
  else
    match configure (known_controllers_ t, readings t) trajectory
            controllers with
    | (w', Some context) =>
        (true,
         mkTEM (mkManager (execution_complete_ m) (last_execution_status_ m)
                  (trajectories_ m ++ [context]) (active_handles_ m)
                  (current_context_ m) (calls m) (self_join_ m)) w'.1 w'.2)
    | (w', None) => (false, mkTEM m w'.1 w'.2)
    end.

(** [push] with the name of one controller, empty for none. *)
Definition push_to (t : TrajectoryExecutionManager)
    (trajectory : RobotTrajectory) (controller : string)
    : bool * TrajectoryExecutionManager :=
  if String.eqb controller "" then push t trajectory []
  else push t trajectory [controller].

(** [push] of a joint trajectory. *)
Definition push_joint_trajectory (t : TrajectoryExecutionManager)
    (trajectory : JointTrajectory) (controllers : list string)
    : bool * TrajectoryExecutionManager :=
  push t (mkRT trajectory empty_MT) controllers.

Lemma all_known_spec R controllers :
  all_known R controllers = true ↔ ∀ c, c ∈ controllers → is_Some (R !! c).
Proof.
  unfold all_known. rewrite forallb_forall. split.
  - intros H c Hc. apply list_elem_of_In in Hc. apply H in Hc.
    by apply bool_decide_eq_true_1 in Hc.
  - intros H c Hc. apply bool_decide_eq_true_2. apply H.
    by apply list_elem_of_In.
Qed.

Lemma all_known_false R controllers :
  all_known R controllers = false →
  ∃ c, c ∈ controllers ∧ R !! c = None.
Proof.
  unfold all_known. induction controllers as [|a rest IH]; simpl; [done|].
  destruct (R !! a) as [ci|] eqn:E.
  - rewrite bool_decide_eq_true_2 by eauto. simpl. intros H.
    destruct (IH H) as (c & Hc & Hnone). exists c. split; [|done].
    apply elem_of_cons. by right.
  - intros _. exists a. split; [|done]. apply elem_of_cons. by left.
Qed.

Hypothesis std_sort_perm : ∀ lt l, std_sort lt l ≡ₚ l.

(** What a pass of selection and splitting among known controllers leaves
    and returns. *)
Definition well_formed_context (available : list string)
    (R' : gmap string ControllerInformation) (trajectory : RobotTrajectory)
    (context : TrajectoryExecutionContext) : Prop :=
  controllers_ context `sublist_of` available ∧
  controllers_ context ≠ [] ∧
  admissible R' [] (controllers_ context) ∧
  covers R' (actuated_joints_of trajectory) (controllers_ context) ∧
  length (trajectory_parts_ context) = length (controllers_ context) ∧
  distributeTrajectory R' trajectory (controllers_ context)
  = Some (trajectory_parts_ context).

Lemma select_and_distribute_registry w trajectory available :
  registry_wf w.1 →
  (∀ c, c ∈ available → is_Some (w.1 !! c)) →
  registry_wf (select_and_distribute w trajectory available).2.1 ∧
  dom (select_and_distribute w trajectory available).2.1 = dom w.1.
Proof.
  intros Hwf Hknown. unfold select_and_distribute. simpl.
  pose proof (selectControllers_evolves manage_controllers_ std_sort
                has_controller_manager ros_Time_now getControllerState
                (actuated_joints_of trajectory) available w) as Hev.
  split; [by eapply evolves_wf|by eapply evolves_dom].
Qed.

(** The split of a selection among known controllers succeeds, and the
    context it yields is well formed. *)
Lemma select_and_distribute_sound w trajectory available result :
  registry_wf w.1 →
  (∀ c, c ∈ available → is_Some (w.1 !! c)) →
  (select_and_distribute w trajectory available).1 = Some result →
  ∃ context, result = Some context ∧
    well_formed_context available
      (select_and_distribute w trajectory available).2.1 trajectory context.
Proof.
  intros Hwf Hknown. unfold select_and_distribute. simpl.
  pose proof (selectControllers_evolves manage_controllers_ std_sort
                has_controller_manager ros_Time_now getControllerState
                (actuated_joints_of trajectory) available w) as Hev.
  pose proof (selectControllers_sound manage_controllers_ std_sort
                has_controller_manager ros_Time_now getControllerState
                std_sort_perm (actuated_joints_of trajectory) available w)
    as Hsound.
  destruct (selectControllers _ _ _ _ _ _ available w) as [[sel|] w'];
    simpl in *; [|done].
  intros [= <-].
  destruct (Hsound sel Hwf eq_refl) as (Hne & Hsub & Hcov & Hadm & _).
  assert (Hadm' : admissible w'.1 [] sel)
    by (apply (admissible_ext w.1 w'.1); [apply Hev|done]).
  destruct (distributeTrajectory w'.1 trajectory sel) as [parts|] eqn:Hdist.
  - exists (mkContext sel parts). simpl. split; [done|].
    unfold well_formed_context. simpl. split_and!; try done.
    + by apply (evolves_covers available w.1 w'.1).
    + unfold distributeTrajectory in Hdist. apply mapM_Some in Hdist.
      symmetry. by eapply Forall2_length.
  - exfalso. unfold distributeTrajectory in Hdist.
    apply mapM_None, Exists_exists in Hdist as (c & Hc & Hnone).
    apply (sublist_subseteq _ _ Hsub), Hknown in Hc.
    apply (proj1 (proj2 Hev)) in Hc as [ci Hci].
    by rewrite Hci in Hnone.
Qed.

Lemma select_and_distribute_None w trajectory available :
  registry_wf w.1 →
  (∀ c, c ∈ available → is_Some (w.1 !! c)) →
  (select_and_distribute w trajectory available).1 = None →
  let R' := (select_and_distribute w trajectory available).2.1 in
  ∀ S', S' `sublist_of` available → pairwise_disjoint R' S' →
        covers R' (actuated_joints_of trajectory) S' → S' = [].
Proof.
  intros Hwf Hknown Hnone R' S' Hsub Hd Hcov. subst R'.
  unfold select_and_distribute in *. simpl in *.
  pose proof (selectControllers_evolves manage_controllers_ std_sort
                has_controller_manager ros_Time_now getControllerState
                (actuated_joints_of trajectory) available w) as Hev.
  eapply (selectControllers_fails_no_cover manage_controllers_
            std_sort has_controller_manager ros_Time_now
            getControllerState (actuated_joints_of trajectory)
            available w Hwf); try done.
  - by destruct (selectControllers _ _ _ _ _ _ available w) as [[?|] ?].
  - by apply (evolves_pairwise_disjoint available w.1 _ S' Hev).
  - by apply (evolves_covers available w.1 _ _ S' Hev).
Qed.

Lemma reload_wf : registry_wf reload.
Proof. apply reloadControllerInformation_wf. Qed.

(** What [configure] returns when it returns true. *)
Lemma configure_sound w trajectory controllers w' context :
  registry_wf w.1 →
  configure w trajectory controllers = (w', Some context) →
  registry_wf w'.1 ∧
  (controllers ≠ [] → controllers_ context `sublist_of` controllers) ∧
  (NoDup controllers → NoDup (controllers_ context)) ∧
  (∀ c, c ∈ controllers_ context → is_Some (w'.1 !! c)) ∧
  ∃ available, well_formed_context available w'.1 trajectory context.
Proof.
  intros Hwf. unfold configure.
  destruct (_ && _); [done|].
  destruct (decide (actuated_joints_of trajectory = ∅)); [done|].
  assert (Hpass : ∀ w0 available result,
            registry_wf w0.1 →
            (∀ c, c ∈ available → is_Some (w0.1 !! c)) →
            NoDup available ∨ available = controllers →
            (controllers ≠ [] → available = controllers) →
            (select_and_distribute w0 trajectory available).1 = Some result →
            ((select_and_distribute w0 trajectory available).2, result)
            = (w', Some context) →
            registry_wf w'.1 ∧
            (controllers ≠ [] →
             controllers_ context `sublist_of` controllers) ∧
            (NoDup controllers → NoDup (controllers_ context)) ∧
            (∀ c, c ∈ controllers_ context → is_Some (w'.1 !! c)) ∧
            ∃ available,
              well_formed_context available w'.1 trajectory context).
  { intros w0 available result Hwf0 Hknown Hnd Hcs Hsel Heq.
    destruct (select_and_distribute_sound w0 trajectory available result
                Hwf0 Hknown Hsel) as (ctx & -> & Hctx).
    destruct (select_and_distribute_registry w0 trajectory available
                Hwf0 Hknown) as [Hwf' Hdom].
    injection Heq as <- <-.
    pose proof Hctx as (Hsub & _).
    split_and!; [done| | | |by exists available].
    - intros Hne. by rewrite <- (Hcs Hne).
    - intros Hndc. eapply sublist_NoDup; [|exact Hsub].
      destruct Hnd as [?| ->]; done.
    - intros c Hc. apply (sublist_subseteq _ _ Hsub), Hknown in Hc.
      unfold select_and_distribute in Hdom. simpl in Hdom.
      apply elem_of_dom. rewrite Hdom. by apply elem_of_dom. }
  destruct controllers as [|c0 cs].
  - cbv zeta.
    destruct (select_and_distribute w trajectory
                (all_controller_names w.1)).1 as [result|] eqn:H1.
    + intros Heq.
      apply (Hpass w (all_controller_names w.1) result); try done.
      * apply all_controller_names_known.
      * left. apply sorted_names_NoDup.
    + set (w1 := (reload, (select_and_distribute w trajectory
                             (all_controller_names w.1)).2.2)).
      destruct (select_and_distribute w1 trajectory
                  (all_controller_names reload)).1 as [result|] eqn:H2;
        [|done].
      intros Heq.
      apply (Hpass w1 (all_controller_names reload) result); try done.
      * apply reload_wf.
      * apply all_controller_names_known.
      * left. apply sorted_names_NoDup.
  - set (controllers := c0 :: cs). cbv zeta.
    destruct (all_known w.1 controllers) eqn:Hk; cbn [negb andb fst snd].
    + destruct (select_and_distribute w trajectory controllers).1
        as [result|] eqn:H1; [|done].
      intros Heq. rewrite all_known_spec in Hk.
      apply (Hpass w controllers result); try done. by right.
    + destruct (all_known reload controllers) eqn:Hk'; cbn [negb andb];
        [|done].
      destruct (select_and_distribute (reload, w.2) trajectory
                  controllers).1 as [result|] eqn:H1; [|done].
      intros Heq. rewrite all_known_spec in Hk'.
      apply (Hpass (reload, w.2) controllers result); try done.
      * apply reload_wf.
      * by right.
Qed.

(** X18.  A trajectory is queued only when no execution is in flight, and
    then [push] either returns false and leaves the queue as it is, or
    returns true and appends one context to the queue.  The controllers of
    that context are known, drawn from the requested ones when some are
    requested, and two different controllers of it share no joint; the
    context has one part per controller; and every joint that the
    trajectory names, single or multi-DOF, is named by a part.  When no
    requested controller is listed twice, the controllers of the context
    are without repetition and pairwise joint-disjoint, and every joint is
    named by exactly one of the parts. *)
Theorem push_appends_a_well_formed_context t trajectory controllers :
  registry_wf (known_controllers_ t) →
  let r := push t trajectory controllers in
  let R' := known_controllers_ r.2 in
  (execution_complete_ (manager t) = false → r = (false, t)) ∧
  (r.1 = false → manager r.2 = manager t) ∧
  (r.1 = true →
   ∃ context,
     trajectories_ (manager r.2) = trajectories_ (manager t) ++ [context] ∧
     (controllers ≠ [] → controllers_ context `sublist_of` controllers) ∧
     (∀ c, c ∈ controllers_ context → is_Some (R' !! c)) ∧
     (∀ i j ci cj, i ≠ j → controllers_ context !! i = Some ci →
        controllers_ context !! j = Some cj → ci ≠ cj →
        joints_ (known R' ci) ## joints_ (known R' cj)) ∧
     (NoDup controllers →
      NoDup (controllers_ context) ∧
      pairwise_disjoint R' (controllers_ context)) ∧
     length (trajectory_parts_ context) = length (controllers_ context) ∧
     (∀ n, n ∈ joint_names (joint_trajectory trajectory) →
        ∃ i part, trajectory_parts_ context !! i = Some part ∧
          n ∈ joint_names (joint_trajectory part) ∧
          (NoDup controllers →
           ∀ i' part', trajectory_parts_ context !! i' = Some part' →
             n ∈ joint_names (joint_trajectory part') → i' = i)) ∧
     (∀ n, n ∈ m_joint_names (multi_dof_joint_trajectory trajectory) →
        ∃ i part, trajectory_parts_ context !! i = Some part ∧
          n ∈ m_joint_names (multi_dof_joint_trajectory part) ∧
          (NoDup controllers →
           ∀ i' part', trajectory_parts_ context !! i' = Some part' →
             n ∈ m_joint_names (multi_dof_joint_trajectory part') →
             i' = i))).
Proof.
  intros Hwf r R'. subst R' r. unfold push.
  destruct (execution_complete_ (manager t)) eqn:Hc; simpl.
  2:{ split_and!; done. }
  destruct (configure (known_controllers_ t, readings t) trajectory
              controllers) as [w1 [context|]] eqn:Hconf; simpl.
  2:{ split_and!; done. }
  destruct (configure_sound (known_controllers_ t, readings t) _ _ _ _
              Hwf Hconf)
    as (Hwf1 & Hsub & Hnd & Hknown & available & Hctx).
  destruct Hctx as (_ & _ & Hadm & Hcov & Hlen & Hdist).
  split_and!; [done|done|]. intros _. exists context.
  assert (Hd : NoDup controllers →
               pairwise_disjoint w1.1 (controllers_ context)).
  { intros Hndc. apply admissible_NoDup_disjoint; auto. }
  destruct (distribute_some_part_per_joint w1.1 trajectory _ _ Hdist)
    as [Hsome Hmsome].
  assert (Hsingle_in : ∀ n, n ∈ joint_names (joint_trajectory trajectory) →
            n ∈ combined_joints w1.1 (controllers_ context)).
  { intros n Hn. apply Hcov. unfold actuated_joints_of.
    apply elem_of_union. right. by apply elem_of_list_to_set. }
  assert (Hmdof_in : ∀ n,
            n ∈ m_joint_names (multi_dof_joint_trajectory trajectory) →
            n ∈ combined_joints w1.1 (controllers_ context)).
  { intros n Hn. apply Hcov. unfold actuated_joints_of.
    apply elem_of_union. left. by apply elem_of_list_to_set. }
  split_and!; try done.
  - intros i j ci cj Hij Hi Hj Hne.
    by apply (admissible_disjoint_names w1.1 (controllers_ context) i j).
  - intros Hndc. split; [by apply Hnd|by apply Hd].
  - intros n Hn. destruct (decide (NoDup controllers)) as [Hndc|Hdup].
    + destruct (distribute_one_part_per_joint w1.1 trajectory _ _
                  (Hd Hndc) Hdist) as [Hsingle _].
      destruct (Hsingle n Hn (Hsingle_in n Hn)) as (i & part & ? & ? & ?).
      exists i, part. split_and!; try done.
    + destruct (Hsome n Hn (Hsingle_in n Hn)) as (i & part & ? & ?).
      exists i, part. split_and!; try done.
  - intros n Hn. destruct (decide (NoDup controllers)) as [Hndc|Hdup].
    + destruct (distribute_one_part_per_joint w1.1 trajectory _ _
                  (Hd Hndc) Hdist) as [_ Hmdof].
      destruct (Hmdof n Hn (Hmdof_in n Hn)) as (i & part & ? & ? & ?).
      exists i, part. split_and!; try done.
    + destruct (Hmsome n Hn (Hmdof_in n Hn)) as (i & part & ? & ?).
      exists i, part. split_and!; try done.
Qed.

(** X19.  [push] fails for one of these reasons only: an execution is in
    flight; the trajectory has no point; the trajectory names no joint;
    a requested controller is not known after the registry was reloaded; or
    no non-empty sublist of the requested controllers (of the known ones,
    when none is requested) is pairwise joint-disjoint and covers the joints
    of the trajectory.  The split never makes it fail. *)
Theorem push_fails_for_a_reason t trajectory controllers :
  registry_wf (known_controllers_ t) →
  let r := push t trajectory controllers in
  let R' := known_controllers_ r.2 in
  r.1 = false →
  execution_complete_ (manager t) = false ∨
  (m_points (multi_dof_joint_trajectory trajectory) = [] ∧
   points (joint_trajectory trajectory) = []) ∨
  actuated_joints_of trajectory = ∅ ∨
  (R' = reload ∧ ∃ c, c ∈ controllers ∧ R' !! c = None) ∨
  (∀ S', S' `sublist_of`
           (match controllers with
            | [] => all_controller_names R'
            | _ => controllers
            end) →
         pairwise_disjoint R' S' →
         covers R' (actuated_joints_of trajectory) S' → S' = []).
Proof.
  intros Hwf r R'. subst R' r. unfold push.
  destruct (execution_complete_ (manager t)) eqn:Hc; simpl; [|by left].
  intros Hfalse. right.
  set (w := (known_controllers_ t, readings t)) in *.
  assert (Hpass : ∀ w0 available,
            registry_wf w0.1 →
            (∀ c, c ∈ available → is_Some (w0.1 !! c)) →
            (let s := select_and_distribute w0 trajectory available in
             match s.1 with
             | Some result => (s.2, result)
             | None => (s.2, None)
             end).2 = None →
            let R' := (select_and_distribute w0 trajectory available).2.1 in
            dom R' = dom w0.1 ∧
            ∀ S', S' `sublist_of` available → pairwise_disjoint R' S' →
                  covers R' (actuated_joints_of trajectory) S' → S' = []).
  { intros w0 available Hwf0 Hknown Hres. cbv zeta in *.
    destruct (select_and_distribute_registry w0 trajectory available
                Hwf0 Hknown) as [_ Hdom].
    split; [done|].
    destruct (select_and_distribute w0 trajectory available).1
      as [result|] eqn:H1.
    - exfalso.
      destruct (select_and_distribute_sound w0 trajectory available result
                  Hwf0 Hknown H1) as (ctx & -> & _).
      simpl in Hres. done.
    - by apply select_and_distribute_None. }
  unfold configure in *.
  destruct (bool_decide _ && bool_decide _) eqn:Hempty.
  { left. apply andb_true_iff in Hempty as [H1 H2].
    by apply bool_decide_eq_true_1 in H1, H2. }
  right.
  destruct (decide (actuated_joints_of trajectory = ∅)) as [HJ|HJ];
    [by left|].
  right. destruct controllers as [|c0 cs].
  - right. cbv zeta in *.
    destruct (select_and_distribute w trajectory
                (all_controller_names w.1)).1 as [result|] eqn:H1.
    + exfalso.
      destruct (select_and_distribute_sound w trajectory _ result Hwf
                  (all_controller_names_known _) H1) as (ctx & -> & _).
      simpl in Hfalse. done.
    + set (w1 := (reload, (select_and_distribute w trajectory
                             (all_controller_names w.1)).2.2)) in *.
      destruct (Hpass w1 (all_controller_names reload) reload_wf
                  (all_controller_names_known reload)) as [Hdom Hnone].
      { cbv zeta.
        destruct (select_and_distribute w1 trajectory
                    (all_controller_names reload)).1 as [[?|]|];
          simpl in *; done. }
      destruct (select_and_distribute w1 trajectory
                  (all_controller_names reload)).1 as [[?|]|];
        simpl in *; try done.
      * unfold all_controller_names at 1. rewrite Hdom. exact Hnone.
      * unfold all_controller_names at 1. rewrite Hdom. exact Hnone.
  - set (controllers := c0 :: cs) in *. cbv zeta in *.
    destruct (all_known w.1 controllers) eqn:Hk; cbn [negb andb fst snd] in *.
    + right. rewrite all_known_spec in Hk.
      destruct (Hpass w controllers Hwf Hk) as [_ Hnone].
      { cbv zeta.
        destruct (select_and_distribute w trajectory controllers).1
          as [[?|]|]; simpl in *; done. }
      destruct (select_and_distribute w trajectory controllers).1
        as [[?|]|]; simpl in *; try done.
    + destruct (all_known reload controllers) eqn:Hk'; cbn [negb andb] in *.
      * right. rewrite all_known_spec in Hk'.
        destruct (Hpass (reload, w.2) controllers reload_wf Hk')
          as [_ Hnone].
        { cbv zeta.
          destruct (select_and_distribute (reload, w.2) trajectory
                      controllers).1 as [[?|]|]; simpl in *; done. }
        destruct (select_and_distribute (reload, w.2) trajectory
                    controllers).1 as [[?|]|]; simpl in *; try done.
      * left. simpl. split; [done|]. by apply all_known_false.
Qed.

End Queue.

(** *** Scenario D: queueing *)

(** The manager as [initialize] leaves it, with the registry of scenario D
    in which A and B are active. *)
Definition scenario_D_manager : TrajectoryExecutionManager :=
  mkTEM (mkManager true SUCCEEDED [] [] (-1) [] false)
        (scenario_D_registry true false) 0.

(** A trajectory for a joint that no controller drives. *)
Definition stray_trajectory : RobotTrajectory :=
  mkRT (mkJT 0 ["j9"] [mkPoint [1] [] [] 1])%Q empty_MT.

Lemma scenario_D_push :
  (push false insertion_sort true scenario_D_clock
     (scenario_D_reports true false) ["A"; "B"; "C"] scenario_D_joints
     scenario_D_manager two_joint_trajectory []).1 = true.
Proof. by vm_compute. Qed.

Lemma scenario_D_push_stray :
  (push false insertion_sort true scenario_D_clock
     (scenario_D_reports true false) ["A"; "B"; "C"] scenario_D_joints
     scenario_D_manager stray_trajectory []).1 = false.
Proof. by vm_compute. Qed.

(** A request that lists A twice, with the clock and the cache as in
    [selection_can_repeat_a_controller]: the context that is queued holds A
    twice, and both of its parts name j1 and j2. *)
Lemma push_can_repeat_a_controller :
  let r := push false insertion_sort true (λ n, if n <? 3 then 2 else 4)%Q
             (scenario_D_reports true false) ["A"; "B"; "C"]
             scenario_D_joints
             (mkTEM (mkManager true SUCCEEDED [] [] (-1) [] false)
                (scenario_D_registry false false) 0)
             two_joint_trajectory ["A"; "A"] in
  r.1 = true ∧
  controllers_ <$> trajectories_ (manager r.2) = [["A"; "A"]] ∧
  (λ context, (λ part, joint_names (joint_trajectory part))
                <$> trajectory_parts_ context)
  <$> trajectories_ (manager r.2) = [[["j1"; "j2"]; ["j1"; "j2"]]].
Proof. by vm_compute. Qed.

(** Witness of X18: the trajectory over j2 and j1, no controller being
    requested. *)
Lemma push_appends_a_well_formed_context_witness :
  let t := scenario_D_manager in
  let trajectory := two_joint_trajectory in
  let r := push false insertion_sort true scenario_D_clock
             (scenario_D_reports true false) ["A"; "B"; "C"]
             scenario_D_joints t trajectory [] in
  let R' := known_controllers_ r.2 in
  registry_wf (known_controllers_ t) ∧
  r.1 = true ∧
  (execution_complete_ (manager t) = false → r = (false, t)) ∧
  (r.1 = false → manager r.2 = manager t) ∧
  (r.1 = true →
   ∃ context,
     trajectories_ (manager r.2) = trajectories_ (manager t) ++ [context] ∧
     (@nil string ≠ [] → controllers_ context `sublist_of` []) ∧
     (∀ c, c ∈ controllers_ context → is_Some (R' !! c)) ∧
     (∀ i j ci cj, i ≠ j → controllers_ context !! i = Some ci →
        controllers_ context !! j = Some cj → ci ≠ cj →
        joints_ (known R' ci) ## joints_ (known R' cj)) ∧
     (NoDup (@nil string) →
      NoDup (controllers_ context) ∧
      pairwise_disjoint R' (controllers_ context)) ∧
     length (trajectory_parts_ context) = length (controllers_ context) ∧
     (∀ n, n ∈ joint_names (joint_trajectory trajectory) →
        ∃ i part, trajectory_parts_ context !! i = Some part ∧
          n ∈ joint_names (joint_trajectory part) ∧
          (NoDup (@nil string) →
           ∀ i' part', trajectory_parts_ context !! i' = Some part' →
             n ∈ joint_names (joint_trajectory part') → i' = i)) ∧
     (∀ n, n ∈ m_joint_names (multi_dof_joint_trajectory trajectory) →
        ∃ i part, trajectory_parts_ context !! i = Some part ∧
          n ∈ m_joint_names (multi_dof_joint_trajectory part) ∧
          (NoDup (@nil string) →
           ∀ i' part', trajectory_parts_ context !! i' = Some part' →
             n ∈ m_joint_names (multi_dof_joint_trajectory part') →
             i' = i))).
Proof.
  intros t trajectory r R'.
  split; [exact (scenario_D_registry_wf true false)|].
  split; [exact scenario_D_push|].
  exact (push_appends_a_well_formed_context false insertion_sort true
           scenario_D_clock (scenario_D_reports true false)
           ["A"; "B"; "C"] scenario_D_joints insertion_sort_perm
           t trajectory [] (scenario_D_registry_wf true false)).
Defined.

(** Witness of X19: the trajectory for j9. *)
Lemma push_fails_for_a_reason_witness :
  let t := scenario_D_manager in
  let r := push false insertion_sort true scenario_D_clock
             (scenario_D_reports true false) ["A"; "B"; "C"]
             scenario_D_joints t stray_trajectory [] in
  let R' := known_controllers_ r.2 in
  registry_wf (known_controllers_ t) ∧
  r.1 = false ∧
  (execution_complete_ (manager t) = false ∨
   (m_points (multi_dof_joint_trajectory stray_trajectory) = [] ∧
    points (joint_trajectory stray_trajectory) = []) ∨
   actuated_joints_of stray_trajectory = ∅ ∨
   (R' = reload ["A"; "B"; "C"] scenario_D_joints ∧
    ∃ c, c ∈ @nil string ∧ R' !! c = None) ∨
   (∀ S', S' `sublist_of` all_controller_names R' →
          pairwise_disjoint R' S' →
          covers R' (actuated_joints_of stray_trajectory) S' → S' = [])).
Proof.
  intros t r R'.
  split; [exact (scenario_D_registry_wf true false)|].
  split; [exact scenario_D_push_stray|].
  exact (push_fails_for_a_reason false insertion_sort true scenario_D_clock
           (scenario_D_reports true false) ["A"; "B"; "C"]
           scenario_D_joints insertion_sort_perm
           t stray_trajectory [] (scenario_D_registry_wf true false)
           scenario_D_push_stray).
Defined.

(** ** Making the controllers of a set of joints active *)

Lemma StronglySorted_sublist {A} (Rel : relation A) (l k : list A) :
  l `sublist_of` k → StronglySorted Rel k → StronglySorted Rel l.
Proof.
  induction 1 as [|x l k Hsub IH|x l k Hsub IH]; intros Hk.
  - constructor.
  - apply StronglySorted_cons in Hk as [Hall Hk].
    apply StronglySorted_cons. split; [|by apply IH].
    rewrite Forall_forall in *. intros y Hy. apply Hall.
    by apply (sublist_subseteq _ _ Hsub).
  - apply StronglySorted_cons in Hk as [_ Hk]. by apply IH.
Qed.

Section ActivationForJoints.

Variable std_sort : (nat → nat → bool) → list nat → list nat.
Variable has_controller_manager : bool.
Variable ros_Time_now : nat → Q.
Variable getControllerState : nat → string → ControllerState.
Variable loadController : nat → string → bool.
Variable switchControllers : nat → list string → list string → bool.
Variable std_includes : list string → list string → bool.

Hypothesis std_sort_perm : ∀ lt l, std_sort lt l ≡ₚ l.
Hypothesis std_includes_sorted : ∀ a b,
  StronglySorted string_le a → NoDup a →
  StronglySorted string_le b → NoDup b →
  (std_includes a b = true ↔ b ⊆ a).

(** X20.  When controllers are not managed and
    [ensureActiveControllersForJoints] returns true, every one of the joints
    is driven by a controller that is active in the registry that the call
    leaves; and no call to load or to switch controllers is made. *)
Theorem ensureActiveControllersForJoints_unmanaged R0 n joints :
  let r := ensureActiveControllersForJoints false std_sort
             has_controller_manager ros_Time_now getControllerState
             loadController switchControllers std_includes (R0, n) joints in
  r.1.2 = [] ∧
  (r.1.1 = true →
   ∀ j, j ∈ joints →
     ∃ c ci, r.2.1 !! c = Some ci ∧
             active_ (state_ ci) = true ∧ j ∈ joints_ ci).
Proof.
  intros r. subst r. unfold ensureActiveControllersForJoints.
  pose proof (selectControllers_in_options false std_sort
                has_controller_manager ros_Time_now getControllerState
                std_sort_perm (list_to_set joints) (all_controller_names R0)
                (R0, n)) as Hopt.
  pose proof (selectControllers_evolves false std_sort
                has_controller_manager ros_Time_now getControllerState
                (list_to_set joints) (all_controller_names R0) (R0, n))
    as Hev.
  simpl in *.
  destruct (selectControllers false std_sort has_controller_manager
              ros_Time_now getControllerState (list_to_set joints)
              (all_controller_names R0) (R0, n)) as [[sel|] w1];
    simpl in *; [|done].
  destruct (Hopt sel eq_refl) as (k & _ & Hin).
  apply options_sound in Hin as (_ & Hsub & _ & Hcov).
  unfold ensureActiveControllers. simpl. split; [done|].
  pose proof (updateControllersState_evolves has_controller_manager
                ros_Time_now getControllerState (all_controller_names R0)
                default_age w1) as Hev2.
  set (w2 := updateControllersState has_controller_manager ros_Time_now
               getControllerState default_age w1) in *.
  rewrite std_includes_sorted;
    [|apply sorted_names_sorted|apply sorted_names_NoDup| |].
  2:{ eapply StronglySorted_sublist; [exact Hsub|].
      apply sorted_names_sorted. }
  2:{ eapply sublist_NoDup; [|exact Hsub]. apply sorted_names_NoDup. }
  intros Hactive j Hj.
  assert (Hin : j ∈ combined_joints R0 sel).
  { apply Hcov. by apply elem_of_list_to_set. }
  apply combined_joints_elem in Hin as (c & Hc & Hjc).
  apply Hactive, sorted_names_elem, elem_of_dom in Hc as [ci Hci].
  apply map_lookup_filter_Some in Hci as [Hci Hact]. simpl in Hact.
  exists c, ci. split_and!; [done|done|].
  rewrite <- (known_lookup _ c ci Hci).
  pose proof (evolves_trans _ _ _ _ Hev Hev2) as (Hs & _).
  by rewrite <- (proj1 (Hs c)).
Qed.

End ActivationForJoints.

Lemma scenario_D_for_joints :
  (ensureActiveControllersForJoints false insertion_sort true
     scenario_D_clock (scenario_D_reports true false) loads_all switches_all
     includes_all (scenario_D_loaded, 0) ["j1"; "j3"]).1.1 = true.
Proof. by vm_compute. Qed.

(** Witness of X20: j1 and j3 on the registry that was just loaded; the
    controller manager reports A and B, which drive them, active. *)
Lemma ensureActiveControllersForJoints_unmanaged_witness :
  let r := ensureActiveControllersForJoints false insertion_sort true
             scenario_D_clock (scenario_D_reports true false) loads_all
             switches_all includes_all (scenario_D_loaded, 0)
             ["j1"; "j3"] in
  r.1.1 = true ∧
  r.1.2 = [] ∧
  (r.1.1 = true →
   ∀ j, j ∈ ["j1"; "j3"] →
     ∃ c ci, r.2.1 !! c = Some ci ∧
             active_ (state_ ci) = true ∧ j ∈ joints_ ci).
Proof.
  intros r.
  split; [exact scenario_D_for_joints|].
  exact (ensureActiveControllersForJoints_unmanaged insertion_sort true
           scenario_D_clock (scenario_D_reports true false) loads_all
           switches_all includes_all insertion_sort_perm includes_all_sorted
           scenario_D_loaded 0 ["j1"; "j3"]).
Defined.

End TEM.
